(** * MobileNoteApp: the geofence monitor and the reminder scheduler

    A shallow embedding of the services of the note application that decide
    when a location reminder fires:

    - [LocationService]      (permission, one-shot fix, haversine distance,
                              position subscription, geofence test),
    - [NotificationService]  (initialisation, time-based and proximity
                              notifications, countdown text),
    - [GeofencingService]    (start/stop, the evaluation pass, the periodic
                              poll, the set of notes already notified).

    JavaScript numbers are IEEE 754 binary64 values ([PrimFloat.float]); time
    values of [Date] objects are integral numbers of milliseconds ([Z]); the
    static fields of the three classes and the state of the device they talk
    to (live subscriptions, live timers, the notifications handed to the
    platform, the alerts shown) form one [World] that every operation threads.
    An [async] method is run to completion before the next one starts: the
    model describes sequential, non-overlapping invocations. *)

From Stdlib Require Import ZArith String Ascii List Bool Floats Lia DecimalString.
From stdpp Require Import base option list gmap strings sorting.

#[local] Set Warnings "-clear-no-such-hyp".

Local Open Scope string_scope.
Local Open Scope Z_scope.

(** ** The language runtime *)

(** How a call completes: normally with a value, or by throwing.  An awaited
    promise that rejects throws at the [await]. *)
Inductive Completion (A : Type) : Type :=
  | Return (a : A)
  | Throw.
Arguments Return {A} a.
Arguments Throw {A}.

(** A number that is neither NaN nor infinite. *)
Definition SFfinite (x : spec_float) : bool :=
  match x with S754_zero _ | S754_finite _ _ _ => true | _ => false end.

(** [Math.sin], [Math.cos], [Math.atan2] and [Number::toString] are
    implementation-approximated or long-winded in ECMAScript: the model takes
    them as an interface of the engine. *)
Class Builtins : Type := {
  Math_sin : float → float;
  Math_cos : float → float;
  Math_atan2 : float → float → float;
  Number_toString : float → string
}.

(** What the distance properties need of an engine: the values ECMAScript
    fixes exactly ([Math.sin(+0)] is [+0], [Math.atan2(+0, x)] is [+0] for
    [x > 0]), a cosine within [[-1, 1]] on finite arguments, and an odd sine. *)
Class BuiltinsSpec (B : Builtins) : Prop := {
  sin_opp : ∀ x, Math_sin (- x)%float = (- Math_sin x)%float;
  sin_zero : Math_sin 0%float = 0%float;
  atan2_zero_one : Math_atan2 0%float 1%float = 0%float;
  cos_range : ∀ x,
    SFfinite (Prim2SF x) = true → (abs (Math_cos x) <=? 1)%float = true
}.

(** [Math.PI], the binary64 value nearest to pi. *)
Definition Math_PI : float := 0x1.921fb54442d18p+1%float.

(** An integer of magnitude at most 2^53 as a number. *)
Definition Z_to_float (n : Z) : float :=
  SF2Prim (binary_normalize prec emax n 0 false).

(** [Math.round]: the nearest integer, ties towards +infinity; the sign of a
    zero result is the sign of the argument. *)
Definition Math_round (x : float) : float :=
  match Prim2SF x with
  | S754_finite s m e =>
      if 0 <=? e then x
      else
        let v := 2 * (if s then Z.neg m else Z.pos m) + 2 ^ (- e) in
        let n := v / 2 ^ (1 - e) in
        if n =? 0 then (if s then neg_zero else zero) else Z_to_float n
  | _ => x
  end.

(** Decimal digits of an integer, as a template literal prints it. *)
Definition Z_to_string (n : Z) : string := NilZero.string_of_int (Z.to_int n).

(** [String.prototype.padStart(n, "0")]. *)
Definition pad_zeros (n : nat) (s : string) : string :=
  String.concat "" (repeat "0" (n - String.length s)) ++ s.

(** [Number.prototype.toFixed(f)]: the integer [n] nearest to [x * 10^f]
    (the larger one on a tie), printed with [f] decimals; numbers of magnitude
    1e21 and more, infinities and NaN print as [Number::toString] does. *)
Definition Number_toFixed `{Builtins} (x : float) (f : nat) : string :=
  match Prim2SF x with
  | S754_zero _ => if (f =? 0)%nat then "0" else "0." ++ pad_zeros f ""
  | S754_finite s m e =>
      if (1e21 <=? abs x)%float then Number_toString x
      else
        let scaled := Z.pos m * 10 ^ Z.of_nat f in
        let n := if 0 <=? e then scaled * 2 ^ e
                 else (2 * scaled + 2 ^ (- e)) / 2 ^ (1 - e) in
        let digits := pad_zeros (S f) (Z_to_string n) in
        let k := (String.length digits - f)%nat in
        (if s then "-" else "") ++
        (if (f =? 0)%nat then digits
         else substring 0 k digits ++ "." ++ substring k f digits)
  | _ => Number_toString x
  end.

(** The double quote character, for template literals that contain one. *)
Definition dquote : string := String (ascii_of_nat 34) EmptyString.

(** [Array.prototype.sort(comparefn)] for a comparison function that orders
    consistently: the sort is stable, so the result is the one of inserting
    each element, last to first, before the first element it does not sort
    after. *)
Fixpoint Array_sort_insert {A} (comparefn : A → A → Z) (x : A) (sorted : list A) : list A :=
  match sorted with
  | [] => [x]
  | y :: rest =>
      if comparefn x y <=? 0 then x :: sorted
      else y :: Array_sort_insert comparefn x rest
  end.

Definition Array_sort {A} (comparefn : A → A → Z) (l : list A) : list A :=
  foldr (Array_sort_insert comparefn) [] l.

(** *** Text

    Where the code measures or scans a text, a character of a [string]
    stands for one UTF-16 code unit below 256: [String.length] is the
    [length] property and [substring] is [String.prototype.substring] on
    indices within the text. *)

(** The code units that [String.prototype.trim] strips and that the class
    [\s] of a regular expression matches: TAB, LF, VT, FF, CR, the space and
    the no-break space (the other white space of ECMAScript lies above 255). *)
Definition isWhiteSpace (c : ascii) : bool :=
  let n := nat_of_ascii c in
  ((9 <=? n) && (n <=? 13) || (n =? 32) || (n =? 160))%nat.

(** The text consists of white space only. *)
Fixpoint blank (s : string) : bool :=
  match s with
  | EmptyString => true
  | String c s' => isWhiteSpace c && blank s'
  end.

(** [String.prototype.trimStart]. *)
Fixpoint String_trimStart (s : string) : string :=
  match s with
  | EmptyString => EmptyString
  | String c s' => if isWhiteSpace c then String_trimStart s' else s
  end.

(** [String.prototype.trimEnd]: the text up to its last character that is
    not white space. *)
Fixpoint String_trimEnd (s : string) : string :=
  match s with
  | EmptyString => EmptyString
  | String c s' => if blank s then EmptyString else String c (String_trimEnd s')
  end.

(** [String.prototype.trim]. *)
Definition String_trim (s : string) : string := String_trimEnd (String_trimStart s).

(** [s.replace(/\s+/g, " ")], scanning from a position that is inside a run
    of white space ([inRun]) or not: every maximal run becomes one space. *)
Fixpoint replaceRunsFrom (inRun : bool) (s : string) : string :=
  match s with
  | EmptyString => EmptyString
  | String c s' =>
      if isWhiteSpace c then
        if inRun then replaceRunsFrom true s'
        else String " " (replaceRunsFrom true s')
      else String c (replaceRunsFrom false s')
  end.

Definition replaceWhiteSpaceRuns (s : string) : string := replaceRunsFrom false s.

(** [String.prototype.includes]. *)
Fixpoint String_includes (s search : string) : bool :=
  String.prefix search s ||
  match s with
  | EmptyString => false
  | String _ s' => String_includes s' search
  end.

(** [String.prototype.toLowerCase] on a code unit below 256: the letters A to
    Z and the capital letters of the Latin-1 supplement (all of 0xC0 to 0xDE
    but the multiplication sign) move up by 32. *)
Definition toLowerCase_unit (c : ascii) : ascii :=
  let n := nat_of_ascii c in
  if ((65 <=? n) && (n <=? 90) ||
      (192 <=? n) && (n <=? 222) && negb (n =? 215))%nat
  then ascii_of_nat (n + 32) else c.

Fixpoint String_toLowerCase (s : string) : string :=
  match s with
  | EmptyString => EmptyString
  | String c s' => String (toLowerCase_unit c) (String_toLowerCase s')
  end.

(** The [length] property of a text. *)
Definition String_length (s : string) : Z := Z.of_nat (String.length s).

(** [a || b] on texts. *)
Definition String_or (a b : string) : string := if String.eqb a "" then b else a.

(** A value used as a condition: [undefined] and the empty string are
    falsy. *)
Definition truthy (s : option string) : bool :=
  match s with
  | Some s => negb (String.eqb s "")
  | None => false
  end.

(** ** types.ts *)

Record LocationData : Type := {
  latitude : float;
  longitude : float;
  address : option string;
  radius : float          (* meters for geofencing *)
}.

(** Of a note the services read the identifier, the title, the content and the
    optional location; the remaining fields (category, tags, photos, reminder,
    dates) are never consulted by the modelled code. *)
Record Note : Type := {
  note_id : string;
  note_title : string;
  note_content : string;
  note_location : option LocationData
}.

Record PhotoAttachment : Type := {
  photo_id : string;
  photo_uri : string;
  photo_width : float;
  photo_height : float;
  photo_size : float
}.

Record ReminderData : Type := {
  reminder_id : string;
  reminder_dateTime : Z;
  reminder_notificationId : option string;
  reminder_completed : bool
}.

(** [Note] with all its members, as [NotesService] stores and returns it;
    the two dates are time values of valid [Date]s, in milliseconds. *)
Record NoteRecord : Type := {
  n_id : string;
  n_title : string;
  n_content : string;
  n_category : option string;
  n_tags : list string;
  n_photos : list PhotoAttachment;
  n_location : option LocationData;
  n_reminder : option ReminderData;
  n_createdAt : Z;
  n_updatedAt : Z
}.

(** [Omit<Note, "id" | "createdAt" | "updatedAt">], the argument of
    [NotesService.createNote]. *)
Record NoteInput : Type := {
  i_title : string;
  i_content : string;
  i_category : option string;
  i_tags : list string;
  i_photos : list PhotoAttachment;
  i_location : option LocationData;
  i_reminder : option ReminderData
}.

(** [Partial<Note>]: a member is absent ([None]) or present with a value of
    its type; a present optional member may hold [undefined]. *)
Record PartialNote : Type := {
  p_id : option string;
  p_title : option string;
  p_content : option string;
  p_category : option (option string);
  p_tags : option (list string);
  p_photos : option (list PhotoAttachment);
  p_location : option (option LocationData);
  p_reminder : option (option ReminderData);
  p_createdAt : option Z;
  p_updatedAt : option Z
}.

(** A note seen as a [Partial<Note>], and the argument of [createNote] seen
    as one. *)
Definition NoteRecord_as_partial (note : NoteRecord) : PartialNote :=
  {| p_id := Some (n_id note); p_title := Some (n_title note);
     p_content := Some (n_content note); p_category := Some (n_category note);
     p_tags := Some (n_tags note); p_photos := Some (n_photos note);
     p_location := Some (n_location note); p_reminder := Some (n_reminder note);
     p_createdAt := Some (n_createdAt note); p_updatedAt := Some (n_updatedAt note) |}.

Definition NoteInput_as_partial (noteData : NoteInput) : PartialNote :=
  {| p_id := None; p_title := Some (i_title noteData);
     p_content := Some (i_content noteData); p_category := Some (i_category noteData);
     p_tags := Some (i_tags noteData); p_photos := Some (i_photos noteData);
     p_location := Some (i_location noteData); p_reminder := Some (i_reminder noteData);
     p_createdAt := None; p_updatedAt := None |}.

(** A value stored under a key of a notification's [data] record. *)
Inductive DataValue : Type :=
  | DStr (s : string)
  | DNum (x : float).

(** [scheduledDate] is the time value of a valid [Date], in milliseconds. *)
Record NotificationData : Type := {
  nd_id : string;
  nd_title : string;
  nd_body : string;
  nd_data : option (list (string * DataValue));
  scheduledDate : Z
}.

Record AppError : Type := {
  code : string;
  message : string;
  recoverable : bool;
  userMessage : string
}.

Inductive PermissionStatus : Type := granted | denied | undetermined.

Definition is_granted (s : PermissionStatus) : bool :=
  match s with granted => true | _ => false end.

(** ** expo-location and expo-notifications values *)

(** A position delivered by the platform.  The other members of [coords]
    (altitude, accuracy, heading, speed) are not read. *)
Record LocationObject : Type := {
  coords_latitude : float;
  coords_longitude : float;
  timestamp : Z
}.

Record GeocodedAddress : Type := {
  streetNumber : option string;
  street : option string;
  city : option string;
  region : option string
}.

(** The argument of [Notifications.scheduleNotificationAsync]: the content and
    the trigger, [None] for an immediate notification and [Some s] for a
    time-interval trigger of [s] seconds. *)
Record NotificationRequestInput : Type := {
  content_title : string;
  content_body : string;
  content_data : list (string * DataValue);
  content_sound : option string;
  trigger : option Z
}.

Inductive OS : Type := android | ios.

(** ** The device *)

(** What the platform answers.  Every answer may depend on how many calls
    were made before ([steps]), so that any sequence of outcomes of a run is
    some [Platform]; the clock is indexed by the number of earlier reads. *)
Record Platform : Type := {
  hasServicesEnabledAsync : nat → Completion bool;
  requestForegroundPermissionsAsync : nat → Completion PermissionStatus;
  requestBackgroundPermissionsAsync : nat → Completion PermissionStatus;
  getCurrentPositionAsync : nat → Completion LocationObject;
  reverseGeocodeAsync : nat → Completion (list GeocodedAddress);
  watchPositionAsync : nat → Completion unit;
  subscriptionRemove : nat → Completion unit;
  getPermissionsAsync : nat → Completion PermissionStatus;
  requestPermissionsAsync : nat → Completion PermissionStatus;
  setNotificationChannelAsync : nat → Completion unit;
  scheduleNotificationAsync : nat → NotificationRequestInput → Completion string;
  Platform_OS : OS;
  (** [NotesService.getAllNotes()]: the notes read from storage.  The method
      body is one [try]/[catch] that returns [[]] on any error, so it never
      throws. *)
  getAllNotes : nat → list Note;
  clock : nat → Z
}.

Record Device : Type := {
  watchers : list positive;          (* live position subscriptions *)
  intervals : list (positive * Z);   (* live [setInterval] timers, with their period *)
  nextHandle : positive;             (* the next subscription or timer handle *)
  notificationLog : list (NotificationRequestInput * Completion string);
                                     (* every request made to the platform, oldest first,
                                        with the platform's answer *)
  alerts : list (string * string);   (* [Alert.alert] title and message, oldest first *)
  listeners : nat;                   (* notification listeners registered *)
  steps : nat;                       (* platform calls answered so far *)
  clockReads : nat                   (* clock reads so far *)
}.

(** The static fields of the three service classes. *)
Record GeofencingStatics : Type := {
  isActive : bool;
  checkInterval : option positive;
  lastNotifiedNotes : gset string
}.

Record LocationStatics : Type := {
  watchId : option positive;
  isMonitoring : bool
}.

Record NotificationStatics : Type := {
  isInitialized : bool
}.

Record World : Type := {
  geofencing : GeofencingStatics;
  locationSvc : LocationStatics;
  notificationSvc : NotificationStatics;
  device : Device
}.

Definition with_geofencing (f : GeofencingStatics → GeofencingStatics) (w : World) : World :=
  {| geofencing := f (geofencing w); locationSvc := locationSvc w;
     notificationSvc := notificationSvc w; device := device w |}.

Definition with_locationSvc (f : LocationStatics → LocationStatics) (w : World) : World :=
  {| geofencing := geofencing w; locationSvc := f (locationSvc w);
     notificationSvc := notificationSvc w; device := device w |}.

Definition with_notificationSvc (f : NotificationStatics → NotificationStatics) (w : World) : World :=
  {| geofencing := geofencing w; locationSvc := locationSvc w;
     notificationSvc := f (notificationSvc w); device := device w |}.

Definition with_device (f : Device → Device) (w : World) : World :=
  {| geofencing := geofencing w; locationSvc := locationSvc w;
     notificationSvc := notificationSvc w; device := f (device w) |}.

(** The world when the application has just been loaded. *)
Definition initialWorld : World :=
  {| geofencing := {| isActive := false; checkInterval := None; lastNotifiedNotes := ∅ |};
     locationSvc := {| watchId := None; isMonitoring := false |};
     notificationSvc := {| isInitialized := false |};
     device := {| watchers := []; intervals := []; nextHandle := 1%positive;
                  notificationLog := []; alerts := []; listeners := 0;
                  steps := 0; clockReads := 0 |} |}.

(** ** Effectful code *)

(** A method body: it runs in a world and completes in a world.  What was
    written before a throw stays written. *)
Definition M (A : Type) : Type := World → Completion A * World.

#[export] Instance M_ret : MRet M := λ A a w, (Return a, w).

#[export] Instance M_bind : MBind M := λ A B f m w,
  match m w with
  | (Return a, w') => f a w'
  | (Throw, w') => (Throw, w')
  end.

Definition throw {A} : M A := λ w, (Throw, w).

(** [try { body } catch { handler }]. *)
Definition try_catch {A} (body handler : M A) : M A := λ w,
  match body w with
  | (Return a, w') => (Return a, w')
  | (Throw, w') => handler w'
  end.

Definition get {A} (f : World → A) : M A := λ w, (Return (f w), w).

Definition modify (f : World → World) : M unit := λ w, (Return tt, f w).

(** [for (const x of xs) { await body(x) }]. *)
Fixpoint for_of {A} (xs : list A) (body : A → M unit) : M unit :=
  match xs with
  | [] => mret tt
  | x :: xs' => body x ;; for_of xs' body
  end.

Definition bump_steps (d : Device) : Device :=
  {| watchers := watchers d; intervals := intervals d; nextHandle := nextHandle d;
     notificationLog := notificationLog d; alerts := alerts d; listeners := listeners d;
     steps := S (steps d); clockReads := clockReads d |}.

(** One call of a platform service: its answer is the platform's for this step. *)
Definition platform_call {A} (answer : nat → Completion A) : M A := λ w,
  (answer (steps (device w)), with_device bump_steps w).

(** One call of a platform service that cannot fail. *)
Definition platform_read {A} (answer : nat → A) : M A :=
  platform_call (λ k, Return (answer k)).

Section Primitives.
Context (P : Platform).

(** [Date.now()], [new Date()]. *)
Definition Date_now : M Z := λ w,
  (Return (clock P (clockReads (device w))),
   with_device (λ d,
     {| watchers := watchers d; intervals := intervals d; nextHandle := nextHandle d;
        notificationLog := notificationLog d; alerts := alerts d; listeners := listeners d;
        steps := steps d; clockReads := S (clockReads d) |}) w).

(** [Alert.alert(title, message, ...)]. *)
Definition Alert_alert (title msg : string) : M unit :=
  modify (with_device (λ d,
    {| watchers := watchers d; intervals := intervals d; nextHandle := nextHandle d;
       notificationLog := notificationLog d; alerts := alerts d ++ [(title, msg)];
       listeners := listeners d; steps := steps d; clockReads := clockReads d |})).

(** [setInterval(callback, ms)]: a fresh, truthy handle of a live timer. *)
Definition setInterval (ms : Z) : M positive := λ w,
  let h := nextHandle (device w) in
  (Return h,
   with_device (λ d,
     {| watchers := watchers d; intervals := intervals d ++ [(h, ms)];
        nextHandle := Pos.succ h;
        notificationLog := notificationLog d; alerts := alerts d; listeners := listeners d;
        steps := steps d; clockReads := clockReads d |}) w).

(** [clearInterval(handle)]. *)
Definition clearInterval (h : positive) : M unit :=
  modify (with_device (λ d,
    {| watchers := watchers d;
       intervals := filter (λ t, t.1 ≠ h) (intervals d);
       nextHandle := nextHandle d;
       notificationLog := notificationLog d; alerts := alerts d; listeners := listeners d;
       steps := steps d; clockReads := clockReads d |})).

(** A fresh handle of a live position subscription. *)
Definition new_watcher : M positive := λ w,
  let h := nextHandle (device w) in
  (Return h,
   with_device (λ d,
     {| watchers := watchers d ++ [h]; intervals := intervals d;
        nextHandle := Pos.succ h;
        notificationLog := notificationLog d; alerts := alerts d; listeners := listeners d;
        steps := steps d; clockReads := clockReads d |}) w).

(** [Location.watchPositionAsync(options, callback)]: when the platform
    accepts, a new live subscription. *)
Definition Location_watchPositionAsync : M positive :=
  platform_call (watchPositionAsync P) ;; new_watcher.

(** [subscription.remove()]: when the platform accepts, the subscription is
    gone; when it throws, the subscription is still live. *)
Definition LocationSubscription_remove (h : positive) : M unit :=
  platform_call (subscriptionRemove P) ;;
  modify (with_device (λ d,
    {| watchers := filter (λ s, s ≠ h) (watchers d); intervals := intervals d;
       nextHandle := nextHandle d;
       notificationLog := notificationLog d; alerts := alerts d; listeners := listeners d;
       steps := steps d; clockReads := clockReads d |})).

(** [Notifications.scheduleNotificationAsync(request)]: the request and the
    platform's answer are logged; a rejected promise throws. *)
Definition Notifications_scheduleNotificationAsync (r : NotificationRequestInput) : M string := λ w,
  let answer := scheduleNotificationAsync P (steps (device w)) r in
  (answer,
   with_device (λ d,
     {| watchers := watchers d; intervals := intervals d; nextHandle := nextHandle d;
        notificationLog := notificationLog d ++ [(r, answer)];
        alerts := alerts d; listeners := listeners d;
        steps := S (steps d); clockReads := clockReads d |}) w).

End Primitives.

(** ** utils/ErrorHandler.ts *)
Module ErrorHandler.

Definition handle (error : AppError) : M unit :=
  if recoverable error then Alert_alert "Notice" (userMessage error)
  else Alert_alert "Error" (userMessage error).

Definition createError (code message userMessage : string) (recoverable : bool) : AppError :=
  {| code := code; message := message; userMessage := userMessage;
     recoverable := recoverable |}.

Definition LOCATION_PERMISSION_DENIED : AppError :=
  {| code := "LOCATION_PERMISSION_DENIED";
     message := "Location permission was denied by user";
     userMessage := "Location access is required for location-based reminders. Please enable location permissions in settings.";
     recoverable := true |}.

Definition NOTIFICATION_PERMISSION_DENIED : AppError :=
  {| code := "NOTIFICATION_PERMISSION_DENIED";
     message := "Notification permission was denied by user";
     userMessage := "Notification access is required for reminders. Please enable notification permissions in settings.";
     recoverable := true |}.

End ErrorHandler.

(** ** utils/validation.ts *)
Module ValidationUtils.

Definition validateLocation (location : LocationData) : list string :=
  (if (latitude location <? -90)%float || (90 <? latitude location)%float
   then ["Latitude must be between -90 and 90 degrees"] else []) ++
  (if (longitude location <? -180)%float || (180 <? longitude location)%float
   then ["Longitude must be between -180 and 180 degrees"] else []) ++
  (if (radius location <? 10)%float || (1000 <? radius location)%float
   then ["Geofence radius must be between 10 and 1000 meters"] else []).

Definition validateNote (note : PartialNote) : list string :=
  (if negb (truthy (p_title note)) ||
      (String_length (String_trim (default "" (p_title note))) =? 0)
   then ["Note title is required"] else []) ++
  (if truthy (p_title note) &&
      (100 <? String_length (default "" (p_title note)))
   then ["Note title must be less than 100 characters"] else []) ++
  (if truthy (p_content note) &&
      (10000 <? String_length (default "" (p_content note)))
   then ["Note content must be less than 10,000 characters"] else []) ++
  (match p_tags note with
   | Some tags =>
       if (10 <? length tags)%nat then ["Maximum 10 tags allowed per note"] else []
   | None => []
   end) ++
  (match p_photos note with
   | Some photos =>
       if (20 <? length photos)%nat then ["Maximum 20 photos allowed per note"] else []
   | None => []
   end).

Definition sanitizeText (text : string) : string :=
  replaceWhiteSpaceRuns (String_trim text).

(** [generateId], given the two values it reads: the time [Date.now()]
    returns and the text [Math.random().toString(36).substr(2, 9)]. *)
Definition generateId (now : Z) (random : string) : string :=
  Z_to_string now ++ "-" ++ random.

End ValidationUtils.

(** ** services/LocationService.ts *)
Module LocationService.
Section LocationService.
Context (P : Platform) `{B : Builtins}.

Definition set_watchId (h : option positive) : M unit :=
  modify (with_locationSvc (λ l, {| watchId := h; isMonitoring := isMonitoring l |})).

Definition set_isMonitoring (b : bool) : M unit :=
  modify (with_locationSvc (λ l, {| watchId := watchId l; isMonitoring := b |})).

(** Request location permissions. *)
Definition requestLocationPermission : M bool :=
  try_catch
    (foregroundStatus ← platform_call (requestForegroundPermissionsAsync P);
     if negb (is_granted foregroundStatus) then
       ErrorHandler.handle ErrorHandler.LOCATION_PERMISSION_DENIED ;;
       mret false
     else
       (* For background location (needed for geofencing) *)
       backgroundStatus ← platform_call (requestBackgroundPermissionsAsync P);
       (if negb (is_granted backgroundStatus) then
          Alert_alert "Background Location"
            ("For location-based reminders to work when the app is closed, please enable "
             ++ dquote ++ "Allow all the time" ++ dquote ++ " in location settings.")
        else mret tt) ;;
       (* Still return true for foreground location *)
       mret true)
    (mret false).

(** [[a, b, c, d].filter(Boolean).join(", ")]. *)
Definition join_present (parts : list (option string)) : string :=
  String.concat ", "
    (omap (λ p, match p with
                | Some s => if String.eqb s "" then None else Some s
                | None => None
                end) parts).

(** The reverse geocoding step of [getCurrentLocation], with its own
    [try]/[catch]: the address, or [undefined]. *)
Definition tryGetAddress : M (option string) :=
  try_catch
    (reverseGeocode ← platform_call (reverseGeocodeAsync P);
     match reverseGeocode with
     | addr :: _ =>
         mret (Some (join_present [streetNumber addr; street addr; city addr; region addr]))
     | [] => mret None
     end)
    (mret None).

(** [address || fallback]: an undefined or empty address gives way. *)
Definition or_else (a : option string) (fallback : string) : string :=
  match a with
  | Some s => if String.eqb s "" then fallback else s
  | None => fallback
  end.

(** Get current location. *)
Definition getCurrentLocation : M (option LocationData) :=
  try_catch
    ((* Check permissions first *)
     hasPermission ← requestLocationPermission;
     if negb hasPermission then mret None
     else
       (* Get current position *)
       location ← platform_call (getCurrentPositionAsync P);
       (* Try to get address *)
       address ← tryGetAddress;
       let locationData :=
         {| latitude := coords_latitude location;
            longitude := coords_longitude location;
            address :=
              Some (or_else address
                      (Number_toFixed (coords_latitude location) 6 ++ ", " ++
                       Number_toFixed (coords_longitude location) 6));
            radius := 100%float (* Default 100 meter radius *) |} in
       (* Validate location data *)
       match ValidationUtils.validateLocation locationData with
       | _ :: _ => throw
       | [] => mret (Some locationData)
       end)
    (ErrorHandler.handle
       {| code := "LOCATION_ERROR";
          message := "Failed to get current location";
          userMessage := "Unable to get your location. Please check location settings and try again.";
          recoverable := true |} ;;
     mret None).

(** Calculate distance between two points in meters. *)
Definition calculateDistance (lat1 lon1 lat2 lon2 : float) : float :=
  (let R := 6371000 in (* Earth's radius in meters *)
   let φ1 := (lat1 * Math_PI) / 180 in
   let φ2 := (lat2 * Math_PI) / 180 in
   let Δφ := ((lat2 - lat1) * Math_PI) / 180 in
   let Δλ := ((lon2 - lon1) * Math_PI) / 180 in
   let a :=
     Math_sin (Δφ / 2) * Math_sin (Δφ / 2) +
     Math_cos φ1 * Math_cos φ2 * Math_sin (Δλ / 2) * Math_sin (Δλ / 2) in
   let c := 2 * Math_atan2 (sqrt a) (sqrt (1 - a)) in
   R * c)%float.

(** Start monitoring location for geofencing.  The callback is
    [GeofencingService.handleLocationUpdate]. *)
Definition startLocationMonitoring : M bool :=
  try_catch
    (monitoring ← get (λ w, isMonitoring (locationSvc w));
     if monitoring : bool then mret true
     else
       hasPermission ← requestLocationPermission;
       if negb hasPermission then mret false
       else
         (* Start watching location *)
         h ← Location_watchPositionAsync P;
         set_watchId (Some h) ;;
         set_isMonitoring true ;;
         mret true)
    (mret false).

(** Stop location monitoring. *)
Definition stopLocationMonitoring : M unit :=
  try_catch
    (subscription ← get (λ w, watchId (locationSvc w));
     (match subscription : option positive return M unit with
      | Some h => LocationSubscription_remove P h ;; set_watchId None
      | None => mret tt
      end) ;;
     set_isMonitoring false)
    (mret tt).

(** An element of the arrays [checkGeofences] takes and returns. *)
Record NoteLocation : Type := {
  noteId : string;
  location : LocationData;
  noteTitle : string
}.

Record Triggered : Type := {
  t_noteId : string;
  t_noteTitle : string;
  t_distance : float
}.

(** Check if current location is within geofence of any notes. *)
Fixpoint checkGeofences (currentLocation : LocationObject)
    (noteLocations : list NoteLocation) : list Triggered :=
  match noteLocations with
  | [] => []
  | noteLocation :: rest =>
      let distance :=
        calculateDistance
          (coords_latitude currentLocation) (coords_longitude currentLocation)
          (latitude (location noteLocation)) (longitude (location noteLocation)) in
      if (distance <=? radius (location noteLocation))%float
      then {| t_noteId := noteId noteLocation;
              t_noteTitle := noteTitle noteLocation;
              t_distance := Math_round distance |}
           :: checkGeofences currentLocation rest
      else checkGeofences currentLocation rest
  end.

(** Check if location services are enabled. *)
Definition isLocationEnabled : M bool :=
  try_catch (platform_call (hasServicesEnabledAsync P)) (mret false).

(** Format location for display. *)
Definition formatLocationDisplay (location : LocationData) : string :=
  match address location with
  | Some a =>
      if negb (String.eqb a "") then a
      else Number_toFixed (latitude location) 6 ++ ", " ++
           Number_toFixed (longitude location) 6
  | None =>
      Number_toFixed (latitude location) 6 ++ ", " ++
      Number_toFixed (longitude location) 6
  end.

(** Get location accuracy description.  [!accuracy] holds of [null], of
    both zeros and of NaN. *)
Definition getAccuracyDescription (accuracy : option float) : string :=
  match accuracy with
  | None => "Unknown accuracy"
  | Some a =>
      if (a =? 0)%float || is_nan a then "Unknown accuracy"
      else if (a <=? 5)%float then "Very high accuracy"
      else if (a <=? 10)%float then "High accuracy"
      else if (a <=? 50)%float then "Good accuracy"
      else if (a <=? 100)%float then "Fair accuracy"
      else "Low accuracy"
  end.

(** Open device location settings: the dialog, and nothing else. *)
Definition openLocationSettings : M unit :=
  try_catch
    (Alert_alert "Location Settings"
       "Please enable location services in your device settings to use location-based reminders.")
    (mret tt).

End LocationService.
End LocationService.

(** ** services/NotificationService.ts *)
Module NotificationService.
Section NotificationService.
Context (P : Platform) `{B : Builtins}.

Definition set_isInitialized (b : bool) : M unit :=
  modify (with_notificationSvc (λ _, {| isInitialized := b |})).

(** Request notification permissions. *)
Definition requestPermission : M bool :=
  try_catch
    (existingStatus ← platform_call (getPermissionsAsync P);
     finalStatus ←
       (if negb (is_granted existingStatus)
        then platform_call (requestPermissionsAsync P)
        else mret existingStatus);
     if negb (is_granted finalStatus) then
       ErrorHandler.handle ErrorHandler.NOTIFICATION_PERMISSION_DENIED ;;
       mret false
     else
       (* For Android, set up notification channel *)
       (match Platform_OS P return M unit with
        | android => platform_call (setNotificationChannelAsync P)
        | ios => mret tt
        end) ;;
       mret true)
    (mret false).

(** Set up notification listeners: one for notifications received in the
    foreground, one for notifications tapped. *)
Definition setupNotificationListeners : M unit :=
  modify (with_device (λ d,
    {| watchers := watchers d; intervals := intervals d; nextHandle := nextHandle d;
       notificationLog := notificationLog d; alerts := alerts d;
       listeners := listeners d + 2;
       steps := steps d; clockReads := clockReads d |})).

(** Initialize notification service. *)
Definition initialize : M bool :=
  try_catch
    (initialized ← get (λ w, isInitialized (notificationSvc w));
     if initialized : bool then mret true
     else
       (* Request permissions *)
       hasPermission ← requestPermission;
       if negb hasPermission then mret false
       else
         (* Set up notification listeners *)
         setupNotificationListeners ;;
         set_isInitialized true ;;
         mret true)
    (mret false).

(** Schedule a time-based notification.  [scheduledDate] is a [Date]
    object, which is truthy: of the validation only the empty title
    rejects.  The clock is read once for the comparison ([new Date()]) and
    once more for the delay ([Date.now()]). *)
Definition scheduleNotification (notificationData : NotificationData) : M (option string) :=
  try_catch
    (initialize ;;
     (* Validate notification data *)
     if String.eqb (nd_title notificationData) "" then throw
     else
       (* Check if the scheduled date is in the future *)
       now ← Date_now P;
       if scheduledDate notificationData <=? now then throw
       else
         now' ← Date_now P;
         notificationId ← Notifications_scheduleNotificationAsync P
           {| content_title := nd_title notificationData;
              content_body := nd_body notificationData;
              content_data := default [] (nd_data notificationData);
              content_sound := Some "default";
              trigger := Some ((scheduledDate notificationData - now') / 1000) |};
         mret (Some notificationId))
    (ErrorHandler.handle
       {| code := "NOTIFICATION_SCHEDULE_ERROR";
          message := "Failed to schedule notification";
          userMessage := "Unable to set reminder. Please try again.";
          recoverable := true |} ;;
     mret None).

(** Schedule a location-based notification (immediate). *)
Definition scheduleLocationNotification (noteTitle noteId : string) (distance : float)
    : M (option string) :=
  try_catch
    (initialize ;;
     notificationId ← Notifications_scheduleNotificationAsync P
       {| content_title := "📍 Location Reminder";
          content_body :=
            "You're near " ++ dquote ++ noteTitle ++ dquote ++
            " (" ++ Number_toString distance ++ "m away)";
          content_data :=
            [("type", DStr "location"); ("noteId", DStr noteId); ("distance", DNum distance)];
          content_sound := Some "default";
          trigger := None (* Immediate notification *) |};
     mret (Some notificationId))
    (mret None).

(** ["s"] unless the count is one. *)
Definition plural (n : Z) : string := if n =? 1 then "" else "s".

(** Format notification time for display. *)
Definition formatNotificationTime (date : Z) : M string :=
  now ← Date_now P;
  let diffInMinutes := (date - now) / (1000 * 60) in
  if diffInMinutes <? 0 then mret "Past due"
  else if diffInMinutes <? 60 then
    mret ("In " ++ Z_to_string diffInMinutes ++ " minute" ++ plural diffInMinutes)
  else
    let diffInHours := diffInMinutes / 60 in
    if diffInHours <? 24 then
      mret ("In " ++ Z_to_string diffInHours ++ " hour" ++ plural diffInHours)
    else
      let diffInDays := diffInHours / 24 in
      mret ("In " ++ Z_to_string diffInDays ++ " day" ++ plural diffInDays).

(** Create a reminder notification for a note.  The identifier is the one
    [ValidationUtils.generateId] makes from a read of the clock and a draw of
    [Math.random], whose answers [Math_random_text] lists by step. *)
Definition createNoteReminder (Math_random_text : nat → string)
    (note : Note) (reminderDate : Z) : M (option string) :=
  try_catch
    (time ← Date_now P;
     random ← platform_read Math_random_text;
     let notificationData :=
       {| nd_id := ValidationUtils.generateId time random;
          nd_title := "📝 Note Reminder: " ++ note_title note;
          nd_body :=
            if negb (String.eqb (note_content note) "") then
              substring 0 100 (note_content note) ++
              (if 100 <? String_length (note_content note) then "..." else "")
            else "Tap to view your note";
          nd_data := Some [("type", DStr "reminder"); ("noteId", DStr (note_id note))];
          scheduledDate := reminderDate |} in
     scheduleNotification notificationData)
    (mret None).

(** Get notification permission status. *)
Definition getPermissionStatus : M PermissionStatus :=
  try_catch (platform_call (getPermissionsAsync P)) (mret undetermined).

(** Show immediate notification (for testing). *)
Definition showTestNotification : M unit :=
  try_catch
    (initialize ;;
     Notifications_scheduleNotificationAsync P
       {| content_title := "🎉 Test Notification";
          content_body := "Your notification system is working perfectly!";
          content_data := [("type", DStr "test")];
          content_sound := None;
          trigger := None (* Immediate *) |} ;;
     mret tt)
    (mret tt).

End NotificationService.
End NotificationService.

(** ** services/GeofencingService.ts *)
Module GeofencingService.
Section GeofencingService.
Context (P : Platform) `{B : Builtins}.

Import LocationService.

Definition set_isActive (b : bool) : M unit :=
  modify (with_geofencing (λ g,
    {| isActive := b; checkInterval := checkInterval g;
       lastNotifiedNotes := lastNotifiedNotes g |})).

Definition set_checkInterval (h : option positive) : M unit :=
  modify (with_geofencing (λ g,
    {| isActive := isActive g; checkInterval := h;
       lastNotifiedNotes := lastNotifiedNotes g |})).

Definition update_lastNotifiedNotes (f : gset string → gset string) : M unit :=
  modify (with_geofencing (λ g,
    {| isActive := isActive g; checkInterval := checkInterval g;
       lastNotifiedNotes := f (lastNotifiedNotes g) |})).

(** Handle when a geofence is triggered. *)
Definition handleGeofenceTriggered (triggered : Triggered) : M unit :=
  try_catch
    (notified ← get (λ w, lastNotifiedNotes (geofencing w));
     (* Avoid duplicate notifications *)
     if decide (t_noteId triggered ∈ (notified : gset string)) then mret tt
     else
       (* Mark as notified *)
       update_lastNotifiedNotes (λ s, s ∪ {[ t_noteId triggered ]}) ;;
       (* Send location-based notification *)
       NotificationService.scheduleLocationNotification P
         (t_noteTitle triggered) (t_noteId triggered) (t_distance triggered) ;;
       mret tt)
    (mret tt).

(** [note.location] is present. *)
Definition hasLocation (note : Note) : Prop := is_Some (note_location note).

(** The geofence targets of the notes that have a location. *)
Definition toNoteLocations (notesWithLocations : list Note) : list NoteLocation :=
  omap (λ note,
          (λ l, {| noteId := note_id note; location := l; noteTitle := note_title note |})
            <$> note_location note)
       notesWithLocations.

(** Check geofences for a specific location. *)
Definition checkGeofencesForLocation (currentLocation : LocationObject) : M unit :=
  try_catch
    ((* Get all notes with locations *)
     allNotes ← platform_read (getAllNotes P);
     let notesWithLocations := filter hasLocation (allNotes : list Note) in
     if (length notesWithLocations =? 0)%nat then mret tt
     else
       (* Prepare location data for checking *)
       let noteLocations := toNoteLocations notesWithLocations in
       (* Check which geofences are triggered *)
       let triggeredNotes := checkGeofences currentLocation noteLocations in
       (* Handle triggered geofences *)
       for_of triggeredNotes handleGeofenceTriggered ;;
       (* Clean up old notifications (remove notes that are no longer in range) *)
       let triggeredNoteIds : gset string := list_to_set (t_noteId <$> triggeredNotes) in
       update_lastNotifiedNotes (filter (λ noteId, noteId ∈ triggeredNoteIds)))
    (mret tt).

(** Handle location updates from LocationService. *)
Definition handleLocationUpdate (currentLocation : LocationObject) : M unit :=
  try_catch (checkGeofencesForLocation currentLocation) (mret tt).

(** Manually check all geofences (called periodically). *)
Definition checkAllGeofences : M unit :=
  try_catch
    ((* Get current location *)
     currentLocation ← getCurrentLocation P;
     match currentLocation : option LocationData return M unit with
     | None => mret tt
     | Some l =>
         now ← Date_now P;
         checkGeofencesForLocation
           {| coords_latitude := latitude l; coords_longitude := longitude l;
              timestamp := now |}
     end)
    (mret tt).

(** Start geofencing monitoring. *)
Definition startGeofencing : M bool :=
  try_catch
    (active ← get (λ w, isActive (geofencing w));
     if active : bool then mret true
     else
       (* Check if location services are enabled *)
       isLocationEnabled ← isLocationEnabled P;
       if negb isLocationEnabled then mret false
       else
         (* Start location monitoring *)
         started ← startLocationMonitoring P;
         (if started : bool then
            set_isActive true ;;
            (* Also set up periodic checks every 2 minutes *)
            h ← setInterval 120000;
            set_checkInterval (Some h)
          else mret tt) ;;
         mret started)
    (mret false).

(** Stop geofencing monitoring. *)
Definition stopGeofencing : M unit :=
  try_catch
    (stopLocationMonitoring P ;;
     timer ← get (λ w, checkInterval (geofencing w));
     (match timer : option positive return M unit with
      | Some h => clearInterval h ;; set_checkInterval None
      | None => mret tt
      end) ;;
     set_isActive false ;;
     update_lastNotifiedNotes (λ _, ∅))
    (mret tt).

(** Get geofencing status. *)
Definition getStatus (w : World) : bool * nat * nat :=
  (isActive (geofencing w), 0%nat, size (lastNotifiedNotes (geofencing w))).

(** Reset notification history (useful for testing). *)
Definition resetNotificationHistory : M unit :=
  update_lastNotifiedNotes (λ _, ∅).

(** The subscription delivers a sequence of positions, one update after
    the other. *)
Definition deliver (positions : list LocationObject) : M unit :=
  for_of positions handleLocationUpdate.

End GeofencingService.
End GeofencingService.

(** ** AsyncStorage, JSON and the code that inspects what it catches *)

(** What a [throw] carries: an [Error] object with its message, or the
    object literal [ErrorHandler.createError] builds, which is not an
    [Error]. *)
Inductive Thrown : Type :=
  | ErrorObject (message : string)
  | AppErrorObject (error : AppError).

(** How a promise settles. *)
Inductive Outcome (A : Type) : Type :=
  | Resolved (a : A)
  | Rejected (error : Thrown).
Arguments Resolved {A} a.
Arguments Rejected {A} error.

(** [JSON.stringify] and [JSON.parse] on the two kinds of value the notes
    service stores: the array of identifiers, and a note.  Parsing throws a
    [SyntaxError] on a text that is not JSON; the text under the key of the
    identifiers is taken to be no JSON at all or an array of strings, which
    is all the service writes there.  [JSON_parse_note] is [JSON.parse]
    followed by the three assignments of [getNoteById] that turn the dates
    of the parsed note back into [Date] objects; a text under the key of a
    note that parses is taken to hold a note with valid dates, which is all
    the service writes there. *)
Class Json : Type := {
  JSON_stringify_ids : list string → string;
  JSON_parse_ids : string → Outcome (list string);
  JSON_stringify_note : NoteRecord → string;
  JSON_parse_note : string → Outcome NoteRecord
}.

(** What the properties of the index of notes need of JSON: an array of
    strings reads back as it was written, and no value prints as the empty
    text. *)
Class JsonSpec (J : Json) : Prop := {
  JSON_parse_stringify_ids : ∀ ids, JSON_parse_ids (JSON_stringify_ids ids) = Resolved ids;
  JSON_stringify_ids_truthy : ∀ ids, JSON_stringify_ids ids ≠ "";
  JSON_stringify_note_truthy : ∀ note, JSON_stringify_note note ≠ ""
}.

(** The store behind AsyncStorage answers every request or rejects it with
    an [Error] of some message; the clock is indexed by the number of
    earlier reads, and so is the text
    [Math.random().toString(36).substr(2, 9)]. *)
Record StoragePlatform : Type := {
  getItemRejects : nat → option string;
  setItemRejects : nat → option string;
  removeItemRejects : nat → option string;
  storageClock : nat → Z;
  randomText : nat → string
}.

Record Disk : Type := {
  items : gmap string string;   (* what AsyncStorage holds *)
  requests : nat;               (* requests answered or rejected so far *)
  timeReads : nat;              (* clock reads so far *)
  draws : nat                   (* calls of [Math.random] so far *)
}.

Definition emptyDisk : Disk :=
  {| items := ∅; requests := 0; timeReads := 0; draws := 0 |}.

(** An [async] method body of the notes service. *)
Definition Task (A : Type) : Type := Disk → Outcome A * Disk.

#[export] Instance Task_ret : MRet Task := λ A a d, (Resolved a, d).

#[export] Instance Task_bind : MBind Task := λ A B f m d,
  match m d with
  | (Resolved a, d') => f a d'
  | (Rejected error, d') => (Rejected error, d')
  end.

(** [throw error]. *)
Definition reject {A} (error : Thrown) : Task A := λ d, (Rejected error, d).

(** [try { body } catch (error) { handler }]. *)
Definition try_catch_error {A} (body : Task A) (handler : Thrown → Task A) : Task A := λ d,
  match body d with
  | (Resolved a, d') => (Resolved a, d')
  | (Rejected error, d') => handler error d'
  end.

(** The value of an expression that may throw. *)
Definition evaluate {A} (o : Outcome A) : Task A := λ d, (o, d).

Section StoragePrimitives.
Context (SP : StoragePlatform).

Definition answered (d : Disk) (contents : gmap string string) : Disk :=
  {| items := contents; requests := S (requests d);
     timeReads := timeReads d; draws := draws d |}.

(** [AsyncStorage.getItem(key)]: the text stored, or [null]. *)
Definition AsyncStorage_getItem (key : string) : Task (option string) := λ d,
  match getItemRejects SP (requests d) with
  | Some message => (Rejected (ErrorObject message), answered d (items d))
  | None => (Resolved (items d !! key), answered d (items d))
  end.

(** [AsyncStorage.setItem(key, value)]; a rejected request stores nothing. *)
Definition AsyncStorage_setItem (key value : string) : Task unit := λ d,
  match setItemRejects SP (requests d) with
  | Some message => (Rejected (ErrorObject message), answered d (items d))
  | None => (Resolved tt, answered d (<[key := value]> (items d)))
  end.

(** [AsyncStorage.removeItem(key)]; a rejected request removes nothing. *)
Definition AsyncStorage_removeItem (key : string) : Task unit := λ d,
  match removeItemRejects SP (requests d) with
  | Some message => (Rejected (ErrorObject message), answered d (items d))
  | None => (Resolved tt, answered d (delete key (items d)))
  end.

(** [new Date()], [Date.now()]. *)
Definition new_Date : Task Z := λ d,
  (Resolved (storageClock SP (timeReads d)),
   {| items := items d; requests := requests d;
      timeReads := S (timeReads d); draws := draws d |}).

(** [Math.random().toString(36).substr(2, 9)]. *)
Definition Math_random_text : Task string := λ d,
  (Resolved (randomText SP (draws d)),
   {| items := items d; requests := requests d;
      timeReads := timeReads d; draws := S (draws d) |}).

End StoragePrimitives.

(** ** services/NotesService.ts *)
Module NotesService.
Section NotesService.
Context (SP : StoragePlatform) `{J : Json}.

Definition NOTES_KEY : string := "notes_list".
Definition NOTE_PREFIX : string := "note_".

Definition getNoteById (id : string) : Task (option NoteRecord) :=
  try_catch_error
    (noteData ← AsyncStorage_getItem SP (NOTE_PREFIX ++ id);
     if negb (truthy noteData) then mret None
     else
       (* JSON.parse, and the date strings converted back to Date objects *)
       note ← evaluate (JSON_parse_note (default "" noteData));
       mret (Some note))
    (λ _, mret None).

(** The loop of [getAllNotes]: the notes found so far, and the identifiers
    still to look up. *)
Fixpoint collectNotes (ids : list string) (notes : list NoteRecord) : Task (list NoteRecord) :=
  match ids with
  | [] => mret notes
  | id :: ids' =>
      note ← getNoteById id;
      collectNotes ids'
        (match note with
         | Some note => notes ++ [note]
         | None => notes
         end)
  end.

Definition getAllNotes : Task (list NoteRecord) :=
  try_catch_error
    (noteIds ← AsyncStorage_getItem SP NOTES_KEY;
     if negb (truthy noteIds) then mret []
     else
       ids ← evaluate (JSON_parse_ids (default "" noteIds));
       notes ← collectNotes ids [];
       mret (Array_sort (λ a b, n_updatedAt b - n_updatedAt a) notes))
    (λ _, mret []).

(** The error [createNote] and [updateNote] throw for a note that does not
    validate. *)
Definition validationError (validationErrors : list string) : AppError :=
  ErrorHandler.createError "VALIDATION_ERROR"
    ("Note validation failed: " ++ String.concat ", " validationErrors)
    (hd "" validationErrors)
    true.

Definition createNote (noteData : NoteInput) : Task NoteRecord :=
  try_catch_error
    ((* Validate note data *)
     let validationErrors := ValidationUtils.validateNote (NoteInput_as_partial noteData) in
     (if (0 <? length validationErrors)%nat
      then reject (AppErrorObject (validationError validationErrors))
      else mret tt) ;;
     time ← new_Date SP;
     random ← Math_random_text SP;
     let id := ValidationUtils.generateId time random in
     now ← new_Date SP;
     let note :=
       {| n_id := id;
          n_title := ValidationUtils.sanitizeText (i_title noteData);
          n_content := ValidationUtils.sanitizeText (String_or (i_content noteData) "");
          n_category := i_category noteData;
          n_tags := i_tags noteData;
          n_photos := i_photos noteData;
          n_location := i_location noteData;
          n_reminder := i_reminder noteData;
          n_createdAt := now;
          n_updatedAt := now |} in
     AsyncStorage_setItem SP (NOTE_PREFIX ++ id) (JSON_stringify_note note) ;;
     (* Update notes list *)
     noteIds ← AsyncStorage_getItem SP NOTES_KEY;
     ids ← (if truthy noteIds then evaluate (JSON_parse_ids (default "" noteIds))
            else mret []);
     AsyncStorage_setItem SP NOTES_KEY (JSON_stringify_ids (id :: ids)) ;;
     mret note)
    (λ error,
       match error with
       | ErrorObject message =>
           if String_includes message "validation" then reject error
           else
             reject (AppErrorObject
               (ErrorHandler.createError "STORAGE_ERROR" "Failed to create note"
                  "Unable to save note. Please try again." false))
       | AppErrorObject _ =>
           reject (AppErrorObject
             (ErrorHandler.createError "STORAGE_ERROR" "Failed to create note"
                "Unable to save note. Please try again." false))
       end).

(** [{ ...existingNote, ...updates }]. *)
Definition merge (existingNote : NoteRecord) (updates : PartialNote) : PartialNote :=
  {| p_id := Some (default (n_id existingNote) (p_id updates));
     p_title := Some (default (n_title existingNote) (p_title updates));
     p_content := Some (default (n_content existingNote) (p_content updates));
     p_category := Some (default (n_category existingNote) (p_category updates));
     p_tags := Some (default (n_tags existingNote) (p_tags updates));
     p_photos := Some (default (n_photos existingNote) (p_photos updates));
     p_location := Some (default (n_location existingNote) (p_location updates));
     p_reminder := Some (default (n_reminder existingNote) (p_reminder updates));
     p_createdAt := Some (default (n_createdAt existingNote) (p_createdAt updates));
     p_updatedAt := Some (default (n_updatedAt existingNote) (p_updatedAt updates)) |}.

Definition updateNote (id : string) (updates : PartialNote) : Task NoteRecord :=
  try_catch_error
    (existingNote ← getNoteById id;
     match existingNote : option NoteRecord return Task NoteRecord with
     | None =>
         reject (AppErrorObject
           (ErrorHandler.createError "NOTE_NOT_FOUND"
              ("Note with id " ++ id ++ " not found")
              "Note not found. It may have been deleted." true))
     | Some existingNote =>
         (* Create merged note for validation *)
         let mergedNote := merge existingNote updates in
         let validationErrors := ValidationUtils.validateNote mergedNote in
         (if (0 <? length validationErrors)%nat
          then reject (AppErrorObject (validationError validationErrors))
          else mret tt) ;;
         now ← new_Date SP;
         let updatedNote :=
           {| n_id := id; (* Ensure id doesn't change *)
              n_title :=
                if truthy (p_title updates)
                then ValidationUtils.sanitizeText (default "" (p_title updates))
                else n_title existingNote;
              n_content :=
                if truthy (p_content updates)
                then ValidationUtils.sanitizeText (default "" (p_content updates))
                else n_content existingNote;
              n_category := default (n_category existingNote) (p_category updates);
              n_tags := default (n_tags existingNote) (p_tags updates);
              n_photos := default (n_photos existingNote) (p_photos updates);
              n_location := default (n_location existingNote) (p_location updates);
              n_reminder := default (n_reminder existingNote) (p_reminder updates);
              n_createdAt := default (n_createdAt existingNote) (p_createdAt updates);
              n_updatedAt := now |} in
         AsyncStorage_setItem SP (NOTE_PREFIX ++ id) (JSON_stringify_note updatedNote) ;;
         mret updatedNote
     end)
    (λ error,
       match error with
       | ErrorObject message =>
           if String_includes message "validation" || String_includes message "not found"
           then reject error
           else
             reject (AppErrorObject
               (ErrorHandler.createError "STORAGE_ERROR" "Failed to update note"
                  "Unable to update note. Please try again." false))
       | AppErrorObject _ =>
           reject (AppErrorObject
             (ErrorHandler.createError "STORAGE_ERROR" "Failed to update note"
                "Unable to update note. Please try again." false))
       end).

Definition deleteNote (id : string) : Task unit :=
  try_catch_error
    (AsyncStorage_removeItem SP (NOTE_PREFIX ++ id) ;;
     (* Update notes list *)
     noteIds ← AsyncStorage_getItem SP NOTES_KEY;
     if truthy noteIds then
       ids ← evaluate (JSON_parse_ids (default "" noteIds));
       let filteredIds := filter (λ noteId, noteId ≠ id) (ids : list string) in
       AsyncStorage_setItem SP NOTES_KEY (JSON_stringify_ids filteredIds)
     else mret tt)
    (λ error, reject error).

(** The test of [searchNotes] on a note, for a query already in lower case. *)
Definition matchesQuery (lowercaseQuery : string) (note : NoteRecord) : bool :=
  String_includes (String_toLowerCase (n_title note)) lowercaseQuery ||
  String_includes (String_toLowerCase (n_content note)) lowercaseQuery ||
  existsb (λ tag, String_includes (String_toLowerCase tag) lowercaseQuery) (n_tags note) ||
  match n_category note with
  | Some category => String_includes (String_toLowerCase category) lowercaseQuery
  | None => false
  end.

Definition searchNotes (query : string) : Task (list NoteRecord) :=
  try_catch_error
    (allNotes ← getAllNotes;
     let lowercaseQuery := String_toLowerCase query in
     mret (List.filter (matchesQuery lowercaseQuery) allNotes))
    (λ _, mret []).

End NotesService.
End NotesService.

(** ** Notions the properties are stated with *)

Section Notions.
Context (P : Platform) `{B : Builtins}.

Import LocationService.

(** The geofence targets an evaluation pass reads when [k] platform calls
    were answered before it. *)
Definition targetsAt (k : nat) : list NoteLocation :=
  GeofencingService.toNoteLocations (filter GeofencingService.hasLocation (getAllNotes P k)).

(** The request [scheduleLocationNotification] hands to the platform. *)
Definition proximityRequest (t : Triggered) : NotificationRequestInput :=
  {| content_title := "📍 Location Reminder";
     content_body :=
       "You're near " ++ dquote ++ t_noteTitle t ++ dquote ++
       " (" ++ Number_toString (t_distance t) ++ "m away)";
     content_data :=
       [("type", DStr "location"); ("noteId", DStr (t_noteId t));
        ("distance", DNum (t_distance t))];
     content_sound := Some "default";
     trigger := None |}.

(** A target triggers at a position: [checkGeofences] on that target alone
    returns an entry. *)
Definition triggers (currentLocation : LocationObject) (target : NoteLocation) : bool :=
  match checkGeofences currentLocation [target] with
  | [] => false
  | _ :: _ => true
  end.

(** The entry [checkGeofences] returns for a target that triggers. *)
Definition triggeredEntry (currentLocation : LocationObject) (target : NoteLocation)
    : Triggered :=
  {| t_noteId := noteId target;
     t_noteTitle := noteTitle target;
     t_distance :=
       Math_round
         (calculateDistance
            (coords_latitude currentLocation) (coords_longitude currentLocation)
            (latitude (location target)) (longitude (location target))) |}.

(** The distance from a position to the centre of a target. *)
Definition distanceTo (currentLocation : LocationObject) (target : NoteLocation) : float :=
  calculateDistance
    (coords_latitude currentLocation) (coords_longitude currentLocation)
    (latitude (location target)) (longitude (location target)).

(** The triggered entries that are notified when [notified] is the set of
    notes already notified: the first entry of each note not in the set. *)
Fixpoint newlyTriggered (notified : gset string) (ts : list Triggered) : list Triggered :=
  match ts with
  | [] => []
  | t :: ts' =>
      if decide (t_noteId t ∈ notified) then newlyTriggered notified ts'
      else t :: newlyTriggered (notified ∪ {[ t_noteId t ]}) ts'
  end.

(** The requests of [ts] were handed to the platform between [w] and [w'],
    in order, and nothing else was. *)
Definition emitted (w w' : World) (ts : list Triggered) : Prop :=
  ∃ entries,
    notificationLog (device w') = (notificationLog (device w) ++ entries)%list ∧
    entries.*1 = proximityRequest <$> ts.

(** The entries of [ts] about a note. *)
Definition entriesOf (noteId : string) (ts : list Triggered) : list Triggered :=
  filter (λ t, t_noteId t = noteId) ts.

(** The request [scheduleNotification] hands to the platform when the delay
    is [seconds]. *)
Definition reminderRequest (notificationData : NotificationData) (seconds : Z)
    : NotificationRequestInput :=
  {| content_title := nd_title notificationData;
     content_body := nd_body notificationData;
     content_data := default [] (nd_data notificationData);
     content_sound := Some "default";
     trigger := Some seconds |}.

(** The time the comparison of [scheduleNotification] reads, and the time
    its delay is computed from: the next two reads of the clock. *)
Definition timeChecked (w : World) : Z := clock P (clockReads (device w)).
Definition timeScheduled (w : World) : Z := clock P (S (clockReads (device w))).

End Notions.

(** The note a request is about: the [noteId] member of its data. *)
Definition requestFor (noteId : string) (r : NotificationRequestInput) : bool :=
  existsb (λ kv, String.eqb kv.1 "noteId" &&
                 match kv.2 with DStr s => String.eqb s noteId | DNum _ => false end)
          (content_data r).

(** The logged requests that are about a note. *)
Definition requestsFor (noteId : string)
    (entries : list (NotificationRequestInput * Completion string))
    : list (NotificationRequestInput * Completion string) :=
  filter (λ entry, requestFor noteId entry.1) entries.

(** The set of notes already notified. *)
Definition notified (w : World) : gset string := lastNotifiedNotes (geofencing w).

(** The world once a note is marked as notified. *)
Definition markNotified (noteId : string) (w : World) : World :=
  with_geofencing (λ g,
    {| isActive := isActive g; checkInterval := checkInterval g;
       lastNotifiedNotes := lastNotifiedNotes g ∪ {[ noteId ]} |}) w.

(** What a method leaves alone when all it does is ask the platform, show
    alerts and touch the notification service's own field. *)
Definition quiet (w w' : World) : Prop :=
  geofencing w' = geofencing w ∧
  locationSvc w' = locationSvc w ∧
  watchers (device w') = watchers (device w) ∧
  intervals (device w') = intervals (device w) ∧
  nextHandle (device w') = nextHandle (device w) ∧
  notificationLog (device w') = notificationLog (device w) ∧
  clockReads (device w') = clockReads (device w).

(** The set of notified notes is the same in both worlds. *)
Definition sameNotified (w w' : World) : Prop := notified w' = notified w.

(** Whatever world the method runs in, the world it ends in is related to
    it by [R]. *)
Definition preserves {A} (R : relation World) (m : M A) : Prop := ∀ w, R w (m w).2.

(** The method completes normally in every world. *)
Definition neverThrows {A} (m : M A) : Prop := ∀ w, ∃ a, (m w).1 = Return a.

(** Half the angle, in radians, of a difference of degrees. *)
Definition halfAngle (d : float) : float := (d * Math_PI / 180 / 2)%float.

(** The number one, as the specification of binary64 has it. *)
Definition SFone : spec_float := Eval vm_compute in Prim2SF 1.

(** The monitor is not running and holds no subscription and no timer. *)
Definition dormant (w : World) : Prop :=
  isActive (geofencing w) = false ∧
  isMonitoring (locationSvc w) = false ∧
  watchers (device w) = [] ∧
  intervals (device w) = [].

(** The calls the application makes to the three services, and the two
    callbacks the monitor registers: the position subscription delivers
    [LocationUpdate]s, the timer fires [PeriodicCheck]s. *)
Inductive Call : Type :=
  | StartGeofencing
  | StopGeofencing
  | LocationUpdate (currentLocation : LocationObject)
  | PeriodicCheck
  | ResetNotificationHistory
  | RequestLocationPermission
  | GetCurrentLocation
  | StartLocationMonitoring
  | StopLocationMonitoring
  | IsLocationEnabled
  | OpenLocationSettings
  | Initialize
  | RequestPermission
  | ScheduleNotification (notificationData : NotificationData)
  | ScheduleLocationNotification (noteTitle noteId : string) (distance : float)
  | GetPermissionStatus
  | ShowTestNotification.

(** The call, made and awaited; its result is dropped. *)
Definition perform (P : Platform) `{B : Builtins} (c : Call) : M unit :=
  match c with
  | StartGeofencing => GeofencingService.startGeofencing P ;; mret tt
  | StopGeofencing => GeofencingService.stopGeofencing P
  | LocationUpdate currentLocation => GeofencingService.handleLocationUpdate P currentLocation
  | PeriodicCheck => GeofencingService.checkAllGeofences P
  | ResetNotificationHistory => GeofencingService.resetNotificationHistory
  | RequestLocationPermission => LocationService.requestLocationPermission P ;; mret tt
  | GetCurrentLocation => LocationService.getCurrentLocation P ;; mret tt
  | StartLocationMonitoring => LocationService.startLocationMonitoring P ;; mret tt
  | StopLocationMonitoring => LocationService.stopLocationMonitoring P
  | IsLocationEnabled => LocationService.isLocationEnabled P ;; mret tt
  | OpenLocationSettings => LocationService.openLocationSettings
  | Initialize => NotificationService.initialize P ;; mret tt
  | RequestPermission => NotificationService.requestPermission P ;; mret tt
  | ScheduleNotification notificationData =>
      NotificationService.scheduleNotification P notificationData ;; mret tt
  | ScheduleLocationNotification noteTitle noteId distance =>
      NotificationService.scheduleLocationNotification P noteTitle noteId distance ;; mret tt
  | GetPermissionStatus => NotificationService.getPermissionStatus P ;; mret tt
  | ShowTestNotification => NotificationService.showTestNotification P
  end.

(** The device holds what the services have a handle on, and nothing else:
    the live subscriptions are the one [watchId] names, the live timers the
    two-minute one [checkInterval] names, the flags say whether there is one,
    and the two notification listeners are registered once the notification
    service is initialised. *)
Definition tidy (w : World) : Prop :=
  watchers (device w) = option_list (watchId (locationSvc w)) ∧
  isMonitoring (locationSvc w) = bool_decide (is_Some (watchId (locationSvc w))) ∧
  intervals (device w) =
    option_list ((λ h, (h, 120000)) <$> checkInterval (geofencing w)) ∧
  isActive (geofencing w) = bool_decide (is_Some (checkInterval (geofencing w))) ∧
  listeners (device w) = (if isInitialized (notificationSvc w) then 2 else 0)%nat.

(** [m] keeps the invariant [I]. *)
Definition keeps {A} (I : World → Prop) (m : M A) : Prop :=
  ∀ w, I w → I (m w).2.

(** Worlds that differ in nothing [tidy] reads. *)
Definition sameHandles (w w' : World) : Prop :=
  watchers (device w') = watchers (device w) ∧
  intervals (device w') = intervals (device w) ∧
  listeners (device w') = listeners (device w) ∧
  watchId (locationSvc w') = watchId (locationSvc w) ∧
  isMonitoring (locationSvc w') = isMonitoring (locationSvc w) ∧
  checkInterval (geofencing w') = checkInterval (geofencing w) ∧
  isActive (geofencing w') = isActive (geofencing w) ∧
  isInitialized (notificationSvc w') = isInitialized (notificationSvc w).

(** The alert [requestLocationPermission] shows when only the foreground
    permission is granted. *)
Definition backgroundLocationNotice : string * string :=
  ("Background Location",
   "For location-based reminders to work when the app is closed, please enable "
   ++ dquote ++ "Allow all the time" ++ dquote ++ " in location settings.").

(** The location [getCurrentLocation] builds from a position and the
    address the reverse geocoder gave, if any. *)
Definition locationOfFix `{B : Builtins} (position : LocationObject) (address : option string)
    : LocationData :=
  {| latitude := coords_latitude position;
     longitude := coords_longitude position;
     address :=
       Some (LocationService.or_else address
               (Number_toFixed (coords_latitude position) 6 ++ ", " ++
                Number_toFixed (coords_longitude position) 6));
     radius := 100%float |}.

(** On Android the notification channel is set up at step [k] without an
    exception; elsewhere there is nothing to set up. *)
Definition channelReady (P : Platform) (k : nat) : Prop :=
  Platform_OS P = android → setNotificationChannelAsync P k = Return tt.

(** From step [k] on, the platform lets [requestPermission] through: the
    permission is there or is granted on request, and the channel is set
    up. *)
Definition notificationsAllowed (P : Platform) (k : nat) : Prop :=
  match getPermissionsAsync P k with
  | Return granted => channelReady P (S k)
  | Return _ => requestPermissionsAsync P (S k) = Return granted ∧ channelReady P (S (S k))
  | Throw => False
  end.

(** The countdown text for a count and a unit. *)
Definition countdown (n : Z) (unit : string) : string :=
  "In " ++ Z_to_string n ++ " " ++ unit ++ NotificationService.plural n.

(** The reminder [createNoteReminder] hands to [scheduleNotification]. *)
Definition noteReminder (id : string) (note : Note) (reminderDate : Z) : NotificationData :=
  {| nd_id := id;
     nd_title := "📝 Note Reminder: " ++ note_title note;
     nd_body :=
       if negb (String.eqb (note_content note) "") then
         substring 0 100 (note_content note) ++
         (if 100 <? String_length (note_content note) then "..." else "")
       else "Tap to view your note";
     nd_data := Some [("type", DStr "reminder"); ("noteId", DStr (note_id note))];
     scheduledDate := reminderDate |}.

(** The world once [generateId] has read the clock and drawn its random
    text. *)
Definition afterGenerateId (P : Platform) (w : World) : World :=
  with_device bump_steps (Date_now P w).2.

(** [lo <= x <= hi], or [x] is NaN. *)
Definition withinOrNaN (lo hi x : float) : bool :=
  is_nan x || ((lo <=? x)%float && (x <=? hi)%float).

(** The text is not empty, begins and ends with a character that is not
    white space, and its white space is single spaces. *)
Fixpoint tight (s : string) : bool :=
  match s with
  | EmptyString => false
  | String c s' =>
      negb (isWhiteSpace c) &&
      match s' with
      | EmptyString => true
      | String d s'' =>
          if isWhiteSpace d then Ascii.eqb d " " && tight s'' else tight s'
      end
  end.

(** The normal form of [sanitizeText]: the empty text, or a tight one. *)
Definition normalized (s : string) : Prop := s = "" ∨ tight s = true.

(** No non-empty suffix of the text is blank. *)
Fixpoint endsTight (s : string) : bool :=
  match s with
  | EmptyString => true
  | String c s' => negb (blank s) && endsTight s'
  end.

(** The note stored under an identifier, when there is a text and it reads
    as a note. *)
Definition storedNote `{J : Json} (contents : gmap string string) (id : string)
    : option NoteRecord :=
  match contents !! (NotesService.NOTE_PREFIX ++ id) with
  | Some text =>
      if String.eqb text "" then None
      else match JSON_parse_note text with
           | Resolved note => Some note
           | Rejected _ => None
           end
  | None => None
  end.

(** The identifiers the index lists: none when there is no index. *)
Definition indexedIds `{J : Json} (contents : gmap string string) : Outcome (list string) :=
  if truthy (contents !! NotesService.NOTES_KEY)
  then JSON_parse_ids (default "" (contents !! NotesService.NOTES_KEY))
  else Resolved [].

(** Newest first: no note is followed by one updated later. *)
Definition newestFirst (notes : list NoteRecord) : Prop :=
  StronglySorted (λ a b, n_updatedAt b ≤ n_updatedAt a) notes.

(** No request to read is rejected from the [k]-th on. *)
Definition readable (SP : StoragePlatform) (k : nat) : Prop :=
  ∀ j, (k ≤ j)%nat → getItemRejects SP j = None.

(** The store rejects no request from the [k]-th on. *)
Definition accepting (SP : StoragePlatform) (k : nat) : Prop :=
  ∀ j, (k ≤ j)%nat →
    getItemRejects SP j = None ∧ setItemRejects SP j = None ∧ removeItemRejects SP j = None.

(** The error [createNote] throws from its [catch]. *)
Definition createFailed : AppError :=
  ErrorHandler.createError "STORAGE_ERROR" "Failed to create note"
    "Unable to save note. Please try again." false.

(** The error [updateNote] throws from its [catch]. *)
Definition updateFailed : AppError :=
  ErrorHandler.createError "STORAGE_ERROR" "Failed to update note"
    "Unable to update note. Please try again." false.

(** The note [createNote] builds from its argument, an identifier and the
    time. *)
Definition noteCreated (noteData : NoteInput) (id : string) (now : Z) : NoteRecord :=
  {| n_id := id;
     n_title := ValidationUtils.sanitizeText (i_title noteData);
     n_content := ValidationUtils.sanitizeText (String_or (i_content noteData) "");
     n_category := i_category noteData;
     n_tags := i_tags noteData;
     n_photos := i_photos noteData;
     n_location := i_location noteData;
     n_reminder := i_reminder noteData;
     n_createdAt := now;
     n_updatedAt := now |}.

(** The note [updateNote] builds from the stored one, the updates and the
    time. *)
Definition noteUpdated (id : string) (existingNote : NoteRecord) (updates : PartialNote)
    (now : Z) : NoteRecord :=
  {| n_id := id;
     n_title :=
       if truthy (p_title updates)
       then ValidationUtils.sanitizeText (default "" (p_title updates))
       else n_title existingNote;
     n_content :=
       if truthy (p_content updates)
       then ValidationUtils.sanitizeText (default "" (p_content updates))
       else n_content existingNote;
     n_category := default (n_category existingNote) (p_category updates);
     n_tags := default (n_tags existingNote) (p_tags updates);
     n_photos := default (n_photos existingNote) (p_photos updates);
     n_location := default (n_location existingNote) (p_location updates);
     n_reminder := default (n_reminder existingNote) (p_reminder updates);
     n_createdAt := default (n_createdAt existingNote) (p_createdAt updates);
     n_updatedAt := now |}.

(** The coordinates the data model admits. *)
Definition validCoordinate (lat lon : float) : Prop :=
  ((-90 <=? lat)%float && (lat <=? 90)%float &&
   (-180 <=? lon)%float && (lon <=? 180)%float) = true.

(** [SFbounded E x]: [x] is a zero or a finite number whose exponent is at most [E]. *)
Definition SFbounded (E : Z) (x : spec_float) : Prop :=
  match x with
  | S754_zero _ => True
  | S754_finite _ _ e => e ≤ E
  | _ => False
  end.

(** ** An engine and platforms to run the model on *)

(** Small-angle arithmetic for the engine's functions: adequate at geofence
    scale, and enough to evaluate the model on examples.  Integers below 1e21
    print exactly, and the modelled code prints no other number; a number
    with a fraction prints truncated. *)
Module SmallAngle.

Definition sin (x : float) : float := (x * (1 - x * x / 6))%float.

Definition cos (x : float) : float :=
  (let c := 1 - x * x / 2 in if abs c <=? 1 then c else 1)%float.

Definition atan2 (y x : float) : float := (y / x)%float.

Definition toString (x : float) : string :=
  match Prim2SF x with
  | S754_nan => "NaN"
  | S754_infinity s => if s then "-Infinity" else "Infinity"
  | S754_zero _ => "0"
  | S754_finite s m e =>
      let n := if 0 <=? e then Z.pos m * 2 ^ e else Z.pos m / 2 ^ (- e) in
      (if s then "-" else "") ++ Z_to_string n
  end.

#[export] Instance builtins : Builtins :=
  {| Math_sin := sin; Math_cos := cos; Math_atan2 := atan2; Number_toString := toString |}.

End SmallAngle.

(** An engine that rounds to nearest where the distance between (8, -86) and
    (-8, 94) needs it: at 8 degrees (in radians) its sine and cosine, and at
    [Math.PI / 2] its sine, are the binary64 numbers nearest to the exact
    values, which is what the engines' libraries return there.  Elsewhere it
    is the small-angle engine, whose [atan2] of a NaN is NaN, as ECMAScript
    requires. *)
Module NearestAt8.

(** 8 degrees in radians, [8 * Math.PI / 180], and [Math.PI / 2]. *)
Definition eightDegrees : float := 0x1.1df46a2529d39p-3%float.
Definition halfPi : float := 0x1.921fb54442d18p+0%float.

(** The binary64 numbers nearest to sin(8 degrees) and cos(8 degrees). *)
Definition sin8 : float := 0x1.1d06c968d9e19p-3%float.
Definition cos8 : float := 0x1.fb046a930947ap-1%float.

Definition sin (x : float) : float :=
  (if abs x =? eightDegrees then (if x <? 0 then - sin8 else sin8)
   else if abs x =? halfPi then (if x <? 0 then - 1 else 1)
   else SmallAngle.sin x)%float.

Definition cos (x : float) : float :=
  (if abs x =? eightDegrees then cos8 else SmallAngle.cos x)%float.

#[export] Instance builtins : Builtins :=
  {| Math_sin := sin; Math_cos := cos; Math_atan2 := SmallAngle.atan2;
     Number_toString := SmallAngle.toString |}.

End NearestAt8.

(** A codec that meets [JsonSpec], to run the notes service on. It prints
    an array of strings the way [JSON.stringify] does for texts without
    control characters; of a note it keeps the identifier, the title, the
    content and the two dates, which is all the sample notes carry. *)
Module PlainJson.

(** The double quote. *)
Definition q : ascii := "034"%char.

(** The text of a string literal between its quotes: a backslash goes
    before each double quote and each backslash. *)
Fixpoint escape (s : string) : string :=
  match s with
  | EmptyString => EmptyString
  | String c s' =>
      if (Ascii.eqb c q || Ascii.eqb c "\")%bool
      then String "\" (String c (escape s'))
      else String c (escape s')
  end.

(** The literals of an array, separated by commas, and what follows. *)
Fixpoint printElements (ids : list string) (rest : string) : string :=
  match ids with
  | [] => rest
  | id :: ids' =>
      String q (escape id ++ String q
        match ids' with
        | [] => rest
        | _ :: _ => String "," (printElements ids' rest)
        end)
  end.

Definition stringify_ids (ids : list string) : string :=
  String "[" (printElements ids "]").

(** The literal at the head of a text, read from behind its opening quote,
    and the rest of the text. *)
Fixpoint readLiteral (s : string) : option (string * string) :=
  match s with
  | EmptyString => None
  | String c s' =>
      if Ascii.eqb c q then Some (EmptyString, s')
      else if Ascii.eqb c "\" then
        match s' with
        | EmptyString => None
        | String e s'' =>
            match readLiteral s'' with
            | Some (t, rest) => Some (String e t, rest)
            | None => None
            end
        end
      else
        match readLiteral s' with
        | Some (t, rest) => Some (String c t, rest)
        | None => None
        end
  end.

(** The elements of an array, read from behind the quote that opens the
    first one. *)
Fixpoint readElements (fuel : nat) (s : string) : option (list string) :=
  match fuel with
  | O => None
  | S fuel' =>
      match readLiteral s with
      | Some (t, String "," (String c rest)) =>
          if Ascii.eqb c q then cons t <$> readElements fuel' rest else None
      | Some (t, "]") => Some [t]
      | _ => None
      end
  end.

Definition syntaxError {A} : Outcome A := Rejected (ErrorObject "Unexpected token").

Definition parse_ids (s : string) : Outcome (list string) :=
  match s with
  | "[]" => Resolved []
  | String "[" (String c rest) =>
      if Ascii.eqb c q then
        match readElements (String.length rest) rest with
        | Some ids => Resolved ids
        | None => syntaxError
        end
      else syntaxError
  | _ => syntaxError
  end.

(** A note prints as the array of its identifier, title, content and two
    dates; the other members are not kept. *)
Definition stringify_note (note : NoteRecord) : string :=
  stringify_ids
    [n_id note; n_title note; n_content note;
     Z_to_string (n_createdAt note); Z_to_string (n_updatedAt note)].

Definition parse_note (s : string) : Outcome NoteRecord :=
  match parse_ids s with
  | Resolved [id; title; content; createdAt; updatedAt] =>
      match NilZero.int_of_string createdAt, NilZero.int_of_string updatedAt with
      | Some created, Some updated =>
          Resolved
            {| n_id := id; n_title := title; n_content := content;
               n_category := None; n_tags := []; n_photos := [];
               n_location := None; n_reminder := None;
               n_createdAt := Z.of_int created; n_updatedAt := Z.of_int updated |}
      | _, _ => syntaxError
      end
  | Resolved _ => syntaxError
  | Rejected error => Rejected error
  end.

#[export] Instance json : Json :=
  {| JSON_stringify_ids := stringify_ids; JSON_parse_ids := parse_ids;
     JSON_stringify_note := stringify_note; JSON_parse_note := parse_note |}.

End PlainJson.

Module Sample.

(** A platform on which every permission is granted and every call
    succeeds; the clock advances by a second at each read. *)
Definition cooperative (notes : list Note) : Platform :=
  {| hasServicesEnabledAsync := λ _, Return true;
     requestForegroundPermissionsAsync := λ _, Return granted;
     requestBackgroundPermissionsAsync := λ _, Return granted;
     getCurrentPositionAsync := λ _,
       Return {| coords_latitude := 0; coords_longitude := 0; timestamp := 0 |};
     reverseGeocodeAsync := λ _, Return [];
     watchPositionAsync := λ _, Return tt;
     subscriptionRemove := λ _, Return tt;
     getPermissionsAsync := λ _, Return granted;
     requestPermissionsAsync := λ _, Return granted;
     setNotificationChannelAsync := λ _, Return tt;
     scheduleNotificationAsync := λ k _, Return ("notification-" ++ Z_to_string (Z.of_nat k));
     Platform_OS := ios;
     getAllNotes := λ _, notes;
     clock := λ k, 1700000000000 + 1000 * Z.of_nat k |}.

(** The cooperative platform, except that the notification service
    rejects every request. *)
Definition rejecting (notes : list Note) : Platform :=
  let p := cooperative notes in
  {| hasServicesEnabledAsync := hasServicesEnabledAsync p;
     requestForegroundPermissionsAsync := requestForegroundPermissionsAsync p;
     requestBackgroundPermissionsAsync := requestBackgroundPermissionsAsync p;
     getCurrentPositionAsync := getCurrentPositionAsync p;
     reverseGeocodeAsync := reverseGeocodeAsync p;
     watchPositionAsync := watchPositionAsync p;
     subscriptionRemove := subscriptionRemove p;
     getPermissionsAsync := getPermissionsAsync p;
     requestPermissionsAsync := requestPermissionsAsync p;
     setNotificationChannelAsync := setNotificationChannelAsync p;
     scheduleNotificationAsync := λ _ _, Throw;
     Platform_OS := Platform_OS p;
     getAllNotes := getAllNotes p;
     clock := clock p |}.

(** The cooperative platform, except that releasing a subscription throws. *)
Definition stuckSubscription (notes : list Note) : Platform :=
  let p := cooperative notes in
  {| hasServicesEnabledAsync := hasServicesEnabledAsync p;
     requestForegroundPermissionsAsync := requestForegroundPermissionsAsync p;
     requestBackgroundPermissionsAsync := requestBackgroundPermissionsAsync p;
     getCurrentPositionAsync := getCurrentPositionAsync p;
     reverseGeocodeAsync := reverseGeocodeAsync p;
     watchPositionAsync := watchPositionAsync p;
     subscriptionRemove := λ _, Throw;
     getPermissionsAsync := getPermissionsAsync p;
     requestPermissionsAsync := requestPermissionsAsync p;
     setNotificationChannelAsync := setNotificationChannelAsync p;
     scheduleNotificationAsync := scheduleNotificationAsync p;
     Platform_OS := Platform_OS p;
     getAllNotes := getAllNotes p;
     clock := clock p |}.

(** The cooperative platform, except that the one-shot position fix fails. *)
Definition noFix (notes : list Note) : Platform :=
  let p := cooperative notes in
  {| hasServicesEnabledAsync := hasServicesEnabledAsync p;
     requestForegroundPermissionsAsync := requestForegroundPermissionsAsync p;
     requestBackgroundPermissionsAsync := requestBackgroundPermissionsAsync p;
     getCurrentPositionAsync := λ _, Throw;
     reverseGeocodeAsync := reverseGeocodeAsync p;
     watchPositionAsync := watchPositionAsync p;
     subscriptionRemove := subscriptionRemove p;
     getPermissionsAsync := getPermissionsAsync p;
     requestPermissionsAsync := requestPermissionsAsync p;
     setNotificationChannelAsync := setNotificationChannelAsync p;
     scheduleNotificationAsync := scheduleNotificationAsync p;
     Platform_OS := Platform_OS p;
     getAllNotes := getAllNotes p;
     clock := clock p |}.

(** A note anchored at (0, 0) with a radius of 50 m. *)
Definition noteA : Note :=
  {| note_id := "A"; note_title := "Buy milk"; note_content := "";
     note_location :=
       Some {| latitude := 0; longitude := 0; address := None; radius := 50 |} |}.

Definition targetA : LocationService.NoteLocation :=
  {| LocationService.noteId := "A";
     LocationService.location :=
       {| latitude := 0; longitude := 0; address := None; radius := 50 |};
     LocationService.noteTitle := "Buy milk" |}.

(** A note without a location. *)
Definition plainNote : Note :=
  {| note_id := "B"; note_title := "Call home"; note_content := "";
     note_location := None |}.

(** The position (lat, lon), in degrees. *)
Definition at_ (lat lon : float) : LocationObject :=
  {| coords_latitude := lat; coords_longitude := lon; timestamp := 0 |}.

Definition inside : LocationObject := at_ 0 0.
Definition outside : LocationObject := at_ 1 1.

Definition reminder (title : string) (date : Z) : NotificationData :=
  {| nd_id := "r1"; nd_title := title; nd_body := "Tap to view your note";
     nd_data := Some [("type", DStr "reminder"); ("noteId", DStr "A")];
     scheduledDate := date |}.

(** A target centred at (40, -75) whose radius is the distance to the
    position (40.0009, -75): the position lies exactly on the boundary. *)
Definition boundaryPosition : LocationObject :=
  at_ 0x1.4001d7dbf4880p+5 (-75).

Definition boundaryRadius : float :=
  Eval vm_compute in LocationService.calculateDistance (B := SmallAngle.builtins) 0x1.4001d7dbf4880p+5 (-75) 40 (-75).

Definition boundaryTarget : LocationService.NoteLocation :=
  {| LocationService.noteId := "C";
     LocationService.location :=
       {| latitude := 40; longitude := -75; address := None; radius := boundaryRadius |};
     LocationService.noteTitle := "Pharmacy" |}.

(** A store that rejects no request; its clock advances by a second at
    each read, and each random text is different. *)
Definition reliableStore : StoragePlatform :=
  {| getItemRejects := λ _, None; setItemRejects := λ _, None; removeItemRejects := λ _, None;
     storageClock := λ k, 1700000000000 + 1000 * Z.of_nat k;
     randomText := λ k, "k3j9x2m1" ++ Z_to_string (Z.of_nat k) |}.

(** What a user types for a new note. *)
Definition draft : NoteInput :=
  {| i_title := "  Buy   milk "; i_content := "Two litres"; i_category := None;
     i_tags := []; i_photos := []; i_location := None; i_reminder := None |}.

(** An edit that renames a note and sends an empty content. *)
Definition retitle : PartialNote :=
  {| p_id := None; p_title := Some "Buy oat milk"; p_content := Some "";
     p_category := None; p_tags := None; p_photos := None; p_location := None;
     p_reminder := None; p_createdAt := None; p_updatedAt := None |}.

(** A target whose radius is not a number, centred on the position
    [inside] of the sample note. *)
Definition radiusless : LocationService.NoteLocation :=
  {| LocationService.noteId := "note-nan";
     LocationService.location :=
       {| latitude := 0; longitude := 0; address := None; radius := nan |};
     LocationService.noteTitle := "No radius" |}.

End Sample.

(** * Properties *)

(** ** Reasoning about method bodies *)

Lemma bind_run {A B} (m : M A) (f : A → M B) w :
  (m ≫= f) w =
  match m w with
  | (Return a, w') => f a w'
  | (Throw, w') => (Throw, w')
  end.
Proof. reflexivity. Qed.

Lemma try_catch_run {A} (m h : M A) w :
  try_catch m h w =
  match m w with
  | (Return a, w') => (Return a, w')
  | (Throw, w') => h w'
  end.
Proof. reflexivity. Qed.

#[export] Instance quiet_preorder : PreOrder quiet.
Proof.
  split.
  - intros w. by repeat split.
  - intros w1 w2 w3 (?&?&?&?&?&?&?) (?&?&?&?&?&?&?). repeat split; congruence.
Qed.

#[export] Instance sameNotified_preorder : PreOrder sameNotified.
Proof.
  split.
  - by intros w.
  - unfold sameNotified. intros w1 w2 w3 ? ?. congruence.
Qed.

Lemma quiet_sameNotified w w' : quiet w w' → sameNotified w w'.
Proof. unfold sameNotified, notified. by intros (-> & _). Qed.

Section Preserves.
Context (R : relation World) `{!PreOrder R} {A B : Type}.

Lemma preserves_ret (a : A) : preserves R (mret a).
Proof. by intros w. Qed.

Lemma preserves_throw : preserves R (@throw A).
Proof. by intros w. Qed.

Lemma preserves_get (f : World → A) : preserves R (get f).
Proof. by intros w. Qed.

Lemma preserves_bind (m : M A) (f : A → M B) :
  preserves R m → (∀ a, preserves R (f a)) → preserves R (m ≫= f).
Proof.
  intros Hm Hf w. rewrite bind_run. specialize (Hm w).
  destruct (m w) as [[a|] w']; [|done].
  etrans; [exact Hm|apply Hf].
Qed.

Lemma preserves_try_catch (m h : M A) :
  preserves R m → preserves R h → preserves R (try_catch m h).
Proof.
  intros Hm Hh w. rewrite try_catch_run. specialize (Hm w).
  destruct (m w) as [[a|] w']; [done|].
  etrans; [exact Hm|apply Hh].
Qed.

End Preserves.

Lemma preserves_weaken {A} (m : M A) : preserves quiet m → preserves sameNotified m.
Proof. intros H w. apply quiet_sameNotified, H. Qed.

Lemma neverThrows_ret {A} (a : A) : neverThrows (mret a).
Proof. intros w. by exists a. Qed.

Lemma neverThrows_try_catch {A} (m h : M A) :
  neverThrows h → neverThrows (try_catch m h).
Proof.
  intros Hh w. rewrite try_catch_run.
  destruct (m w) as [[a|] w']; [by exists a|apply Hh].
Qed.

Lemma quietly_platform_call {A} (answer : nat → Completion A) :
  preserves quiet (platform_call answer).
Proof. intros w. by repeat split. Qed.

Lemma quietly_Alert_alert title msg : preserves quiet (Alert_alert title msg).
Proof. intros w. by repeat split. Qed.

Lemma quietly_handle e : preserves quiet (ErrorHandler.handle e).
Proof. unfold ErrorHandler.handle. destruct (recoverable e); apply quietly_Alert_alert. Qed.

Lemma neverThrows_handle e : neverThrows (ErrorHandler.handle e).
Proof. intros w. exists tt. unfold ErrorHandler.handle. by destruct (recoverable e). Qed.

(** Decomposes a goal [preserves R m] along the structure of [m]. *)
Ltac preserves_step :=
  first
    [ apply preserves_try_catch; [tc_solve| |]
    | apply preserves_bind; [tc_solve| |intros ?]
    | apply preserves_ret; tc_solve
    | apply preserves_throw; tc_solve
    | apply preserves_get; tc_solve
    | apply quietly_platform_call
    | apply quietly_Alert_alert
    | apply quietly_handle
    | match goal with
      | |- preserves _ (if ?b then _ else _) => destruct b
      | |- preserves _ (match ?x with _ => _ end) => destruct x
      end ].

Section ServicesAreQuiet.
Context (P : Platform) `{B : Builtins}.

Lemma quietly_requestLocationPermission :
  preserves quiet (LocationService.requestLocationPermission P).
Proof. unfold LocationService.requestLocationPermission. repeat preserves_step. Qed.

Lemma quietly_getCurrentLocation : preserves quiet (LocationService.getCurrentLocation P).
Proof.
  unfold LocationService.getCurrentLocation, LocationService.tryGetAddress.
  repeat first [apply quietly_requestLocationPermission | preserves_step].
Qed.

Lemma quietly_isLocationEnabled : preserves quiet (LocationService.isLocationEnabled P).
Proof. unfold LocationService.isLocationEnabled. repeat preserves_step. Qed.

Lemma quietly_requestPermission : preserves quiet (NotificationService.requestPermission P).
Proof. unfold NotificationService.requestPermission. repeat preserves_step. Qed.

Lemma quietly_initialize : preserves quiet (NotificationService.initialize P).
Proof.
  unfold NotificationService.initialize.
  repeat first [apply quietly_requestPermission | preserves_step];
    intros w; by repeat split.
Qed.

Lemma neverThrows_initialize : neverThrows (NotificationService.initialize P).
Proof. apply neverThrows_try_catch, neverThrows_ret. Qed.

(** Starting the monitor leaves the set of notified notes alone. *)
Lemma startGeofencing_sameNotified :
  preserves sameNotified (GeofencingService.startGeofencing P).
Proof.
  unfold GeofencingService.startGeofencing, LocationService.startLocationMonitoring,
    Location_watchPositionAsync.
  repeat first
    [ apply preserves_weaken, quietly_isLocationEnabled
    | apply preserves_weaken, quietly_requestLocationPermission
    | apply preserves_weaken, quietly_platform_call
    | preserves_step ];
    by intros w.
Qed.

End ServicesAreQuiet.

(** ** The notification log *)

Section Emission.
Context (P : Platform) `{B : Builtins}.
Import LocationService.

(** What [scheduleLocationNotification] does: one request, logged with the
    platform's answer; the monitor's own state is as before. *)
Lemma scheduleLocationNotification_spec t w :
  ∃ answer w',
    NotificationService.scheduleLocationNotification P
      (t_noteTitle t) (t_noteId t) (t_distance t) w
    = (Return (match answer with Return i => Some i | Throw => None end), w') ∧
    geofencing w' = geofencing w ∧
    notificationLog (device w') =
      (notificationLog (device w) ++ [(proximityRequest t, answer)])%list.
Proof.
  unfold NotificationService.scheduleLocationNotification.
  rewrite try_catch_run, bind_run.
  pose proof (quietly_initialize P w) as Hq.
  destruct (neverThrows_initialize P w) as [b Hb].
  destruct (NotificationService.initialize P w) as [r w1]. cbn in Hb, Hq. subst r.
  destruct Hq as (Hg & _ & _ & _ & _ & Hlog & _).
  rewrite bind_run.
  unfold Notifications_scheduleNotificationAsync at 1.
  fold (proximityRequest t).
  destruct (scheduleNotificationAsync P (steps (device w1)) (proximityRequest t))
    as [i|]; [exists (Return i)|exists Throw];
    (eexists; split; [reflexivity|]); cbn; by rewrite Hg, Hlog.
Qed.

Lemma emitted_nil w w' :
  notificationLog (device w') = notificationLog (device w) → emitted w w' [].
Proof. intros E. exists []. by rewrite E, app_nil_r. Qed.

Lemma emitted_app w1 w2 w3 ts ts' :
  emitted w1 w2 ts → emitted w2 w3 ts' → emitted w1 w3 (ts ++ ts').
Proof.
  intros (L & E & HL) (L' & E' & HL'). exists (L ++ L')%list.
  rewrite E', E, fmap_app, fmap_app, HL, HL'. by rewrite app_assoc.
Qed.

(** A triggered entry is handled: the note is in the set afterwards, and it
    was notified exactly when it was not in the set before. *)
Lemma handleGeofenceTriggered_spec t w :
  ∃ w',
    GeofencingService.handleGeofenceTriggered P t w = (Return tt, w') ∧
    notified w' = notified w ∪ {[ t_noteId t ]} ∧
    emitted w w' (newlyTriggered (notified w) [t]).
Proof.
  unfold GeofencingService.handleGeofenceTriggered.
  rewrite try_catch_run, bind_run. cbn [get]. cbn [newlyTriggered].
  fold (notified w). destruct (decide (t_noteId t ∈ notified w)) as [Hin|Hout].
  - exists w. split; [done|]. split; [set_solver|by apply emitted_nil].
  - rewrite bind_run. cbn [GeofencingService.update_lastNotifiedNotes modify].
    set (w1 := with_geofencing _ w).
    destruct (scheduleLocationNotification_spec t w1) as (answer & w' & Hrun & Hg & Hlog).
    rewrite bind_run, Hrun. exists w'. split; [done|]. split.
    + unfold notified. by rewrite Hg.
    + exists [(proximityRequest t, answer)]. by rewrite Hlog.
Qed.

Lemma for_of_handleGeofenceTriggered ts : ∀ w,
  ∃ w',
    for_of ts (GeofencingService.handleGeofenceTriggered P) w = (Return tt, w') ∧
    notified w' = notified w ∪ list_to_set (t_noteId <$> ts) ∧
    emitted w w' (newlyTriggered (notified w) ts).
Proof.
  induction ts as [|t ts IH]; intros w.
  - exists w. split; [done|]. split; [set_solver|by apply emitted_nil].
  - destruct (handleGeofenceTriggered_spec t w) as (w1 & Hrun & Hset & Hem).
    destruct (IH w1) as (w' & Hrun' & Hset' & Hem').
    exists w'. cbn [for_of]. rewrite bind_run, Hrun. split; [done|]. split.
    + rewrite Hset', Hset. set_solver.
    + cbn [newlyTriggered] in Hem |- *.
      destruct (decide (t_noteId t ∈ notified w)) as [Hin|Hout].
      * replace (notified w1) with (notified w) in Hem' by (rewrite Hset; set_solver).
        apply (emitted_app _ _ _ [] _ Hem Hem').
      * rewrite Hset in Hem'. apply (emitted_app _ _ _ [t] _ Hem Hem').
Qed.

Lemma length_toNoteLocations notes :
  length (GeofencingService.toNoteLocations (filter GeofencingService.hasLocation notes))
  = length (filter GeofencingService.hasLocation notes).
Proof.
  unfold GeofencingService.toNoteLocations.
  induction notes as [|n notes IH]; [done|].
  rewrite filter_cons. destruct (decide (GeofencingService.hasLocation n)) as [[l Hl]|]; [|done].
  cbn. rewrite Hl. cbn. by rewrite IH.
Qed.

(** One evaluation pass.  With no target the world is left as it was;
    otherwise the set of notified notes becomes the set of triggered notes,
    and the notes notified are the triggered ones that were not in the set. *)
Lemma checkGeofencesForLocation_spec currentLocation w :
  let targets := targetsAt P (steps (device w)) in
  let triggeredNotes := checkGeofences currentLocation targets in
  ∃ w',
    GeofencingService.checkGeofencesForLocation P currentLocation w = (Return tt, w') ∧
    notified w' =
      (match targets with
       | [] => notified w
       | _ :: _ => list_to_set (t_noteId <$> triggeredNotes)
       end) ∧
    emitted w w' (newlyTriggered (notified w) triggeredNotes).
Proof.
  intros targets triggeredNotes.
  unfold GeofencingService.checkGeofencesForLocation.
  rewrite try_catch_run, bind_run. cbn [platform_read platform_call].
  set (w0 := with_device bump_steps w).
  fold (targetsAt P (steps (device w))). fold targets.
  pose proof (length_toNoteLocations (getAllNotes P (steps (device w)))) as Hlen.
  fold (targetsAt P (steps (device w))) in Hlen. fold targets in Hlen. rewrite <- Hlen.
  destruct targets as [|target targets'] eqn:Etargets.
  - exists w0. split; [done|]. split; [done|]. by apply emitted_nil.
  - cbn [length Nat.eqb]. fold triggeredNotes.
    destruct (for_of_handleGeofenceTriggered triggeredNotes w0) as (w1 & Hrun & Hset & Hem).
    rewrite bind_run, Hrun. cbn [GeofencingService.update_lastNotifiedNotes modify].
    eexists. split; [reflexivity|]. split.
    + unfold notified in *. cbn. rewrite Hset. cbn.
      apply set_eq. intros x. rewrite elem_of_filter. set_solver.
    + destruct Hem as (L & E & HL). exists L. split; [|done]. cbn. by rewrite E.
Qed.

Lemma handleLocationUpdate_spec currentLocation w :
  GeofencingService.handleLocationUpdate P currentLocation w
  = GeofencingService.checkGeofencesForLocation P currentLocation w.
Proof.
  unfold GeofencingService.handleLocationUpdate. rewrite try_catch_run.
  by destruct (checkGeofencesForLocation_spec currentLocation w) as (w' & -> & _).
Qed.

End Emission.

(** ** Binary64 arithmetic

    Facts about the primitive operations, read off their specification
    ([FloatAxioms], [SpecFloat]): how the sign travels through products,
    quotients and differences, and when a product or a quotient cannot
    overflow. *)

Section FloatFacts.
Local Open Scope float_scope.

Lemma SFmul_comm x y : SF64mul x y = SF64mul y x.
Proof.
  destruct x as [sx|sx| |sx mx ex], y as [sy|sy| |sy my ey]; cbn;
    rewrite ?(xorb_comm sx sy); try reflexivity.
  by rewrite Pos.mul_comm, Z.add_comm.
Qed.

Lemma binary_round_aux_opp s m e l :
  binary_round_aux prec emax (negb s) m e l = SFopp (binary_round_aux prec emax s m e l).
Proof.
  unfold binary_round_aux.
  destruct (shr_fexp prec emax m e l) as [mrs' e'].
  destruct (shr_fexp _ _ _ e' loc_Exact) as [mrs'' e''].
  destruct (shr_m mrs''); [done| |done].
  by destruct (e'' <=? emax - prec)%Z.
Qed.

Lemma SFmul_opp_l x y : SF64mul (SFopp x) y = SFopp (SF64mul x y).
Proof.
  destruct x as [sx|sx| |sx mx ex], y as [sy|sy| |sy my ey]; cbn -[binary_round_aux];
    rewrite <- ?negb_xorb_l; try reflexivity.
  apply binary_round_aux_opp.
Qed.

Lemma SFdiv_opp_l x y : SF64div (SFopp x) y = SFopp (SF64div x y).
Proof.
  destruct x as [sx|sx| |sx mx ex], y as [sy|sy| |sy my ey]; cbn -[binary_round_aux SFdiv_core_binary];
    rewrite <- ?negb_xorb_l; try reflexivity.
  destruct (SFdiv_core_binary _ _ _ _ _ _) as [[mz ez] lz].
  apply binary_round_aux_opp.
Qed.

Lemma float_mul_comm x y : x * y = y * x.
Proof. apply Prim2SF_inj. rewrite !mul_spec. apply SFmul_comm. Qed.
Lemma float_mul_opp_l x y : (- x) * y = - (x * y).
Proof. apply Prim2SF_inj. rewrite opp_spec, !mul_spec, opp_spec. apply SFmul_opp_l. Qed.
Lemma float_div_opp_l x y : (- x) / y = - (x / y).
Proof. apply Prim2SF_inj. rewrite opp_spec, !div_spec, opp_spec. apply SFdiv_opp_l. Qed.
Lemma float_opp_involutive x : - - x = x.
Proof. apply Prim2SF_inj. rewrite !opp_spec. destruct (Prim2SF x); cbn; by rewrite ?negb_involutive. Qed.
Lemma float_mul_opp_opp x y : (- x) * (- y) = x * y.
Proof. by rewrite float_mul_opp_l, (float_mul_comm x (- y)), float_mul_opp_l, float_opp_involutive, float_mul_comm. Qed.

Lemma binary_round_opp s m e :
  binary_round prec emax (negb s) m e = SFopp (binary_round prec emax s m e).
Proof.
  unfold binary_round. destruct (shl_align _ _ _) as [mz ez].
  apply binary_round_aux_opp.
Qed.

Lemma binary_normalize_opp m e :
  m ≠ 0%Z →
  binary_normalize prec emax (- m) e false = SFopp (binary_normalize prec emax m e false).
Proof.
  destruct m as [|p|p]; [done| |]; intros _; cbn -[binary_round].
  - apply (binary_round_opp false).
  - apply (binary_round_opp true).
Qed.

Lemma SFsub_swap x y :
  SF64sub y x = SFopp (SF64sub x y) ∨ SF64sub y x = SF64sub x y.
Proof.
  destruct x as [sx|sx| |sx mx ex], y as [sy|sy| |sy my ey];
    try (destruct sx, sy; cbn; auto; fail); try (cbn; auto; fail);
    try (left; cbn; by rewrite ?negb_involutive).
  cbn -[binary_normalize]. rewrite (Z.min_comm ey ex).
    set (a := cond_Zopp sx _). set (b := cond_Zopp sy _).
  destruct (decide (a - b = 0)%Z) as [E|N].
  - right. replace (b - a)%Z with 0%Z by lia. by rewrite E.
  - left. replace (b - a)%Z with (- (a - b))%Z by lia. by apply binary_normalize_opp.
Qed.

Lemma float_sub_swap x y : y - x = - (x - y) ∨ y - x = x - y.
Proof.
  destruct (SFsub_swap (Prim2SF x) (Prim2SF y)) as [H|H]; [left|right];
    apply Prim2SF_inj; rewrite ?opp_spec, !sub_spec; done.
Qed.

Lemma SFsub_diag x : SFfinite x = true → SF64sub x x = S754_zero false.
Proof.
  destruct x as [[]|[]| |s m e]; try done.
  intros _. cbn -[binary_normalize]. by rewrite Z.sub_diag.
Qed.

Lemma float_sub_diag x : SFfinite (Prim2SF x) = true → x - x = 0.
Proof.
  intros H. apply Prim2SF_inj. rewrite sub_spec, SFsub_diag by done. reflexivity.
Qed.

Lemma SFcompare_antisym x y :
  SFcompare y x = option_map CompOpp (SFcompare x y).
Proof.
  destruct x as [[]|[]| |[] mx ex], y as [[]|[]| |[] my ey]; try done;
    cbn; rewrite (Z.compare_antisym ey ex);
    destruct (ey ?= ex)%Z; cbn; try done; f_equal;
    rewrite (Pos.compare_cont_antisym mx my Eq); cbn; by rewrite ?CompOpp_involutive.
Qed.

Lemma float_leb_of_eqb x y : (x =? y) = true → (x <=? y) = true.
Proof. rewrite FloatAxioms.eqb_spec, FloatAxioms.leb_spec. unfold SFeqb, SFleb. by destruct (SFcompare _ _) as [[]|]. Qed.

Lemma float_leb_of_ltb_swap x y : (y <? x) = true → (x <=? y) = false.
Proof.
  rewrite FloatAxioms.ltb_spec, FloatAxioms.leb_spec. unfold SFltb, SFleb.
  rewrite (SFcompare_antisym (Prim2SF y) (Prim2SF x)).
  by destruct (SFcompare _ _) as [[]|].
Qed.

Lemma float_finite_of_range lo hi x :
  SFfinite (Prim2SF lo) = true → SFfinite (Prim2SF hi) = true →
  (lo <=? x) = true → (x <=? hi) = true → SFfinite (Prim2SF x) = true.
Proof.
  rewrite !FloatAxioms.leb_spec. unfold SFleb.
  destruct (Prim2SF x) as [s|[]| |s m e], (Prim2SF lo) as [sl|sl| |sl ml el], (Prim2SF hi) as [sh|sh| |sh mh eh]; try done; cbn; try destruct sl; try destruct sh; done.
Qed.

(** ** No overflow for products of numbers of magnitude at most one *)

Lemma digits2_pos_size p : digits2_pos p = Pos.size p.
Proof. induction p; cbn; by rewrite ?IHp. Qed.

Lemma Zdigits2_le m n : (0 ≤ m < 2 ^ n)%Z → (0 ≤ n)%Z → (Zdigits2 m ≤ n)%Z.
Proof.
  intros [H0 Hm] Hn. destruct m as [|p|p]; [done| |lia].
  cbn. rewrite digits2_pos_size.
  destruct (Z_lt_le_dec n (Z.pos (Pos.size p))) as [Hlt|]; [|done].
  exfalso. pose proof (Pos.size_le p) as Hs.
  assert (2 ^ n ≤ Z.pos (2 ^ Pos.size p) / 2)%Z as Hle.
  { rewrite Pos2Z.inj_pow. replace (Z.pos (Pos.size p)) with (Z.succ (Z.pos (Pos.size p) - 1)) by lia.
    rewrite Z.pow_succ_r by lia. rewrite Z.mul_comm, Z.div_mul by done.
    apply Z.pow_le_mono_r; lia. }
  assert (Z.pos (2 ^ Pos.size p) / 2 ≤ Z.pos p)%Z.
  { apply Z.div_le_upper_bound; lia. }
  lia.
Qed.

Lemma iter_pos_ind {A} (f : A → A) (I : A → Prop) :
  (∀ x, I x → I (f x)) → ∀ n x, I x → I (SpecFloat.iter_pos f n x).
Proof. intros Hf. induction n; cbn; auto. Qed.

Lemma shr_1_bounds M r :
  (0 ≤ shr_m r ≤ M)%Z → (0 ≤ shr_m (shr_1 r) ≤ M)%Z.
Proof.
  destruct r as [m r s]. cbn. destruct m as [|[p|p|]|[p|p|]]; cbn; lia.
Qed.

Lemma shr_fexp_bounds m e l D E0 E :
  (0 ≤ m)%Z → (Zdigits2 m ≤ D)%Z → (e ≤ E0)%Z → (E0 ≤ E)%Z →
  (D + E0 - prec ≤ E)%Z → (emin ≤ E)%Z →
  let '(r, e') := shr_fexp prec emax m e l in
  (0 ≤ shr_m r ≤ m)%Z ∧ (e' ≤ E)%Z.
Proof.
  intros Hm HD He HE HDE Hmin. unfold shr_fexp, shr.
  set (n := (fexp prec emax (Zdigits2 m + e) - e)%Z).
  assert (0 ≤ shr_m (shr_record_of_loc m l) ≤ m)%Z as Hr by (destruct l as [|[]]; cbn; lia).
  assert (e + n ≤ E)%Z as Hn.
  { subst n. unfold fexp. change (SpecFloat.emin prec emax) with emin. lia. }
  destruct n; [split; [done|lia]| |split; [done|lia]].
  split; [|done]. by apply iter_pos_ind; [apply shr_1_bounds|].
Qed.



Lemma SFunit_inv s m e :
  valid_binary (S754_finite s m e) = true →
  SFleb (SFabs (S754_finite s m e)) SFone = true →
  (Z.pos m < 2 ^ 53)%Z ∧ (e ≤ -52)%Z.
Proof.
  intros [Hc _]%andb_prop Hle. apply Z.eqb_eq in Hc.
  unfold fexp in Hc. unfold SFleb, SFone in Hle. cbn [SFabs SFcompare] in Hle.
  rewrite digits2_pos_size in Hc. split.
  - pose proof (Pos.size_gt m) as Hs.
    assert (Z.pos (2 ^ Pos.size m) ≤ 2 ^ 53)%Z; [|lia].
    rewrite Pos2Z.inj_pow. apply Z.pow_le_mono_r; [done|].
    change prec with 53%Z in Hc. lia.
  - destruct (Z.compare_spec e (-52)) as [?|?|?]; [lia|lia|done].

Qed.

Lemma round_nearest_even_bounds m l :
  (0 ≤ m)%Z → (0 ≤ round_nearest_even m l ≤ m + 1)%Z.
Proof. intros. destruct l as [|[]]; cbn; try destruct (Z.even m); lia. Qed.


Lemma SFbounded_finite E x : SFbounded E x → SFfinite x = true.
Proof. by destruct x. Qed.

Lemma valid_mantissa s m e :
  valid_binary (S754_finite s m e) = true → (Z.pos m < 2 ^ 53)%Z.
Proof.
  intros [Hc _]%andb_prop. apply Z.eqb_eq in Hc. unfold fexp in Hc.
  rewrite digits2_pos_size in Hc.
  pose proof (Pos.size_gt m) as Hs.
  assert (Z.pos (2 ^ Pos.size m) ≤ 2 ^ 53)%Z; [|lia].
  rewrite Pos2Z.inj_pow. apply Z.pow_le_mono_r; [done|].
  change prec with 53%Z in Hc. lia.
Qed.

Lemma binary_round_aux_bounded s m e l E :
  (0 ≤ m < 2 ^ 106)%Z → (e ≤ E)%Z → (emin ≤ E + 53)%Z → (E + 107 ≤ emax - prec)%Z →
  SFbounded (E + 107) (binary_round_aux prec emax s m e l).
Proof.
  intros Hm He Hlo Hhi. unfold binary_round_aux.
  assert (Zdigits2 m ≤ 106)%Z as Hd by (apply Zdigits2_le; lia).
  pose proof (shr_fexp_bounds m e l 106 E (E + 53)
                (proj1 Hm) Hd He ltac:(lia) ltac:(change prec with 53%Z; lia) Hlo) as H1.
  destruct (shr_fexp prec emax m e l) as [r1 e1].
  destruct H1 as [Hr1 He1].
  set (m1 := round_nearest_even (shr_m r1) (loc_of_shr_record r1)).
  assert (0 ≤ m1 ≤ shr_m r1 + 1)%Z as Hm1 by (apply round_nearest_even_bounds; lia).
  assert (Zdigits2 m1 ≤ 107)%Z as Hd1.
  { apply Zdigits2_le; [|lia]. change (2 ^ 107)%Z with (2 * 2 ^ 106)%Z. lia. }
  pose proof (shr_fexp_bounds m1 e1 loc_Exact 107 (E + 53) (E + 107)
                (proj1 Hm1) Hd1 He1 ltac:(lia) ltac:(change prec with 53%Z; lia)
                ltac:(lia)) as H2.
  destruct (shr_fexp prec emax m1 e1 loc_Exact) as [r2 e2].
  destruct H2 as [Hr2 He2].
  destruct (shr_m r2) as [|p|p]; [done| |lia].
  destruct (Z.leb_spec e2 (emax - prec)) as [|Hgt]; [done|lia].
Qed.

Lemma SFmul_bounded a b x y :
  valid_binary x = true → valid_binary y = true →
  SFbounded a x → SFbounded b y →
  (emin ≤ a + b + 53)%Z → (a + b + 107 ≤ emax - prec)%Z →
  SFbounded (a + b + 107) (SF64mul x y).
Proof.
  destruct x as [sx|sx| |sx mx ex], y as [sy|sy| |sy my ey]; try done.
  intros Vx%valid_mantissa Vy%valid_mantissa Hx Hy Hlo Hhi. cbn in Hx, Hy.
  apply binary_round_aux_bounded; [|lia|done|done].
  rewrite Pos2Z.inj_mul. change (2 ^ 106)%Z with (2 ^ 53 * 2 ^ 53)%Z.
  split; [lia|]. by apply Z.mul_lt_mono_nonneg; try apply Pos2Z.is_nonneg.
Qed.

Lemma SFdiv_bounded a x sy my ey :
  valid_binary x = true → valid_binary (S754_finite sy my ey) = true →
  SFbounded a x →
  (emin ≤ a - ey + 53)%Z → (a - ey + 107 ≤ emax - prec)%Z →
  SFbounded (a - ey + 107) (SF64div x (S754_finite sy my ey)).
Proof.
  destruct x as [sx|sx| |sx mx ex]; try done.
  intros Vx%valid_mantissa Vy%valid_mantissa Hx Hlo Hhi. cbn in Hx.
  unfold SF64div, SFdiv, SFdiv_core_binary.
  set (d1 := Zdigits2 (Z.pos mx)). set (d2 := Zdigits2 (Z.pos my)).
  set (e' := Z.min _ _). set (sh := (ex - ey - e')%Z).
  set (m' := match sh with Z.pos _ => Z.shiftl (Z.pos mx) sh | 0%Z => Z.pos mx | Z.neg _ => 0%Z end).
  assert (d1 ≤ 53 ∧ d2 ≤ 53 ∧ 1 ≤ d1 ∧ Z.pos mx < 2 ^ d1)%Z as (Hd1 & Hd2 & Hd1' & Hmx).
  { subst d1 d2. repeat split.
    - apply Zdigits2_le; lia.
    - apply Zdigits2_le; lia.
    - cbn. lia.
    - cbn. rewrite digits2_pos_size. pose proof (Pos.size_gt mx) as Hs.
      rewrite <- Pos2Z.inj_pow. lia. }
  assert (e' ≤ ex - ey ∧ sh ≤ 106 - d1)%Z as [He' Hsh].
  { subst sh e'. unfold fexp. change prec with 53%Z. lia. }
  assert (0 ≤ m' < 2 ^ 106)%Z as Hm'.
  { subst m'. destruct sh as [|p|p] eqn:E; [| |done].
    - split; [lia|]. eapply Z.lt_le_trans; [exact Vx|]. by apply Z.pow_le_mono_r.
    - rewrite Z.shiftl_mul_pow2 by lia. split; [lia|].
      apply Z.lt_le_trans with (2 ^ d1 * 2 ^ Z.pos p)%Z.
      + apply Z.mul_lt_mono_pos_r; [by apply Z.pow_pos_nonneg|done].
      + rewrite <- Z.pow_add_r by lia. apply Z.pow_le_mono_r; lia. }
  pose proof (Z_div_mod m' (Z.pos my) ltac:(done)) as Hdiv.
  destruct (Z.div_eucl m' (Z.pos my)) as [q r].
  assert (0 ≤ q < 2 ^ 106)%Z as Hq by nia.
  replace (a - ey + 107)%Z with ((a - ey) + 107)%Z by lia.
  apply binary_round_aux_bounded; [done|lia|done|done].
Qed.

Lemma float_mul_opp_r x y : x * (- y) = - (x * y).
Proof. by rewrite (float_mul_comm x (- y)), float_mul_opp_l, float_mul_comm. Qed.

Lemma SFbounded_of_unit x : (abs x <=? 1) = true → SFbounded (-52) (Prim2SF x).
Proof.
  rewrite FloatAxioms.leb_spec, abs_spec. pose proof (Prim2SF_valid x) as V.
  change (Prim2SF 1) with SFone.
  destruct (Prim2SF x) as [s|s| |s m e]; try done.
  intros H. by destruct (SFunit_inv s m e V H).
Qed.

Lemma SFbounded_of_latitude x :
  (-90 <=? x) = true → (x <=? 90) = true → SFbounded (-46) (Prim2SF x).
Proof.
  rewrite !FloatAxioms.leb_spec.
  replace (Prim2SF (-90)) with (S754_finite true 6333186975989760 (-46))
    by (vm_compute; reflexivity).
  replace (Prim2SF 90) with (S754_finite false 6333186975989760 (-46))
    by (vm_compute; reflexivity).
  unfold SFleb. destruct (Prim2SF x) as [s|[]| |[] m e]; try done; cbn [SFcompare SFbounded].
  - intros H _. destruct (Z.compare_spec (-46) e); [lia|done|lia].
  - intros _ H. destruct (Z.compare_spec e (-46)); [lia|lia|done].
Qed.

Lemma float_mul_bounded a b x y :
  SFbounded a (Prim2SF x) → SFbounded b (Prim2SF y) →
  (emin ≤ a + b + 53)%Z → (a + b + 107 ≤ emax - prec)%Z →
  SFbounded (a + b + 107) (Prim2SF (x * y)).
Proof. rewrite mul_spec. intros. apply SFmul_bounded; auto using Prim2SF_valid. Qed.

(** The angle in radians of a latitude the data model admits is a finite
    number. *)
Lemma radians_finite lat :
  (-90 <=? lat) = true → (lat <=? 90) = true →
  SFfinite (Prim2SF (lat * Math_PI / 180)) = true.
Proof.
  intros Hlo Hhi. apply (SFbounded_finite (10 - -45 + 107)).
  rewrite div_spec.
  replace (Prim2SF 180) with (S754_finite false 6333186975989760 (-45))
    by (vm_compute; reflexivity).
  apply SFdiv_bounded; [apply Prim2SF_valid|done| |done|done].
  apply (float_mul_bounded (-46) (-51)); [by apply SFbounded_of_latitude| |done|done].
  vm_compute. discriminate.
Qed.

(** A finite number times zero times zero, added to zero, is zero. *)
Lemma float_zero_tail p : SFfinite (Prim2SF p) = true → 0 + p * 0 * 0 = 0.
Proof.
  intros Hp. apply Prim2SF_inj. rewrite add_spec, !mul_spec.
  change (Prim2SF 0) with (S754_zero false).
  by destruct (Prim2SF p) as [[]|[]| |[] m e].
Qed.

End FloatFacts.

(** ** C2: the geofence test *)

Section GeofenceTest.
Context `{B : Builtins}.
Import LocationService.

Lemma triggers_leb currentLocation target :
  triggers currentLocation target =
  (distanceTo currentLocation target <=? radius (location target))%float.
Proof.
  unfold triggers, distanceTo. cbn [checkGeofences].
  by destruct (_ <=? _)%float.
Qed.

Lemma checkGeofences_cons currentLocation target targets :
  checkGeofences currentLocation (target :: targets) =
  ((if triggers currentLocation target then [triggeredEntry currentLocation target] else [])
   ++ checkGeofences currentLocation targets)%list.
Proof.
  rewrite triggers_leb. unfold distanceTo. cbn [checkGeofences].
  by destruct (_ <=? _)%float.
Qed.

Lemma elem_of_checkGeofences currentLocation targets entry :
  entry ∈ checkGeofences currentLocation targets ↔
  ∃ target, target ∈ targets ∧ triggers currentLocation target = true ∧
            entry = triggeredEntry currentLocation target.
Proof.
  induction targets as [|t targets IH].
  - split; [by intros ?%elem_of_nil|by intros (? & ?%elem_of_nil & _)].
  - rewrite checkGeofences_cons, elem_of_app, IH. split.
    + intros [Hhere|(target & Hin & Htr & ->)].
      * destruct (triggers currentLocation t) eqn:Htr; [|by apply elem_of_nil in Hhere].
        apply list_elem_of_singleton in Hhere as ->. exists t. by rewrite elem_of_cons; auto.
      * exists target. rewrite elem_of_cons. auto.
    + intros (target & [->|Hin]%elem_of_cons & Htr & ->).
      * left. rewrite Htr. by apply list_elem_of_singleton.
      * right. by exists target.
Qed.

End GeofenceTest.

(** C2.  A target triggers exactly when the distance from the position to
    its centre is at most its radius, and the entries [checkGeofences]
    returns are those of the targets that trigger.  The comparison is the
    inclusive one: a distance equal to the radius triggers, a larger one does
    not. *)
Theorem target_triggers_iff_within_radius `{B : Builtins}
    (currentLocation : LocationObject) (targets : list LocationService.NoteLocation) :
  (∀ target,
     triggers currentLocation target = true ↔
     (distanceTo currentLocation target <=?
      radius (LocationService.location target))%float = true) ∧
  (∀ entry,
     entry ∈ LocationService.checkGeofences currentLocation targets ↔
     ∃ target, target ∈ targets ∧
       (distanceTo currentLocation target <=?
        radius (LocationService.location target))%float = true ∧
       entry = triggeredEntry currentLocation target) ∧
  (∀ target,
     (distanceTo currentLocation target =?
      radius (LocationService.location target))%float = true →
     triggers currentLocation target = true) ∧
  (∀ target,
     (radius (LocationService.location target) <?
      distanceTo currentLocation target)%float = true →
     triggers currentLocation target = false).
Proof.
  repeat split.
  - by rewrite triggers_leb.
  - by rewrite triggers_leb.
  - intros (target & Hin & Htr & ->)%elem_of_checkGeofences.
    exists target. by rewrite <- triggers_leb.
  - intros (target & Hin & Hle & ->). apply elem_of_checkGeofences.
    exists target. by rewrite triggers_leb.
  - intros Heq. rewrite triggers_leb. by apply float_leb_of_eqb.
  - intros Hlt. rewrite triggers_leb. by apply float_leb_of_ltb_swap.
Qed.

Section GeofenceTestRun.
Import SmallAngle.

(** On the boundary the target triggers; note A, with its radius of 50 m,
    does not trigger 157 km away. *)
Lemma target_triggers_witness :
  ((distanceTo Sample.boundaryPosition Sample.boundaryTarget =?
    radius (LocationService.location Sample.boundaryTarget))%float = true ∧
   triggers Sample.boundaryPosition Sample.boundaryTarget = true) ∧
  ((radius (LocationService.location Sample.targetA) <?
    distanceTo Sample.outside Sample.targetA)%float = true ∧
   triggers Sample.outside Sample.targetA = false).
Proof.
  destruct (target_triggers_iff_within_radius Sample.boundaryPosition []) as (_ & _ & Hon & _).
  destruct (target_triggers_iff_within_radius Sample.outside []) as (_ & _ & _ & Hout).
  split; split; [reflexivity|by apply Hon|reflexivity|by apply Hout].
Defined.

End GeofenceTestRun.

(** ** C9: the haversine distance *)

Section Distance.
Context `{B : Builtins} {S : BuiltinsSpec B}.
Import LocationService.
Local Open Scope float_scope.

Lemma halfAngle_opp d : halfAngle (- d) = - halfAngle d.
Proof. unfold halfAngle. by rewrite float_mul_opp_l, !float_div_opp_l. Qed.

Lemma haversine_term_swap c x y :
  c * Math_sin (halfAngle (y - x)) * Math_sin (halfAngle (y - x)) =
  c * Math_sin (halfAngle (x - y)) * Math_sin (halfAngle (x - y)).
Proof.
  destruct (float_sub_swap x y) as [-> | ->]; [|done].
  by rewrite halfAngle_opp, sin_opp, (float_mul_opp_r c), float_mul_opp_opp.
Qed.

Lemma haversine_square_swap x y :
  Math_sin (halfAngle (y - x)) * Math_sin (halfAngle (y - x)) =
  Math_sin (halfAngle (x - y)) * Math_sin (halfAngle (x - y)).
Proof.
  destruct (float_sub_swap x y) as [-> | ->]; [|done].
  by rewrite halfAngle_opp, sin_opp, float_mul_opp_opp.
Qed.

Lemma calculateDistance_sym lat1 lon1 lat2 lon2 :
  calculateDistance lat1 lon1 lat2 lon2 = calculateDistance lat2 lon2 lat1 lon1.
Proof.
  unfold calculateDistance. cbv zeta.
  fold (halfAngle (lat2 - lat1)) (halfAngle (lon2 - lon1))
       (halfAngle (lat1 - lat2)) (halfAngle (lon1 - lon2)).
  rewrite (haversine_square_swap lat1 lat2).
  rewrite (haversine_term_swap _ lon1 lon2).
  by rewrite (float_mul_comm (Math_cos (lat1 * Math_PI / 180))).
Qed.

Lemma calculateDistance_diag lat lon :
  validCoordinate lat lon → calculateDistance lat lon lat lon = 0.
Proof.
  unfold validCoordinate. rewrite !andb_true_iff. intros [[[Hlat1 Hlat2] Hlon1] Hlon2].
  unfold calculateDistance. cbv zeta.
  rewrite (float_sub_diag lat) by exact (float_finite_of_range (-90) 90 lat eq_refl eq_refl Hlat1 Hlat2).
  rewrite (float_sub_diag lon) by exact (float_finite_of_range (-180) 180 lon eq_refl eq_refl Hlon1 Hlon2).
  change (0 * Math_PI / 180 / 2) with 0.
  rewrite sin_zero. change (0 * 0) with 0.
  rewrite float_zero_tail.
  - change (sqrt 0) with 0. change (sqrt (1 - 0)) with 1.
    by rewrite atan2_zero_one.
  - apply (SFbounded_finite (-52 + -52 + 107)).
    apply float_mul_bounded; [| |done|done];
      apply SFbounded_of_unit, cos_range; by apply radians_finite.
Qed.

End Distance.

(** The small-angle engine meets the contract. *)
#[export] Instance SmallAngle_spec : BuiltinsSpec SmallAngle.builtins.
Proof.
  split; cbn [Math_sin Math_cos Math_atan2 SmallAngle.builtins].
  - intros x. unfold SmallAngle.sin.
    by rewrite float_mul_opp_opp, float_mul_opp_l.
  - reflexivity.
  - reflexivity.
  - intros x _. unfold SmallAngle.cos. cbv zeta.
    destruct (abs (1 - x * x / 2) <=? 1)%float eqn:E; [exact E|reflexivity].
Qed.

(** On an engine that meets the contract, the distance between two
    coordinates is the same binary64 value in either direction, for every
    four numbers, and the distance from a coordinate of the data model to
    itself is +0.  The value can be NaN, which compares equal to nothing:
    see [calculateDistance_not_a_number_near_antipodes]. *)
Theorem calculateDistance_symmetric_and_zero_on_diagonal
    `{B : Builtins} (S : BuiltinsSpec B) :
  (∀ lat1 lon1 lat2 lon2,
     LocationService.calculateDistance lat1 lon1 lat2 lon2 =
     LocationService.calculateDistance lat2 lon2 lat1 lon1) ∧
  (∀ lat lon,
     validCoordinate lat lon →
     LocationService.calculateDistance lat lon lat lon = 0%float).
Proof.
  split.
  - apply calculateDistance_sym.
  - apply calculateDistance_diag.
Qed.

(** The two properties at (40, -75) and (41, -74), on the small-angle
    engine. *)
Lemma calculateDistance_witness :
  LocationService.calculateDistance (B := SmallAngle.builtins) 40 (-75) 41 (-74) =
  LocationService.calculateDistance (B := SmallAngle.builtins) 41 (-74) 40 (-75) ∧
  (validCoordinate 40 (-75) ∧
   LocationService.calculateDistance (B := SmallAngle.builtins) 40 (-75) 40 (-75) = 0%float).
Proof.
  pose proof (calculateDistance_symmetric_and_zero_on_diagonal SmallAngle_spec) as [Hsym Hzero].
  split; [apply Hsym|].
  split; [reflexivity|]. apply Hzero. reflexivity.
Defined.

(** ** C9: the distance near the antipodes *)

Section NotANumber.
Local Open Scope float_scope.

Lemma float_abs_opp x : abs (- x) = abs x.
Proof.
  apply Prim2SF_inj. rewrite !abs_spec, opp_spec. by destruct (Prim2SF x).
Qed.

(** A number whose magnitude is a given positive number is negative exactly
    when its opposite is not. *)
Lemma float_ltb_zero_opp x v m e :
  Prim2SF v = S754_finite false m e →
  (abs x =? v) = true → (- x <? 0) = negb (x <? 0).
Proof.
  intros Hv. rewrite FloatAxioms.eqb_spec, abs_spec, !FloatAxioms.ltb_spec, opp_spec, Hv.
  change (Prim2SF 0) with (S754_zero false).
  destruct (Prim2SF x) as [[]|[]| |[] mx ex]; done.
Qed.

(** The engine of the example meets the contract under which symmetry was
    shown. *)
#[export] Instance NearestAt8_spec : BuiltinsSpec NearestAt8.builtins.
Proof.
  split; cbn [Math_sin Math_cos Math_atan2 NearestAt8.builtins].
  - intros x. unfold NearestAt8.sin. rewrite float_abs_opp.
    destruct (abs x =? NearestAt8.eightDegrees) eqn:E8.
    { assert ((- x <? 0) = negb (x <? 0)) as ->
        by (eapply float_ltb_zero_opp; [|exact E8]; vm_compute; reflexivity).
      by destruct (x <? 0). }
    destruct (abs x =? NearestAt8.halfPi) eqn:Eh.
    { assert ((- x <? 0) = negb (x <? 0)) as ->
        by (eapply float_ltb_zero_opp; [|exact Eh]; vm_compute; reflexivity).
      by destruct (x <? 0). }
    apply (sin_opp (BuiltinsSpec := SmallAngle_spec)).
  - reflexivity.
  - reflexivity.
  - intros x Hx. unfold NearestAt8.cos.
    destruct (abs x =? NearestAt8.eightDegrees); [reflexivity|].
    by apply (cos_range (BuiltinsSpec := SmallAngle_spec)).
Qed.

Import NearestAt8.

(** The haversine term is not clamped to [[0, 1]].  Between (8, -86) and
    (-8, 94), both within the ranges of the data model and 180 degrees of
    longitude apart, it is [sin8 * sin8 + cos8 * cos8], which rounds to
    [1 + 2^-52] on every engine whose sine and cosine are rounded to nearest
    at these arguments; [Math.sqrt(1 - a)] is then NaN, and so is the
    distance, in both directions.  The two distances are then not equal,
    and their difference is within no bound, since every comparison with
    NaN is false. *)
Theorem calculateDistance_not_a_number_near_antipodes `{B : Builtins} :
  Math_sin eightDegrees = sin8 → Math_sin (- eightDegrees) = - sin8 →
  Math_sin halfPi = 1 → Math_sin (- halfPi) = - 1 →
  Math_cos eightDegrees = cos8 → Math_cos (- eightDegrees) = cos8 →
  (∀ y, Math_atan2 y nan = nan) →
  validCoordinate 8 (-86) ∧ validCoordinate (-8) 94 ∧
  is_nan (LocationService.calculateDistance 8 (-86) (-8) 94) = true ∧
  is_nan (LocationService.calculateDistance (-8) 94 8 (-86)) = true ∧
  (LocationService.calculateDistance 8 (-86) (-8) 94 =?
   LocationService.calculateDistance (-8) 94 8 (-86)) = false ∧
  ∀ bound,
    (abs (LocationService.calculateDistance 8 (-86) (-8) 94 -
          LocationService.calculateDistance (-8) 94 8 (-86)) <=? bound) = false.
Proof.
  intros Hs Hs' Hh Hh' Hc Hc' Hnan.
  assert (LocationService.calculateDistance 8 (-86) (-8) 94 = nan) as ->.
  { unfold LocationService.calculateDistance. cbv zeta.
    change ((-8 - 8) * Math_PI / 180 / 2) with (- eightDegrees).
    change ((94 - -86) * Math_PI / 180 / 2) with halfPi.
    change (8 * Math_PI / 180) with eightDegrees.
    change (-8 * Math_PI / 180) with (- eightDegrees).
    rewrite Hs', Hh, Hc, Hc'.
    change (sqrt (1 - (- sin8 * - sin8 + cos8 * cos8 * 1 * 1))) with nan.
    by rewrite Hnan. }
  assert (LocationService.calculateDistance (-8) 94 8 (-86) = nan) as ->.
  { unfold LocationService.calculateDistance. cbv zeta.
    change ((8 - -8) * Math_PI / 180 / 2) with eightDegrees.
    change ((-86 - 94) * Math_PI / 180 / 2) with (- halfPi).
    change (8 * Math_PI / 180) with eightDegrees.
    change (-8 * Math_PI / 180) with (- eightDegrees).
    rewrite Hs, Hh', Hc, Hc'.
    change (sqrt (1 - (sin8 * sin8 + cos8 * cos8 * - 1 * - 1))) with nan.
    by rewrite Hnan. }
  repeat split. intros bound.
  change (abs (nan - nan)) with nan. rewrite FloatAxioms.leb_spec.
  change (Prim2SF nan) with S754_nan. reflexivity.
Qed.

(** C9, failing input.  On the engine [NearestAt8], which meets the contract
    of the symmetry theorem, the distance between (8, -86) and (-8, 94) is
    NaN in both directions: the two values are not equal within any
    tolerance. *)
Lemma calculateDistance_not_a_number_at_8_86 :
  validCoordinate 8 (-86) ∧ validCoordinate (-8) 94 ∧
  is_nan (LocationService.calculateDistance (B := NearestAt8.builtins) 8 (-86) (-8) 94) = true ∧
  is_nan (LocationService.calculateDistance (B := NearestAt8.builtins) (-8) 94 8 (-86)) = true ∧
  (LocationService.calculateDistance (B := NearestAt8.builtins) 8 (-86) (-8) 94 =?
   LocationService.calculateDistance (B := NearestAt8.builtins) (-8) 94 8 (-86)) = false ∧
  ∀ bound,
    (abs (LocationService.calculateDistance (B := NearestAt8.builtins) 8 (-86) (-8) 94 -
          LocationService.calculateDistance (B := NearestAt8.builtins) (-8) 94 8 (-86))
     <=? bound) = false.
Proof.
  apply (calculateDistance_not_a_number_near_antipodes (B := NearestAt8.builtins));
    try reflexivity.
  intros y. apply Prim2SF_inj. unfold Math_atan2, NearestAt8.builtins, SmallAngle.atan2.
  rewrite div_spec. by destruct (Prim2SF y) as [[]|[]| |[] my ey].
Defined.

End NotANumber.

(** ** C1: one notification per entry *)

Section Entries.
Context (P : Platform) `{B : Builtins}.
Import LocationService.

Lemma checkGeofences_single currentLocation target :
  checkGeofences currentLocation [target] =
  if triggers currentLocation target then [triggeredEntry currentLocation target] else [].
Proof.
  unfold triggers. cbn [checkGeofences].
  by destruct (_ <=? _)%float.
Qed.

(** A pass over a single target that triggers. *)
Lemma pass_inside target currentLocation w :
  targetsAt P (steps (device w)) = [target] →
  triggers currentLocation target = true →
  ∃ w',
    GeofencingService.handleLocationUpdate P currentLocation w = (Return tt, w') ∧
    notified w' = {[ noteId target ]} ∧
    emitted w w'
      (if decide (noteId target ∈ notified w) then []
       else [triggeredEntry currentLocation target]).
Proof.
  intros Htargets Hin. rewrite handleLocationUpdate_spec.
  destruct (checkGeofencesForLocation_spec P currentLocation w) as (w' & Hrun & Hset & Hem).
  rewrite Htargets, checkGeofences_single, Hin in Hset, Hem.
  exists w'. split; [done|]. split.
  - rewrite Hset. cbn. set_solver.
  - exact Hem.
Qed.

(** A pass over a single target that does not trigger. *)
Lemma pass_outside target currentLocation w :
  targetsAt P (steps (device w)) = [target] →
  triggers currentLocation target = false →
  ∃ w',
    GeofencingService.handleLocationUpdate P currentLocation w = (Return tt, w') ∧
    notified w' = ∅ ∧
    notificationLog (device w') = notificationLog (device w).
Proof.
  intros Htargets Hout. rewrite handleLocationUpdate_spec.
  destruct (checkGeofencesForLocation_spec P currentLocation w) as (w' & Hrun & Hset & Hem).
  rewrite Htargets, checkGeofences_single, Hout in Hset, Hem.
  exists w'. split; [done|]. split; [done|].
  destruct Hem as (L & E & HL). destruct L; [|done]. by rewrite E, app_nil_r.
Qed.

End Entries.

(** C1.  With a single geofence target that is not yet marked as notified,
    the positions [inside, inside, outside, inside] delivered one after the
    other make the monitor hand exactly two proximity requests to the
    platform: one at the first position and one at the fourth.  The second
    position adds nothing to the log, the third one adds nothing and empties
    the set of notified notes, so that the re-entry notifies again. *)
Theorem inside_inside_outside_inside_notifies_twice
    (P : Platform) `{B : Builtins} (w : World)
    (target : LocationService.NoteLocation) (p1 p2 p3 p4 : LocationObject) :
  (∀ k, targetsAt P k = [target]) →
  LocationService.noteId target ∉ notified w →
  triggers p1 target = true →
  triggers p2 target = true →
  triggers p3 target = false →
  triggers p4 target = true →
  ∃ w1 w2 w3 w4 answer1 answer4,
    GeofencingService.handleLocationUpdate P p1 w = (Return tt, w1) ∧
    GeofencingService.handleLocationUpdate P p2 w1 = (Return tt, w2) ∧
    GeofencingService.handleLocationUpdate P p3 w2 = (Return tt, w3) ∧
    GeofencingService.handleLocationUpdate P p4 w3 = (Return tt, w4) ∧
    GeofencingService.deliver P [p1; p2; p3; p4] w = (Return tt, w4) ∧
    notificationLog (device w1) =
      (notificationLog (device w) ++
       [(proximityRequest (triggeredEntry p1 target), answer1)])%list ∧
    notificationLog (device w2) = notificationLog (device w1) ∧
    notificationLog (device w3) = notificationLog (device w2) ∧
    notificationLog (device w4) =
      (notificationLog (device w) ++
       [(proximityRequest (triggeredEntry p1 target), answer1);
        (proximityRequest (triggeredEntry p4 target), answer4)])%list ∧
    notified w3 = ∅ ∧
    notified w4 = {[ LocationService.noteId target ]}.
Proof.
  intros Htargets Hfresh H1 H2 H3 H4.
  destruct (pass_inside P target p1 w (Htargets _) H1) as (w1 & R1 & S1 & E1).
  destruct (pass_inside P target p2 w1 (Htargets _) H2) as (w2 & R2 & S2 & E2).
  destruct (pass_outside P target p3 w2 (Htargets _) H3) as (w3 & R3 & S3 & E3).
  destruct (pass_inside P target p4 w3 (Htargets _) H4) as (w4 & R4 & S4 & E4).
  rewrite decide_False in E1 by done.
  rewrite decide_True in E2 by (rewrite S1; set_solver).
  rewrite decide_False in E4 by (rewrite S3; set_solver).
  destruct E1 as (L1 & E1 & HL1), E2 as (L2 & E2 & HL2), E4 as (L4 & E4 & HL4).
  destruct L1 as [|[r1 a1] [|]]; try done. destruct L2; [|done].
  destruct L4 as [|[r4 a4] [|]]; try done.
  cbn in HL1, HL4. injection HL1 as ->. injection HL4 as ->.
  rewrite app_nil_r in E2.
  exists w1, w2, w3, w4, a1, a4. repeat split; try done.
  - unfold GeofencingService.deliver. cbn [for_of].
    by rewrite bind_run, R1, bind_run, R2, bind_run, R3, bind_run, R4.
  - rewrite E4, E3, E2, E1. by rewrite <- app_assoc.
Qed.

Section EntriesRun.
Import SmallAngle.

(** The scenario, run: note A at (0, 0) with a radius of 50 m next to a note
    without a location, the positions (0, 0), (0, 0), (1, 1), (0, 0). *)
Lemma inside_inside_outside_inside_witness :
  ∃ w1 w2 w3 w4 answer1 answer4,
    GeofencingService.handleLocationUpdate (Sample.cooperative [Sample.plainNote; Sample.noteA])
      Sample.inside initialWorld = (Return tt, w1) ∧
    GeofencingService.handleLocationUpdate (Sample.cooperative [Sample.plainNote; Sample.noteA])
      Sample.inside w1 = (Return tt, w2) ∧
    GeofencingService.handleLocationUpdate (Sample.cooperative [Sample.plainNote; Sample.noteA])
      Sample.outside w2 = (Return tt, w3) ∧
    GeofencingService.handleLocationUpdate (Sample.cooperative [Sample.plainNote; Sample.noteA])
      Sample.inside w3 = (Return tt, w4) ∧
    GeofencingService.deliver (Sample.cooperative [Sample.plainNote; Sample.noteA])
      [Sample.inside; Sample.inside; Sample.outside; Sample.inside] initialWorld
    = (Return tt, w4) ∧
    notificationLog (device w1) =
      [(proximityRequest (triggeredEntry Sample.inside Sample.targetA), answer1)] ∧
    notificationLog (device w2) = notificationLog (device w1) ∧
    notificationLog (device w3) = notificationLog (device w2) ∧
    notificationLog (device w4) =
      [(proximityRequest (triggeredEntry Sample.inside Sample.targetA), answer1);
       (proximityRequest (triggeredEntry Sample.inside Sample.targetA), answer4)] ∧
    notified w3 = ∅ ∧
    notified w4 = {[ "A" ]}.
Proof.
  apply (inside_inside_outside_inside_notifies_twice
           (Sample.cooperative [Sample.plainNote; Sample.noteA]) initialWorld Sample.targetA
           Sample.inside Sample.inside Sample.outside Sample.inside).
  - intros k. reflexivity.
  - apply not_elem_of_empty.
  - vm_compute. reflexivity.
  - vm_compute. reflexivity.
  - vm_compute. reflexivity.
  - vm_compute. reflexivity.
Defined.

End EntriesRun.

(** ** C3 and C4: passes that evaluate nothing *)

(** C3.  When the notes read by an evaluation pass hold no location, the
    pass completes normally, hands nothing to the notification service and
    leaves the monitor's fields, the set of notified notes among them, as they
    were: only the read of the notes is counted. *)
Theorem empty_target_list_changes_nothing
    (P : Platform) `{B : Builtins} (currentLocation : LocationObject) (w : World) :
  filter GeofencingService.hasLocation (getAllNotes P (steps (device w))) = [] →
  GeofencingService.checkGeofencesForLocation P currentLocation w
    = (Return tt, with_device bump_steps w) ∧
  notified (with_device bump_steps w) = notified w ∧
  notificationLog (device (with_device bump_steps w)) = notificationLog (device w).
Proof.
  intros Hnone. split; [|done].
  unfold GeofencingService.checkGeofencesForLocation.
  rewrite try_catch_run, bind_run. cbn [platform_read platform_call].
  by rewrite Hnone.
Qed.

(** The pass on a platform whose only note has no location, with note A
    already in the set. *)
Lemma empty_target_list_witness :
  let w := with_geofencing (λ g,
             {| isActive := true; checkInterval := None; lastNotifiedNotes := {[ "A" ]} |})
             initialWorld in
  GeofencingService.checkGeofencesForLocation (B := SmallAngle.builtins)
    (Sample.cooperative [Sample.plainNote]) Sample.inside w
    = (Return tt, with_device bump_steps w) ∧
  notified (with_device bump_steps w) = notified w ∧
  notificationLog (device (with_device bump_steps w)) = notificationLog (device w).
Proof.
  intros w.
  apply (empty_target_list_changes_nothing (B := SmallAngle.builtins)
           (Sample.cooperative [Sample.plainNote]) Sample.inside w).
  reflexivity.
Defined.

(** A position fix that fails surfaces as a null result, never as an
    exception. *)
Lemma getCurrentLocation_without_fix (P : Platform) `{B : Builtins} (w : World) :
  (∀ k, getCurrentPositionAsync P k = Throw) →
  (LocationService.getCurrentLocation P w).1 = Return None.
Proof.
  intros Hfix.
  unfold LocationService.getCurrentLocation, LocationService.requestLocationPermission,
    ErrorHandler.handle, ErrorHandler.LOCATION_PERMISSION_DENIED,
    try_catch, mbind, M_bind, mret, M_ret, platform_call, Alert_alert, modify.
  cbn -[String.append].
  destruct (requestForegroundPermissionsAsync P _) as [[]|]; cbn -[String.append]; try done.
  destruct (requestBackgroundPermissionsAsync P _) as [[]|]; cbn -[String.append]; try done;
    by rewrite Hfix.
Qed.

(** C4.  A one-shot fix that fails makes [getCurrentLocation] return null,
    and when [getCurrentLocation] returns null the periodic poll completes
    normally without evaluating anything: no request reaches the notification
    service and the set of notified notes is as before. *)
Theorem failed_fix_skips_evaluation (P : Platform) `{B : Builtins} (w : World) :
  ((∀ k, getCurrentPositionAsync P k = Throw) →
   (LocationService.getCurrentLocation P w).1 = Return None) ∧
  ((LocationService.getCurrentLocation P w).1 = Return None →
   ∃ w',
     GeofencingService.checkAllGeofences P w = (Return tt, w') ∧
     notified w' = notified w ∧
     notificationLog (device w') = notificationLog (device w)).
Proof.
  split; [apply getCurrentLocation_without_fix|].
  intros Hnull. unfold GeofencingService.checkAllGeofences.
  rewrite try_catch_run, bind_run.
  pose proof (quietly_getCurrentLocation P w) as Hq.
  destruct (LocationService.getCurrentLocation P w) as [r w']. cbn in Hnull, Hq. subst r.
  destruct Hq as (Hg & _ & _ & _ & _ & Hlog & _).
  exists w'. split; [done|]. unfold notified. by rewrite Hg, Hlog.
Qed.

(** The poll on a platform whose position fix fails, with note A in the set. *)
Lemma failed_fix_witness :
  let w := with_geofencing (λ g,
             {| isActive := true; checkInterval := None; lastNotifiedNotes := {[ "A" ]} |})
             initialWorld in
  (LocationService.getCurrentLocation (B := SmallAngle.builtins)
     (Sample.noFix [Sample.noteA]) w).1 = Return None ∧
  ∃ w',
    GeofencingService.checkAllGeofences (B := SmallAngle.builtins)
      (Sample.noFix [Sample.noteA]) w = (Return tt, w') ∧
    notified w' = notified w ∧
    notificationLog (device w') = notificationLog (device w).
Proof.
  intros w.
  destruct (failed_fix_skips_evaluation (B := SmallAngle.builtins)
              (Sample.noFix [Sample.noteA]) w) as [Hnull Hskip].
  assert ((LocationService.getCurrentLocation (B := SmallAngle.builtins)
             (Sample.noFix [Sample.noteA]) w).1 = Return None) as H.
  { apply Hnull. intros k. reflexivity. }
  split; [exact H|]. apply Hskip. exact H.
Defined.

(** ** C5 and C6: the life cycle of the monitor *)

Section LifeCycle.
Context (P : Platform).

Lemma startGeofencing_active w :
  isActive (geofencing w) = true →
  GeofencingService.startGeofencing P w = (Return true, w).
Proof.
  intros Hactive. unfold GeofencingService.startGeofencing.
  rewrite try_catch_run, bind_run. cbn [get]. by rewrite Hactive.
Qed.

(** The first start, from a dormant monitor: when it reports success, the
    monitor is active on one subscription and one timer. *)
Lemma startGeofencing_dormant w :
  dormant w →
  (GeofencingService.startGeofencing P w).1 = Return true →
  let w1 := (GeofencingService.startGeofencing P w).2 in
  let h := nextHandle (device w) in
  isActive (geofencing w1) = true ∧
  checkInterval (geofencing w1) = Some (Pos.succ h) ∧
  watchId (locationSvc w1) = Some h ∧
  isMonitoring (locationSvc w1) = true ∧
  watchers (device w1) = [h] ∧
  intervals (device w1) = [(Pos.succ h, 120000)].
Proof.
  destruct w as [[active timer set] [wid monitoring] [init] [ws ts next log al ls k c]].
  intros (Hactive & Hmonitoring & Hws & Hts). cbn in Hactive, Hmonitoring, Hws, Hts. subst.
  unfold GeofencingService.startGeofencing, LocationService.isLocationEnabled,
    LocationService.startLocationMonitoring, LocationService.requestLocationPermission,
    Location_watchPositionAsync, ErrorHandler.handle,
    GeofencingService.set_isActive, GeofencingService.set_checkInterval,
    LocationService.set_watchId, LocationService.set_isMonitoring,
    try_catch, mbind, M_bind, mret, M_ret, get, modify, platform_call,
    Alert_alert, new_watcher, setInterval.
  cbn -[String.append].
  destruct (hasServicesEnabledAsync P k) as [[]|]; cbn -[String.append]; try done.
  destruct (requestForegroundPermissionsAsync P (S k)) as [[]|]; cbn -[String.append]; try done.
  destruct (requestBackgroundPermissionsAsync P (S (S k))) as [[]|]; cbn -[String.append]; try done;
    destruct (watchPositionAsync P (S (S (S k)))) as [[]|]; cbn -[String.append]; done.
Qed.

End LifeCycle.

(** C5.  Starting an active monitor changes nothing and reports success.
    Hence, when a first start from a dormant monitor reports success, a second
    start reports success too and the device holds exactly one position
    subscription and one periodic timer, the ones of the first start. *)
Theorem start_is_idempotent (P : Platform) (w : World) :
  (isActive (geofencing w) = true →
   GeofencingService.startGeofencing P w = (Return true, w)) ∧
  (dormant w →
   (GeofencingService.startGeofencing P w).1 = Return true →
   let w1 := (GeofencingService.startGeofencing P w).2 in
   GeofencingService.startGeofencing P w1 = (Return true, w1) ∧
   isActive (geofencing w1) = true ∧
   length (watchers (device w1)) = 1%nat ∧
   length (intervals (device w1)) = 1%nat ∧
   watchId (locationSvc w1) = head (watchers (device w1)) ∧
   checkInterval (geofencing w1) = head (intervals (device w1)).*1).
Proof.
  split; [apply startGeofencing_active|].
  intros Hdormant Hstarted.
  destruct (startGeofencing_dormant P w Hdormant Hstarted) as (Ha & Hc & Hw & Hm & Hws & Hts).
  cbv zeta. rewrite Hws, Hts, Ha, Hc, Hw. split; [|done].
  by apply startGeofencing_active.
Qed.

(** Two starts in a row on the cooperative platform. *)
Lemma start_is_idempotent_witness :
  let w1 := (GeofencingService.startGeofencing (Sample.cooperative [Sample.noteA])
               initialWorld).2 in
  GeofencingService.startGeofencing (Sample.cooperative [Sample.noteA]) w1 = (Return true, w1) ∧
  isActive (geofencing w1) = true ∧
  length (watchers (device w1)) = 1%nat ∧
  length (intervals (device w1)) = 1%nat ∧
  watchId (locationSvc w1) = head (watchers (device w1)) ∧
  checkInterval (geofencing w1) = head (intervals (device w1)).*1.
Proof.
  apply (start_is_idempotent (Sample.cooperative [Sample.noteA]) initialWorld).
  - by repeat split.
  - reflexivity.
Defined.

Section Stop.
Context (P : Platform).

(** What [stopGeofencing] does, case by case: with no subscription held,
    with one that the platform releases, with one whose release throws. *)
Lemma stopGeofencing_spec w :
  let w' := (GeofencingService.stopGeofencing P w).2 in
  (GeofencingService.stopGeofencing P w).1 = Return tt ∧
  isActive (geofencing w') = false ∧
  checkInterval (geofencing w') = None ∧
  notified w' = ∅ ∧
  (∀ h, checkInterval (geofencing w) = Some h → h ∉ (intervals (device w')).*1) ∧
  (watchId (locationSvc w) = None ∨ subscriptionRemove P (steps (device w)) = Return tt →
   watchId (locationSvc w') = None ∧
   isMonitoring (locationSvc w') = false ∧
   ∀ h, watchId (locationSvc w) = Some h → h ∉ watchers (device w')).
Proof.
  destruct w as [[active timer set] [wid monitoring] [init] [ws ts next log al ls k c]].
  unfold GeofencingService.stopGeofencing, LocationService.stopLocationMonitoring,
    LocationSubscription_remove, clearInterval,
    GeofencingService.set_isActive, GeofencingService.set_checkInterval,
    GeofencingService.update_lastNotifiedNotes,
    LocationService.set_watchId, LocationService.set_isMonitoring,
    try_catch, mbind, M_bind, mret, M_ret, get, modify, platform_call, notified.
  assert (∀ h (l : list (positive * Z)), h ∉ (filter (λ t, t.1 ≠ h) l).*1) as Htimers.
  { intros h l ([h' ms] & -> & [Hne _]%list_elem_of_filter)%list_elem_of_fmap. done. }
  assert (∀ h (l : list positive), h ∉ filter (λ s, s ≠ h) l) as Hwatchers.
  { intros h l [Hne _]%list_elem_of_filter. done. }
  cbv zeta.
  destruct wid as [h|]; cbn; [destruct (subscriptionRemove P k) as [[]|]|];
    destruct timer as [t|]; cbn; repeat split; try done;
    try (intros ? [= ?]; subst; apply Htimers);
    try (intros ? [= ?]; subst; apply Hwatchers);
    match goal with H : _ ∨ _ |- _ => by destruct H end.
Qed.

End Stop.

(** C6, as the code has it.  [stopGeofencing] always completes normally and
    leaves the monitor inactive, its timer cancelled and the set of notified
    notes empty, whether or not releasing the subscription throws; the
    subscription itself is released when the monitor holds none or the
    platform's [remove] completes normally.  A start right after the stop
    begins with an empty set. *)
Theorem stop_resets_the_monitor (P : Platform) (w : World) :
  let w' := (GeofencingService.stopGeofencing P w).2 in
  (GeofencingService.stopGeofencing P w).1 = Return tt ∧
  isActive (geofencing w') = false ∧
  checkInterval (geofencing w') = None ∧
  (∀ h, checkInterval (geofencing w) = Some h → h ∉ (intervals (device w')).*1) ∧
  notified w' = ∅ ∧
  (watchId (locationSvc w) = None ∨ subscriptionRemove P (steps (device w)) = Return tt →
   watchId (locationSvc w') = None ∧
   isMonitoring (locationSvc w') = false ∧
   ∀ h, watchId (locationSvc w) = Some h → h ∉ watchers (device w')) ∧
  notified (GeofencingService.startGeofencing P w').2 = ∅.
Proof.
  destruct (stopGeofencing_spec P w) as (Hret & Hactive & Htimer & Hset & Hcancelled & Hreleased).
  cbv zeta. repeat split; try done.
  - by apply Hreleased.
  - by apply Hreleased.
  - by apply Hreleased.
  - rewrite <- Hset. apply (startGeofencing_sameNotified P).
Qed.

(** A monitor started on the cooperative platform, with note A notified,
    then stopped and started again. *)
Lemma stop_resets_the_monitor_witness :
  let w := markNotified "A"
             (GeofencingService.startGeofencing (Sample.cooperative [Sample.noteA])
                initialWorld).2 in
  let w' := (GeofencingService.stopGeofencing (Sample.cooperative [Sample.noteA]) w).2 in
  notified w = {[ "A" ]} ∧
  isActive (geofencing w') = false ∧
  checkInterval (geofencing w') = None ∧
  intervals (device w') = [] ∧
  notified w' = ∅ ∧
  watchId (locationSvc w') = None ∧
  isMonitoring (locationSvc w') = false ∧
  watchers (device w') = [] ∧
  notified (GeofencingService.startGeofencing (Sample.cooperative [Sample.noteA]) w').2 = ∅.
Proof.
  intros w w'.
  destruct (stop_resets_the_monitor (Sample.cooperative [Sample.noteA]) w)
    as (_ & Hactive & Htimer & _ & Hset & Hreleased & Hrestart).
  destruct Hreleased as (Hwatch & Hmonitoring & _); [by right|].
  split; [by apply set_eq; intros x; set_solver|].
  repeat split; try done.
Defined.

(** The counterexample to C6 as stated: on a platform whose [remove] throws,
    a started monitor that is stopped is inactive, but its subscription is
    still held, still marked as monitoring and still live on the device. *)
Lemma stop_keeps_subscription_when_remove_throws :
  let w := (GeofencingService.startGeofencing (Sample.stuckSubscription [Sample.noteA])
              initialWorld).2 in
  let w' := (GeofencingService.stopGeofencing (Sample.stuckSubscription [Sample.noteA]) w).2 in
  watchId (locationSvc w) = Some 1%positive ∧
  (GeofencingService.stopGeofencing (Sample.stuckSubscription [Sample.noteA]) w).1 = Return tt ∧
  isActive (geofencing w') = false ∧
  watchId (locationSvc w') = Some 1%positive ∧
  isMonitoring (locationSvc w') = true ∧
  watchers (device w') = [1%positive].
Proof. by repeat split. Qed.

(** ** C7 and C8: time-based reminders *)

Section Reminders.
Context (P : Platform).

Lemma handle_then_null {A} e w :
  ∃ w', (ErrorHandler.handle e ;; mret (@None A)) w = (Return None, w') ∧ quiet w w'.
Proof.
  rewrite bind_run. pose proof (quietly_handle e w) as Hq.
  destruct (neverThrows_handle e w) as [[] Hr].
  destruct (ErrorHandler.handle e w) as [r w']. cbn in Hr, Hq. subst r.
  by exists w'.
Qed.

Lemma scheduleNotification_rejected notificationData w :
  nd_title notificationData = "" ∨ scheduledDate notificationData ≤ timeChecked P w →
  ∃ w',
    NotificationService.scheduleNotification P notificationData w = (Return None, w') ∧
    notificationLog (device w') = notificationLog (device w).
Proof.
  intros Hbad. unfold NotificationService.scheduleNotification, timeChecked in *.
  rewrite try_catch_run, bind_run.
  pose proof (quietly_initialize P w) as Hq.
  destruct (neverThrows_initialize P w) as [b Hb].
  destruct (NotificationService.initialize P w) as [r w1]. cbn in Hb, Hq. subst r.
  destruct Hq as (_ & _ & _ & _ & _ & Hlog & Hreads).
  match goal with |- context [(ErrorHandler.handle ?e ;; mret None) _] =>
    pose proof (λ w0, handle_then_null (A := string) e w0) as Hhandler
  end.
  destruct (String.eqb_spec (nd_title notificationData) "") as [Hempty|Htitle].
  - destruct (Hhandler w1) as (w' & Hrun & (_ & _ & _ & _ & _ & Hlog' & _)).
    unfold throw. rewrite Hrun. exists w'. by rewrite Hlog', Hlog.
  - destruct Hbad as [?|Hpast]; [done|].
    rewrite bind_run. unfold Date_now at 1. rewrite Hreads.
    destruct (Z.leb_spec (scheduledDate notificationData) (clock P (clockReads (device w))));
      [|lia].
    unfold throw.
    match goal with |- context [(ErrorHandler.handle _ ;; mret None) ?w0] =>
      destruct (Hhandler w0) as (w' & Hrun & (_ & _ & _ & _ & _ & Hlog' & _))
    end.
    rewrite Hrun. exists w'. by rewrite Hlog', <- Hlog.
Qed.

Lemma scheduleNotification_future notificationData w :
  nd_title notificationData ≠ "" →
  timeChecked P w < scheduledDate notificationData →
  let seconds := (scheduledDate notificationData - timeScheduled P w) / 1000 in
  ∃ answer w',
    NotificationService.scheduleNotification P notificationData w
      = (Return (match answer with Return i => Some i | Throw => None end), w') ∧
    notificationLog (device w')
      = (notificationLog (device w) ++ [(reminderRequest notificationData seconds, answer)])%list.
Proof.
  intros Htitle Hfuture seconds. subst seconds.
  unfold NotificationService.scheduleNotification, timeChecked, timeScheduled in *.
  rewrite try_catch_run, bind_run.
  pose proof (quietly_initialize P w) as Hq.
  destruct (neverThrows_initialize P w) as [b Hb].
  destruct (NotificationService.initialize P w) as [r w1]. cbn in Hb, Hq. subst r.
  destruct Hq as (_ & _ & _ & _ & _ & Hlog & Hreads).
  destruct (String.eqb_spec (nd_title notificationData) "") as [|_]; [done|].
  rewrite bind_run. unfold Date_now at 1. rewrite Hreads.
  destruct (Z.leb_spec (scheduledDate notificationData) (clock P (clockReads (device w))));
    [lia|].
  rewrite bind_run. unfold Date_now at 1. cbn [device with_device clockReads].
  rewrite Hreads, bind_run.
  fold (reminderRequest notificationData
          ((scheduledDate notificationData - clock P (S (clockReads (device w)))) / 1000)).
  unfold Notifications_scheduleNotificationAsync.
  match goal with |- context [(ErrorHandler.handle ?e ;; mret None) _] =>
    pose proof (λ w0, handle_then_null (A := string) e w0) as Hhandler
  end.
  match goal with
  | |- context [scheduleNotificationAsync P ?k ?r] =>
      destruct (scheduleNotificationAsync P k r) as [i|];
        [exists (Return i)|exists Throw]
  end.
  - eexists. split; [reflexivity|]. cbn. by rewrite Hlog.
  - match goal with |- context [(ErrorHandler.handle _ ;; mret None) ?w0] =>
      destruct (Hhandler w0) as (w' & Hrun & (_ & _ & _ & _ & _ & Hlog' & _))
    end.
    rewrite Hrun. exists w'. split; [done|]. rewrite Hlog'. cbn. by rewrite Hlog.
Qed.

Lemma formatNotificationTime_under_a_minute w d :
  0 ≤ d < 60000 →
  (NotificationService.formatNotificationTime P (timeChecked P w + d) w).1
    = Return "In 0 minutes".
Proof.
  intros Hd. unfold NotificationService.formatNotificationTime, timeChecked.
  rewrite bind_run. unfold Date_now at 1.
  replace ((clock P (clockReads (device w)) + d - clock P (clockReads (device w)))
           / (1000 * 60)) with 0; [done|].
  symmetry. apply Z.div_small. lia.
Qed.

Lemma formatNotificationTime_past w date :
  date < timeChecked P w →
  (NotificationService.formatNotificationTime P date w).1 = Return "Past due".
Proof.
  intros Hpast. unfold NotificationService.formatNotificationTime, timeChecked in *.
  rewrite bind_run. unfold Date_now at 1.
  destruct (Z.ltb_spec ((date - clock P (clockReads (device w))) / (1000 * 60)) 0) as [|Hge];
    [done|].
  assert ((date - clock P (clockReads (device w))) / (1000 * 60) < 0)
    by (apply Z.div_lt_upper_bound; lia).
  lia.
Qed.

End Reminders.

(** C7, as the code has it.  A reminder whose date is not after the time
    read for the comparison is rejected: the call completes normally with no
    handle and nothing is handed to the platform.  A reminder with a
    non-empty title whose date is after that time is handed to the platform
    exactly once, with a delay of floor((date - now) / 1000) seconds, [now]
    being the time read when the delay is computed; the call returns the
    platform's handle, or no handle when the platform throws. *)
Theorem scheduleNotification_rejects_past_and_schedules_future
    (P : Platform) (notificationData : NotificationData) (w : World) :
  (scheduledDate notificationData ≤ timeChecked P w →
   ∃ w',
     NotificationService.scheduleNotification P notificationData w = (Return None, w') ∧
     notificationLog (device w') = notificationLog (device w)) ∧
  (nd_title notificationData ≠ "" →
   timeChecked P w < scheduledDate notificationData →
   ∃ answer w',
     NotificationService.scheduleNotification P notificationData w
       = (Return (match answer with Return i => Some i | Throw => None end), w') ∧
     notificationLog (device w')
       = (notificationLog (device w) ++
          [(reminderRequest notificationData
              ((scheduledDate notificationData - timeScheduled P w) / 1000),
            answer)])%list).
Proof.
  split.
  - intros Hpast. apply scheduleNotification_rejected. by right.
  - intros Htitle Hfuture. by apply scheduleNotification_future.
Qed.

(** A reminder one millisecond in the past, and one 5.5 s in the future: the
    clock of the cooperative platform reads 1700000000000 at the comparison
    and a second more when the delay is computed, so the delay is 4 s. *)
Lemma scheduleNotification_witness :
  (∃ w',
     NotificationService.scheduleNotification (Sample.cooperative [])
       (Sample.reminder "Dentist" (1700000000000 - 1)) initialWorld = (Return None, w') ∧
     notificationLog (device w') = []) ∧
  (∃ answer w',
     NotificationService.scheduleNotification (Sample.cooperative [])
       (Sample.reminder "Dentist" (1700000000000 + 5500)) initialWorld
       = (Return (match answer with Return i => Some i | Throw => None end), w') ∧
     notificationLog (device w')
       = [(reminderRequest (Sample.reminder "Dentist" (1700000000000 + 5500)) 4, answer)]).
Proof.
  split.
  - apply (scheduleNotification_rejects_past_and_schedules_future (Sample.cooperative [])
             (Sample.reminder "Dentist" (1700000000000 - 1)) initialWorld).
    vm_compute. discriminate.
  - apply (scheduleNotification_rejects_past_and_schedules_future (Sample.cooperative [])
             (Sample.reminder "Dentist" (1700000000000 + 5500)) initialWorld).
    + discriminate.
    + reflexivity.
Defined.

(** The counterexample to C7 as stated: a reminder in the future whose title
    is empty is rejected, and nothing is scheduled. *)
Lemma scheduleNotification_rejects_empty_title :
  let r := NotificationService.scheduleNotification (Sample.cooperative [])
             (Sample.reminder "" (1700000000000 + 5500)) initialWorld in
  timeChecked (Sample.cooperative []) initialWorld < 1700000000000 + 5500 ∧
  r.1 = Return None ∧
  notificationLog (device r.2) = [].
Proof. by repeat split. Qed.

(** C8.  A date less than a minute ahead of the time read (30 seconds for
    one) is rendered as the text of the smallest bucket, "In 0 minutes"; a
    date before the time read is rendered as "Past due". *)
Theorem formatNotificationTime_smallest_bucket_and_past (P : Platform) (w : World) :
  (NotificationService.formatNotificationTime P (timeChecked P w + 30 * 1000) w).1
    = Return "In 0 minutes" ∧
  (∀ d, 0 ≤ d < 60 * 1000 →
     (NotificationService.formatNotificationTime P (timeChecked P w + d) w).1
       = Return "In 0 minutes") ∧
  (∀ date, date < timeChecked P w →
     (NotificationService.formatNotificationTime P date w).1 = Return "Past due").
Proof.
  split; [|split].
  - apply formatNotificationTime_under_a_minute. lia.
  - intros d Hd. apply formatNotificationTime_under_a_minute. lia.
  - apply formatNotificationTime_past.
Qed.

(** 59.999 seconds ahead and five minutes back, on the cooperative platform. *)
Lemma formatNotificationTime_witness :
  (NotificationService.formatNotificationTime (Sample.cooperative []) (1700000000000 + 59999) initialWorld).1
    = Return "In 0 minutes" ∧
  (NotificationService.formatNotificationTime (Sample.cooperative []) (1700000000000 - 5 * 60 * 1000) initialWorld).1
    = Return "Past due".
Proof.
  destruct (formatNotificationTime_smallest_bucket_and_past
              (Sample.cooperative []) initialWorld) as (_ & Hbucket & Hpast).
  split.
  - apply (Hbucket 59999). lia.
  - apply Hpast. reflexivity.
Defined.

(** ** C10: a failed notification is not retried *)

Section NoRetry.
Context (P : Platform) `{B : Builtins}.
Import LocationService.

Lemma requestFor_proximityRequest noteId t :
  requestFor noteId (proximityRequest t) = String.eqb (t_noteId t) noteId.
Proof.
  unfold requestFor, proximityRequest. cbn [content_data existsb fst snd].
  change (String.eqb "type" "noteId") with false.
  change (String.eqb "noteId" "noteId") with true.
  change (String.eqb "distance" "noteId") with false.
  cbn [andb orb]. by rewrite orb_false_r.
Qed.

Lemma requestsFor_emitted noteId ts : ∀ entries,
  entries.*1 = proximityRequest <$> ts →
  length (requestsFor noteId entries) = length (entriesOf noteId ts).
Proof.
  unfold requestsFor, entriesOf.
  induction ts as [|t ts IH]; intros [|[r a] entries] E; try done.
  cbn in E. injection E as -> E. rewrite !filter_cons. cbn [fst].
  rewrite requestFor_proximityRequest.
  destruct (String.eqb_spec (t_noteId t) noteId) as [Heq|Hne].
  - rewrite decide_True by done. rewrite decide_True by done. cbn. by rewrite IH.
  - rewrite decide_False by (by intros ?). rewrite decide_False by done. by apply IH.
Qed.

Lemma entriesOf_newlyTriggered_notified noteId ts : ∀ set,
  noteId ∈ set → entriesOf noteId (newlyTriggered set ts) = [].
Proof.
  unfold entriesOf. induction ts as [|t ts IH]; intros set Hin; [done|].
  cbn [newlyTriggered]. destruct (decide (t_noteId t ∈ set)) as [|Hout]; [by apply IH|].
  rewrite filter_cons, decide_False by (intros <-; done).
  apply IH. set_solver.
Qed.

Lemma entriesOf_newlyTriggered_fresh noteId ts : ∀ set,
  noteId ∉ set → noteId ∈ t_noteId <$> ts →
  length (entriesOf noteId (newlyTriggered set ts)) = 1%nat.
Proof.
  unfold entriesOf. induction ts as [|t ts IH]; intros set Hout Hin.
  - by apply elem_of_nil in Hin.
  - cbn [newlyTriggered]. rewrite fmap_cons, elem_of_cons in Hin.
    destruct (decide (t_noteId t ∈ set)) as [Hset|Hset].
    + apply IH; [done|]. destruct Hin as [->|]; done.
    + rewrite filter_cons. destruct (decide (t_noteId t = noteId)) as [<-|Hne].
      * cbn. f_equal. fold (entriesOf (t_noteId t) (newlyTriggered (set ∪ {[t_noteId t]}) ts)).
        rewrite entriesOf_newlyTriggered_notified; [done|set_solver].
      * apply IH; [set_solver|]. destruct Hin as [->|]; done.
Qed.

(** A pass during which a note triggers: the note is in the set afterwards,
    and it was requested once if it was not in the set before, not at all if
    it was. *)
Lemma pass_triggering noteId currentLocation w :
  noteId ∈ t_noteId <$> checkGeofences currentLocation (targetsAt P (steps (device w))) →
  ∃ w' entries,
    GeofencingService.handleLocationUpdate P currentLocation w = (Return tt, w') ∧
    notificationLog (device w') = (notificationLog (device w) ++ entries)%list ∧
    length (requestsFor noteId entries) =
      (if decide (noteId ∈ notified w) then 0 else 1)%nat ∧
    noteId ∈ notified w'.
Proof.
  intros Htr. rewrite handleLocationUpdate_spec.
  destruct (checkGeofencesForLocation_spec P currentLocation w)
    as (w' & Hrun & Hset & entries & Hlog & Hentries).
  exists w', entries. split; [done|]. split; [done|]. split.
  - rewrite (requestsFor_emitted _ _ _ Hentries).
    destruct (decide (noteId ∈ notified w)).
    + by rewrite entriesOf_newlyTriggered_notified.
    + by apply entriesOf_newlyTriggered_fresh.
  - rewrite Hset. destruct (targetsAt P (steps (device w))); [by apply elem_of_nil in Htr|].
    by apply elem_of_list_to_set.
Qed.

(** Passes during all of which a note already in the set triggers: nothing
    is requested for it, and it stays in the set. *)
Lemma deliver_while_triggering noteId positions : ∀ w,
  noteId ∈ notified w →
  (∀ k p, p ∈ positions → noteId ∈ t_noteId <$> checkGeofences p (targetsAt P k)) →
  ∃ w' entries,
    GeofencingService.deliver P positions w = (Return tt, w') ∧
    notificationLog (device w') = (notificationLog (device w) ++ entries)%list ∧
    requestsFor noteId entries = [] ∧
    noteId ∈ notified w'.
Proof.
  unfold GeofencingService.deliver.
  induction positions as [|p positions IH]; intros w Hin Htr.
  - exists w, []. by rewrite app_nil_r.
  - destruct (pass_triggering noteId p w) as (w1 & entries1 & Hrun1 & Hlog1 & Hcount1 & Hin1).
    { apply Htr. by left. }
    destruct (IH w1 Hin1) as (w' & entries & Hrun & Hlog & Hnone & Hin').
    { intros k q Hq. apply Htr. by right. }
    exists w', (entries1 ++ entries)%list. cbn [for_of]. rewrite bind_run, Hrun1.
    split; [done|]. split; [by rewrite Hlog, Hlog1, app_assoc|]. split; [|done].
    unfold requestsFor in *. rewrite filter_app, Hnone, app_nil_r.
    rewrite decide_True in Hcount1 by done. by apply nil_length_inv.
Qed.

Lemma handleGeofenceTriggered_marks_first t w :
  t_noteId t ∉ notified w →
  (GeofencingService.handleGeofenceTriggered P t w).2 =
    (NotificationService.scheduleLocationNotification P
       (t_noteTitle t) (t_noteId t) (t_distance t) (markNotified (t_noteId t) w)).2 ∧
  t_noteId t ∈ notified (GeofencingService.handleGeofenceTriggered P t w).2.
Proof.
  intros Hout. split.
  - unfold GeofencingService.handleGeofenceTriggered.
    rewrite try_catch_run, bind_run. cbn [get]. fold (notified w).
    rewrite decide_False by done.
    rewrite bind_run. cbn [GeofencingService.update_lastNotifiedNotes modify].
    fold (markNotified (t_noteId t) w).
    destruct (scheduleLocationNotification_spec P t (markNotified (t_noteId t) w))
      as (answer & w' & Hrun & _).
    by rewrite bind_run, Hrun.
  - destruct (handleGeofenceTriggered_spec P t w) as (w' & Hrun & Hset & _).
    rewrite Hrun. cbn [snd]. rewrite Hset. set_solver.
Qed.

End NoRetry.

(** C10.  A triggered note that is not in the set is first added to it and
    only then handed to the notification service; whatever the service
    answers (a handle, nothing, an exception) the note is in the set when the
    handler returns.  Hence, over a pass in which a note not yet in the set
    triggers followed by any number of passes in which it still triggers,
    exactly one request is made for the note: a failed one is not repeated. *)
Theorem failed_notification_is_not_retried
    (P : Platform) `{B : Builtins} (w : World) (noteId : string)
    (p0 : LocationObject) (positions : list LocationObject) :
  (∀ t w0,
     LocationService.t_noteId t ∉ notified w0 →
     (GeofencingService.handleGeofenceTriggered P t w0).2 =
       (NotificationService.scheduleLocationNotification P
          (LocationService.t_noteTitle t) (LocationService.t_noteId t)
          (LocationService.t_distance t)
          (markNotified (LocationService.t_noteId t) w0)).2 ∧
     LocationService.t_noteId t ∈
       notified (GeofencingService.handleGeofenceTriggered P t w0).2) ∧
  (noteId ∉ notified w →
   (∀ k p, p ∈ p0 :: positions →
      noteId ∈ LocationService.t_noteId <$>
        LocationService.checkGeofences p (targetsAt P k)) →
   ∃ w1 w2 entries1 entries2,
     GeofencingService.handleLocationUpdate P p0 w = (Return tt, w1) ∧
     notificationLog (device w1) = (notificationLog (device w) ++ entries1)%list ∧
     length (requestsFor noteId entries1) = 1%nat ∧
     noteId ∈ notified w1 ∧
     GeofencingService.deliver P positions w1 = (Return tt, w2) ∧
     notificationLog (device w2) = (notificationLog (device w1) ++ entries2)%list ∧
     requestsFor noteId entries2 = [] ∧
     noteId ∈ notified w2).
Proof.
  split; [apply handleGeofenceTriggered_marks_first|].
  intros Hout Htr.
  destruct (pass_triggering P noteId p0 w) as (w1 & entries1 & Hrun1 & Hlog1 & Hcount1 & Hin1).
  { apply Htr. by left. }
  rewrite decide_False in Hcount1 by done.
  destruct (deliver_while_triggering P noteId positions w1 Hin1)
    as (w2 & entries2 & Hrun2 & Hlog2 & Hnone & Hin2).
  { intros k q Hq. apply Htr. by right. }
  by exists w1, w2, entries1, entries2.
Qed.

Section NoRetryRun.
Import SmallAngle.

(** On a platform whose notification service rejects every request, note A
    stays three passes inside its geofence: one request, answered by an
    exception, and no second one. *)
Lemma failed_notification_witness :
  (NotificationService.scheduleLocationNotification (Sample.rejecting [Sample.noteA])
     "Buy milk" "A" 0 (markNotified "A" initialWorld)).1 = Return None ∧
  ∃ w1 w2 entries1 entries2,
    GeofencingService.handleLocationUpdate (Sample.rejecting [Sample.noteA])
      Sample.inside initialWorld = (Return tt, w1) ∧
    notificationLog (device w1) = (notificationLog (device initialWorld) ++ entries1)%list ∧
    length (requestsFor "A" entries1) = 1%nat ∧
    "A" ∈ notified w1 ∧
    GeofencingService.deliver (Sample.rejecting [Sample.noteA])
      [Sample.inside; Sample.inside] w1 = (Return tt, w2) ∧
    notificationLog (device w2) = (notificationLog (device w1) ++ entries2)%list ∧
    requestsFor "A" entries2 = [] ∧
    "A" ∈ notified w2.
Proof.
  split; [reflexivity|].
  apply (failed_notification_is_not_retried (Sample.rejecting [Sample.noteA])
           initialWorld "A" Sample.inside [Sample.inside; Sample.inside]).
  - apply not_elem_of_empty.
  - intros k p Hp.
    assert (p = Sample.inside) as ->.
    { repeat (apply elem_of_cons in Hp as [->|Hp]; [done|]). by apply elem_of_nil in Hp. }
    vm_compute. by left.
Defined.

End NoRetryRun.

(** * Properties of the rest of the services *)

(** ** What one pass over the notes requests *)

Section Pass.
Context (P : Platform) `{B : Builtins}.
Import LocationService.

Lemma entriesOf_newlyTriggered_absent noteId ts : ∀ set,
  noteId ∉ t_noteId <$> ts → entriesOf noteId (newlyTriggered set ts) = [].
Proof.
  unfold entriesOf. induction ts as [|t ts IH]; intros set Hout; [done|].
  rewrite fmap_cons, not_elem_of_cons in Hout. destruct Hout as [Hne Hout].
  cbn [newlyTriggered]. destruct (decide (t_noteId t ∈ set)); [by apply IH|].
  rewrite filter_cons, decide_False by done. by apply IH.
Qed.

Lemma newlyTriggered_sublist ts : ∀ set, newlyTriggered set ts ⊆ ts.
Proof.
  induction ts as [|t ts IH]; intros set; cbn [newlyTriggered]; [done|].
  destruct (decide (t_noteId t ∈ set)).
  - intros x Hx. right. by apply (IH set).
  - intros x [->|Hx]%elem_of_cons; [by left|right; by eapply IH].
Qed.

(** One position update ([handleLocationUpdate], that is
    [checkGeofencesForLocation] with [handleGeofenceTriggered] for each
    entry) returns normally and asks for exactly one proximity notification
    for each note that is in range and was not in the notified set, and for
    none for any other note; every request it makes is for an entry
    [checkGeofences] returned. Afterwards the notified set is the set of the
    notes in range, unless there was no note with a location, in which case
    it is left as it was. *)
Theorem a_pass_requests_once_per_note_that_came_into_range currentLocation w :
  let triggeredNotes := checkGeofences currentLocation (targetsAt P (steps (device w))) in
  ∃ w' entries,
    GeofencingService.handleLocationUpdate P currentLocation w = (Return tt, w') ∧
    notified w' =
      (match targetsAt P (steps (device w)) with
       | [] => notified w
       | _ :: _ => list_to_set (t_noteId <$> triggeredNotes)
       end) ∧
    notificationLog (device w') = (notificationLog (device w) ++ entries)%list ∧
    (∀ entry, entry ∈ entries → ∃ t, t ∈ triggeredNotes ∧ entry.1 = proximityRequest t) ∧
    (∀ noteId,
       length (requestsFor noteId entries) =
       if decide (noteId ∈ t_noteId <$> triggeredNotes ∧ noteId ∉ notified w)
       then 1%nat else 0%nat).
Proof.
  intros triggeredNotes. rewrite handleLocationUpdate_spec.
  destruct (checkGeofencesForLocation_spec P currentLocation w)
    as (w' & Hrun & Hset & entries & Hlog & Hentries).
  fold triggeredNotes in Hset, Hentries.
  exists w', entries. split; [done|]. split; [done|]. split; [done|]. split.
  - intros entry Hin.
    assert (entry.1 ∈ proximityRequest <$> newlyTriggered (notified w) triggeredNotes) as Hreq.
    { rewrite <- Hentries. by apply list_elem_of_fmap_2. }
    apply list_elem_of_fmap in Hreq as (t & -> & Ht).
    exists t. split; [|done]. by apply (newlyTriggered_sublist _ (notified w)).
  - intros noteId. rewrite (requestsFor_emitted _ _ _ Hentries).
    destruct (decide (noteId ∈ t_noteId <$> triggeredNotes ∧ noteId ∉ notified w))
      as [[Htr Hout]|Hno].
    + by apply entriesOf_newlyTriggered_fresh.
    + destruct (decide (noteId ∈ notified w)) as [Hin|Hout].
      * by rewrite entriesOf_newlyTriggered_notified.
      * rewrite entriesOf_newlyTriggered_absent; [done|]. intros ?. by apply Hno.
Qed.
End Pass.

(** ** The periodic check and the reset *)

(** When [getCurrentLocation] returns a location, the periodic check
    [checkAllGeofences] is the position update at that latitude and
    longitude, stamped with the time read after the fix; getting the fix
    changes neither the notified set nor the notification log. *)
Theorem poll_evaluates_at_the_fix (P : Platform) `{B : Builtins}
    (w w1 : World) (l : LocationData) :
  LocationService.getCurrentLocation P w = (Return (Some l), w1) →
  let position :=
    {| coords_latitude := latitude l; coords_longitude := longitude l;
       timestamp := clock P (clockReads (device w1)) |} in
  GeofencingService.checkAllGeofences P w =
    GeofencingService.handleLocationUpdate P position (Date_now P w1).2 ∧
  notified (Date_now P w1).2 = notified w ∧
  notificationLog (device (Date_now P w1).2) = notificationLog (device w).
Proof.
  intros Hfix position. split.
  - unfold GeofencingService.checkAllGeofences.
    rewrite try_catch_run, bind_run, Hfix, bind_run. unfold Date_now at 1.
    fold position. rewrite handleLocationUpdate_spec.
    destruct (checkGeofencesForLocation_spec P position (Date_now P w1).2)
      as (w' & Hrun & _).
    unfold Date_now in Hrun |- *. cbn [snd] in Hrun |- *. by rewrite Hrun.
  - pose proof (quietly_getCurrentLocation P w) as Hq. rewrite Hfix in Hq.
    destruct Hq as (Hg & _ & _ & _ & _ & Hlog & _). cbn [snd] in Hg, Hlog.
    unfold notified. cbn. by rewrite Hg, Hlog.
Qed.

Section PollRun.
Import SmallAngle.

Lemma poll_evaluates_at_the_fix_witness :
  let P := Sample.cooperative [Sample.noteA] in
  let w1 := (LocationService.getCurrentLocation P initialWorld).2 in
  let position :=
    {| coords_latitude := 0; coords_longitude := 0;
       timestamp := clock P (clockReads (device w1)) |} in
  GeofencingService.checkAllGeofences P initialWorld =
    GeofencingService.handleLocationUpdate P position (Date_now P w1).2 ∧
  notified (Date_now P w1).2 = notified initialWorld ∧
  notificationLog (device (Date_now P w1).2) = notificationLog (device initialWorld).
Proof.
  intros P w1 position.
  apply (poll_evaluates_at_the_fix P initialWorld w1
           {| latitude := 0; longitude := 0; address := Some "0.000000, 0.000000";
              radius := 100 |}).
  vm_compute. reflexivity.
Defined.

End PollRun.

(** [resetNotificationHistory] empties the notified set and changes nothing
    else: monitoring, timer and device stay as they are. The next position
    update then asks for one notification for every note in range, also for
    those that had been notified before the reset. *)
Theorem reset_makes_notes_in_range_notify_again (P : Platform) `{B : Builtins}
    (currentLocation : LocationObject) (w : World) :
  let w1 := (GeofencingService.resetNotificationHistory w).2 in
  let inRange :=
    LocationService.t_noteId <$>
      LocationService.checkGeofences currentLocation (targetsAt P (steps (device w))) in
  (GeofencingService.resetNotificationHistory w).1 = Return tt ∧
  notified w1 = ∅ ∧
  GeofencingService.getStatus w1 = (isActive (geofencing w), 0%nat, 0%nat) ∧
  checkInterval (geofencing w1) = checkInterval (geofencing w) ∧
  locationSvc w1 = locationSvc w ∧
  device w1 = device w ∧
  ∃ w' entries,
    GeofencingService.handleLocationUpdate P currentLocation w1 = (Return tt, w') ∧
    notificationLog (device w') = (notificationLog (device w) ++ entries)%list ∧
    ∀ noteId, length (requestsFor noteId entries) =
              if decide (noteId ∈ inRange) then 1%nat else 0%nat.
Proof.
  cbv zeta. repeat split.
  set (w1 := (GeofencingService.resetNotificationHistory w).2).
  rewrite handleLocationUpdate_spec.
  destruct (checkGeofencesForLocation_spec P currentLocation w1)
    as (w' & Hrun & _ & entries & Hlog & Hentries).
  exists w', entries. split; [done|]. split; [done|].
  intros noteId. rewrite (requestsFor_emitted _ _ _ Hentries).
  change (notified w1) with (∅ : gset string).
  change (steps (device w1)) with (steps (device w)).
  destruct (decide (noteId ∈ _)) as [Hin|Hout].
  - apply entriesOf_newlyTriggered_fresh; [apply not_elem_of_empty|done].
  - by rewrite entriesOf_newlyTriggered_absent.
Qed.

(** ** No subscription, timer or listener is leaked *)

Section Keeps.
Context (I : World → Prop) {A B : Type}.

Lemma keeps_ret (a : A) : keeps I (mret a).
Proof. by intros w. Qed.

Lemma keeps_throw : keeps I (@throw A).
Proof. by intros w. Qed.

Lemma keeps_get (f : World → A) : keeps I (get f).
Proof. by intros w. Qed.

Lemma keeps_bind (m : M A) (f : A → M B) :
  keeps I m → (∀ a, keeps I (f a)) → keeps I (m ≫= f).
Proof.
  intros Hm Hf w Hw. rewrite bind_run. specialize (Hm w Hw).
  destruct (m w) as [[a|] w']; [|done]. by apply Hf.
Qed.

Lemma keeps_try_catch (m h : M A) :
  keeps I m → keeps I h → keeps I (try_catch m h).
Proof.
  intros Hm Hh w Hw. rewrite try_catch_run. specialize (Hm w Hw).
  destruct (m w) as [[a|] w']; [done|]. by apply Hh.
Qed.

Lemma keeps_for_of (xs : list A) (body : A → M unit) :
  (∀ x, keeps I (body x)) → keeps I (for_of xs body).
Proof.
  intros Hbody. induction xs as [|x xs IH]; [by intros w|].
  cbn [for_of]. intros w Hw. rewrite bind_run. specialize (Hbody x w Hw).
  destruct (body x w) as [[[]|] w']; [|done]. by apply IH.
Qed.

End Keeps.

Lemma tidy_sameHandles w w' : sameHandles w w' → tidy w → tidy w'.
Proof.
  unfold tidy. intros (-> & -> & -> & -> & -> & -> & -> & ->). done.
Qed.

Lemma keeps_sameHandles {A} (m : M A) :
  (∀ w, sameHandles w (m w).2) → keeps tidy m.
Proof. intros H w. apply tidy_sameHandles, H. Qed.

Lemma tidy_platform_call {A} (answer : nat → Completion A) : keeps tidy (platform_call answer).
Proof. apply keeps_sameHandles. by intros w. Qed.

Lemma tidy_Alert_alert title msg : keeps tidy (Alert_alert title msg).
Proof. apply keeps_sameHandles. by intros w. Qed.

Lemma tidy_handle e : keeps tidy (ErrorHandler.handle e).
Proof. unfold ErrorHandler.handle. destruct (recoverable e); apply tidy_Alert_alert. Qed.

Lemma tidy_Date_now P : keeps tidy (Date_now P).
Proof. apply keeps_sameHandles. by intros w. Qed.

Lemma tidy_schedule P r : keeps tidy (Notifications_scheduleNotificationAsync P r).
Proof. apply keeps_sameHandles. by intros w. Qed.

Lemma tidy_update_lastNotifiedNotes f :
  keeps tidy (GeofencingService.update_lastNotifiedNotes f).
Proof. apply keeps_sameHandles. by intros w. Qed.

Ltac keeps_step :=
  lazymatch goal with
  | |- keeps _ (try_catch _ _) => apply keeps_try_catch
  | |- keeps _ (_ ≫= _) => apply keeps_bind; [|intros ?]
  | |- keeps _ (mret _) => apply keeps_ret
  | |- keeps _ throw => apply keeps_throw
  | |- keeps _ (get _) => apply keeps_get
  | |- keeps _ (for_of _ _) => apply keeps_for_of; intros ?
  | |- keeps _ (platform_call _) => apply tidy_platform_call
  | |- keeps _ (platform_read _) => apply tidy_platform_call
  | |- keeps _ (Alert_alert _ _) => apply tidy_Alert_alert
  | |- keeps _ (ErrorHandler.handle _) => apply tidy_handle
  | |- keeps _ (Date_now _) => apply tidy_Date_now
  | |- keeps _ (Notifications_scheduleNotificationAsync _ _) => apply tidy_schedule
  | |- keeps _ (GeofencingService.update_lastNotifiedNotes _) =>
      apply tidy_update_lastNotifiedNotes
  | |- keeps _ (if ?b then _ else _) => destruct b
  | |- keeps _ (match ?x with _ => _ end) => destruct x
  | |- keeps _ (let _ := _ in _) => cbv zeta
  end.

Section Tidy.
Context (P : Platform) `{B : Builtins}.

Lemma tidy_requestLocationPermission : keeps tidy (LocationService.requestLocationPermission P).
Proof. unfold LocationService.requestLocationPermission. repeat keeps_step. Qed.

Lemma tidy_getCurrentLocation : keeps tidy (LocationService.getCurrentLocation P).
Proof.
  unfold LocationService.getCurrentLocation, LocationService.tryGetAddress.
  repeat first [apply tidy_requestLocationPermission | keeps_step].
Qed.

Lemma tidy_isLocationEnabled : keeps tidy (LocationService.isLocationEnabled P).
Proof. unfold LocationService.isLocationEnabled. repeat keeps_step. Qed.

Lemma tidy_openLocationSettings : keeps tidy LocationService.openLocationSettings.
Proof. unfold LocationService.openLocationSettings. repeat keeps_step. Qed.

Lemma tidy_requestPermission : keeps tidy (NotificationService.requestPermission P).
Proof. unfold NotificationService.requestPermission. repeat keeps_step. Qed.

Lemma tidy_getPermissionStatus : keeps tidy (NotificationService.getPermissionStatus P).
Proof. unfold NotificationService.getPermissionStatus. repeat keeps_step. Qed.

(** The listeners are registered and the flag is set in one go, and only
    when the flag was not set. *)
Lemma tidy_initialize : keeps tidy (NotificationService.initialize P).
Proof.
  intros w Hw. unfold NotificationService.initialize.
  rewrite try_catch_run, bind_run. cbn [get].
  destruct (isInitialized (notificationSvc w)) eqn:Hinit; [done|].
  rewrite bind_run.
  pose proof (tidy_requestPermission w Hw) as Hw1.
  pose proof (quietly_requestPermission P w) as Hq.
  assert (isInitialized (notificationSvc (NotificationService.requestPermission P w).2) = false)
    as Hinit1.
  { revert Hinit. unfold NotificationService.requestPermission, ErrorHandler.handle,
      try_catch, mbind, M_bind, mret, M_ret, platform_call, Alert_alert, modify.
    cbn -[String.append].
    destruct (getPermissionsAsync P _) as [[]|]; cbn -[String.append]; try done;
      try (destruct (requestPermissionsAsync P _) as [[]|]; cbn -[String.append]; try done);
      destruct (Platform_OS P); cbn -[String.append]; try done;
      destruct (setNotificationChannelAsync P _) as [[]|]; done. }
  destruct (NotificationService.requestPermission P w) as [[[]|] w1]; cbn in *; try done.
  destruct Hw1 as (Hws & Hm & Hts & Ha & Hls). rewrite Hinit1 in Hls.
  unfold NotificationService.setupNotificationListeners, NotificationService.set_isInitialized,
    mbind, M_bind, mret, M_ret, modify, tidy.
  cbn. by rewrite Hls.
Qed.

Lemma tidy_scheduleNotification d : keeps tidy (NotificationService.scheduleNotification P d).
Proof.
  unfold NotificationService.scheduleNotification.
  repeat first [apply tidy_initialize | keeps_step].
Qed.

Lemma tidy_scheduleLocationNotification t i d :
  keeps tidy (NotificationService.scheduleLocationNotification P t i d).
Proof.
  unfold NotificationService.scheduleLocationNotification.
  repeat first [apply tidy_initialize | keeps_step].
Qed.

Lemma tidy_showTestNotification : keeps tidy (NotificationService.showTestNotification P).
Proof.
  unfold NotificationService.showTestNotification.
  repeat first [apply tidy_initialize | keeps_step].
Qed.

Lemma tidy_checkGeofencesForLocation l :
  keeps tidy (GeofencingService.checkGeofencesForLocation P l).
Proof.
  unfold GeofencingService.checkGeofencesForLocation, GeofencingService.handleGeofenceTriggered.
  repeat first [apply tidy_scheduleLocationNotification | keeps_step].
Qed.

Lemma tidy_handleLocationUpdate l : keeps tidy (GeofencingService.handleLocationUpdate P l).
Proof.
  unfold GeofencingService.handleLocationUpdate.
  repeat first [apply tidy_checkGeofencesForLocation | keeps_step].
Qed.

Lemma tidy_checkAllGeofences : keeps tidy (GeofencingService.checkAllGeofences P).
Proof.
  unfold GeofencingService.checkAllGeofences.
  repeat first [apply tidy_checkGeofencesForLocation | apply tidy_getCurrentLocation | keeps_step].
Qed.

End Tidy.

Section TidyLifeCycle.
Context (P : Platform) `{B : Builtins}.

Ltac run_platform :=
  repeat match goal with
         | |- context [hasServicesEnabledAsync P ?k] =>
             destruct (hasServicesEnabledAsync P k) as [[]|]; cbn -[String.append]; try done
         | |- context [requestForegroundPermissionsAsync P ?k] =>
             destruct (requestForegroundPermissionsAsync P k) as [[]|]; cbn -[String.append]; try done
         | |- context [requestBackgroundPermissionsAsync P ?k] =>
             destruct (requestBackgroundPermissionsAsync P k) as [[]|]; cbn -[String.append]; try done
         | |- context [watchPositionAsync P ?k] =>
             destruct (watchPositionAsync P k) as [[]|]; cbn -[String.append]; try done
         | |- context [subscriptionRemove P ?k] =>
             destruct (subscriptionRemove P k) as [[]|]; cbn -[String.append]; try done
         end.

Lemma tidy_startLocationMonitoring : keeps tidy (LocationService.startLocationMonitoring P).
Proof.
  intros w.
  destruct w as [[active timer set] [wid monitoring] [init] [ws ts next log al ls k c]].
  unfold tidy. cbn. intros (-> & -> & -> & -> & ->).
  unfold LocationService.startLocationMonitoring, LocationService.requestLocationPermission,
    Location_watchPositionAsync, ErrorHandler.handle,
    LocationService.set_watchId, LocationService.set_isMonitoring,
    try_catch, mbind, M_bind, mret, M_ret, get, modify, platform_call,
    Alert_alert, new_watcher.
  destruct wid as [h|]; cbn -[String.append]; [done|].
  run_platform.
Qed.

Lemma tidy_stopLocationMonitoring : keeps tidy (LocationService.stopLocationMonitoring P).
Proof.
  intros w.
  destruct w as [[active timer set] [wid monitoring] [init] [ws ts next log al ls k c]].
  unfold tidy. cbn. intros (-> & -> & -> & -> & ->).
  unfold LocationService.stopLocationMonitoring, LocationSubscription_remove,
    LocationService.set_watchId, LocationService.set_isMonitoring,
    try_catch, mbind, M_bind, mret, M_ret, get, modify, platform_call.
  destruct wid as [h|]; cbn -[String.append]; [|done].
  run_platform. by rewrite decide_False by (by intros ?).
Qed.

Lemma tidy_startGeofencing : keeps tidy (GeofencingService.startGeofencing P).
Proof.
  intros w Hw. unfold GeofencingService.startGeofencing.
  rewrite try_catch_run, bind_run. cbn [get].
  destruct (isActive (geofencing w)) eqn:Hactive; [done|].
  rewrite bind_run.
  pose proof (tidy_isLocationEnabled P w Hw) as Hw1.
  pose proof (quietly_isLocationEnabled P w) as (Hg1 & _).
  destruct (LocationService.isLocationEnabled P w) as [[[]|] w1]; cbn in *; try done.
  rewrite bind_run.
  pose proof (tidy_startLocationMonitoring w1 Hw1) as Hw2.
  assert (geofencing (LocationService.startLocationMonitoring P w1).2 = geofencing w1) as Hg2.
  { pose proof (startGeofencing_sameNotified P) as _.
    unfold LocationService.startLocationMonitoring, LocationService.requestLocationPermission,
      Location_watchPositionAsync, ErrorHandler.handle,
      LocationService.set_watchId, LocationService.set_isMonitoring,
      try_catch, mbind, M_bind, mret, M_ret, get, modify, platform_call,
      Alert_alert, new_watcher.
    cbn -[String.append].
    destruct (isMonitoring (locationSvc w1)); cbn -[String.append]; [done|].
    run_platform. }
  destruct (LocationService.startLocationMonitoring P w1) as [[[]|] w2]; cbn in *; try done.
  destruct Hw2 as (Hws & Hm & Hts & Ha & Hls).
  rewrite Hg2, Hg1 in Ha, Hts. rewrite Hactive in Ha.
  destruct (checkInterval (geofencing w)) as [h|] eqn:Htimer; [done|]. cbn in Hts.
  unfold GeofencingService.set_isActive, GeofencingService.set_checkInterval, setInterval,
    mbind, M_bind, mret, M_ret, modify, tidy.
  cbn. by rewrite Hts.
Qed.

Lemma tidy_stopGeofencing : keeps tidy (GeofencingService.stopGeofencing P).
Proof.
  intros w Hw. unfold GeofencingService.stopGeofencing.
  rewrite try_catch_run, bind_run.
  pose proof (tidy_stopLocationMonitoring w Hw) as Hw1.
  assert ((LocationService.stopLocationMonitoring P w).1 = Return tt) as Hret.
  { assert (neverThrows (LocationService.stopLocationMonitoring P)) as Hnever
      by apply neverThrows_try_catch, neverThrows_ret.
    by destruct (Hnever w) as [[] Hr]. }
  destruct (LocationService.stopLocationMonitoring P w) as [r w1]. cbn in Hret, Hw1. subst r.
  destruct w1 as [[active timer set] [wid monitoring] [init] [ws ts next log al ls k c]].
  revert Hw1. unfold tidy. cbn. intros (-> & -> & -> & -> & ->).
  unfold clearInterval,
    GeofencingService.set_isActive, GeofencingService.set_checkInterval,
    GeofencingService.update_lastNotifiedNotes,
    mbind, M_bind, mret, M_ret, get, modify.
  destruct timer as [h|]; cbn; [|done].
  by rewrite decide_False by (by intros ?).
Qed.

Lemma neverThrows_handler {A} e (a : A) : neverThrows (ErrorHandler.handle e ;; mret a).
Proof.
  intros w. exists a. rewrite bind_run.
  destruct (neverThrows_handle e w) as [[] Hr].
  by destruct (ErrorHandler.handle e w) as [[[]|] w'].
Qed.

Lemma neverThrows_discard {A} (m : M A) : neverThrows m → neverThrows (m ;; mret tt).
Proof.
  intros Hm w. exists tt. rewrite bind_run. destruct (Hm w) as [a Ha].
  destruct (m w) as [[?|] w']; by cbn in *.
Qed.

Lemma neverThrows_perform c : neverThrows (perform P c).
Proof.
  destruct c; cbn [perform];
    first [ apply neverThrows_discard | idtac ];
    first [ apply neverThrows_try_catch; first [ apply neverThrows_ret | apply neverThrows_handler ]
          | intros w; by exists tt ].
Qed.

Lemma tidy_discard {A} (m : M A) : keeps tidy m → keeps tidy (m ;; mret tt).
Proof. intros Hm. apply keeps_bind; [done|]. intros ?. apply keeps_ret. Qed.

Lemma tidy_perform c : keeps tidy (perform P c).
Proof.
  destruct c; cbn [perform]; first [ apply tidy_discard | idtac ];
    first
      [ apply tidy_startGeofencing | apply tidy_stopGeofencing
      | apply tidy_handleLocationUpdate | apply tidy_checkAllGeofences
      | apply tidy_update_lastNotifiedNotes
      | apply tidy_requestLocationPermission | apply tidy_getCurrentLocation
      | apply tidy_startLocationMonitoring | apply tidy_stopLocationMonitoring
      | apply tidy_isLocationEnabled | apply tidy_openLocationSettings
      | apply tidy_initialize | apply tidy_requestPermission
      | apply tidy_scheduleNotification | apply tidy_scheduleLocationNotification
      | apply tidy_getPermissionStatus | apply tidy_showTestNotification ].
Qed.

End TidyLifeCycle.

(** Whatever sequence of the services' methods is called, and whatever
    the platform answers, no call throws and the device holds no more than
    the services know of: at most one position subscription, the one in
    [watchId]; at most one timer, the one in [checkInterval], of 120000 ms;
    and two notification listeners once initialized, none before. *)
Theorem services_keep_the_device_tidy (P : Platform) `{B : Builtins}
    (calls : list Call) (w : World) :
  tidy w →
  let r := for_of calls (perform P) w in
  r.1 = Return tt ∧
  tidy r.2 ∧
  (length (watchers (device r.2)) ≤ 1)%nat ∧
  (length (intervals (device r.2)) ≤ 1)%nat ∧
  (listeners (device r.2) ≤ 2)%nat.
Proof.
  intros Hw. cbv zeta.
  assert ((for_of calls (perform P) w).1 = Return tt ∧ tidy (for_of calls (perform P) w).2)
    as [Hret Htidy].
  { revert w Hw. induction calls as [|c calls IH]; intros w Hw; [done|].
    cbn [for_of]. rewrite bind_run.
    pose proof (tidy_perform P c w Hw) as Hw1.
    destruct (neverThrows_perform P c w) as [[] Hr].
    destruct (perform P c w) as [r w1]. cbn in Hr, Hw1. subst r. by apply IH. }
  split; [done|]. split; [done|].
  destruct Htidy as (-> & _ & -> & _ & ->).
  repeat split.
  - destruct (watchId _); cbn; lia.
  - destruct (checkInterval _); cbn; lia.
  - destruct (isInitialized _); lia.
Qed.

Section TidyRun.
Import SmallAngle.

Lemma services_keep_the_device_tidy_witness :
  let r := for_of [StartGeofencing; LocationUpdate Sample.inside; StopGeofencing;
                   StartGeofencing; PeriodicCheck]
             (perform (Sample.stuckSubscription [Sample.noteA])) initialWorld in
  r.1 = Return tt ∧
  tidy r.2 ∧
  (length (watchers (device r.2)) ≤ 1)%nat ∧
  (length (intervals (device r.2)) ≤ 1)%nat ∧
  (listeners (device r.2) ≤ 2)%nat.
Proof.
  apply (services_keep_the_device_tidy (Sample.stuckSubscription [Sample.noteA])).
  by repeat split.
Defined.
End TidyRun.

(** ** When geofencing starts *)

(** From a state in which nothing is running, [startGeofencing] returns
    [true] exactly when location services are enabled, the foreground
    permission is granted, the request for the background permission does
    not throw and the position subscription is set up. When it returns
    [false] it has kept nothing: no subscription, no timer, no change of
    either service's state, no notification. *)
Theorem startGeofencing_succeeds_exactly_when (P : Platform) (w : World) :
  isActive (geofencing w) = false →
  isMonitoring (locationSvc w) = false →
  let k := steps (device w) in
  let w' := (GeofencingService.startGeofencing P w).2 in
  ∃ started,
    (GeofencingService.startGeofencing P w).1 = Return started ∧
    (started = true ↔
       hasServicesEnabledAsync P k = Return true ∧
       requestForegroundPermissionsAsync P (S k) = Return granted ∧
       requestBackgroundPermissionsAsync P (S (S k)) ≠ Throw ∧
       watchPositionAsync P (S (S (S k))) = Return tt) ∧
    (started = false →
       geofencing w' = geofencing w ∧
       locationSvc w' = locationSvc w ∧
       watchers (device w') = watchers (device w) ∧
       intervals (device w') = intervals (device w) ∧
       notificationLog (device w') = notificationLog (device w)).
Proof.
  destruct w as [[active timer set] [wid monitoring] [init] [ws ts next log al ls k c]].
  cbn. intros -> ->.
  unfold GeofencingService.startGeofencing, LocationService.isLocationEnabled,
    LocationService.startLocationMonitoring, LocationService.requestLocationPermission,
    Location_watchPositionAsync, ErrorHandler.handle,
    GeofencingService.set_isActive, GeofencingService.set_checkInterval,
    LocationService.set_watchId, LocationService.set_isMonitoring,
    try_catch, mbind, M_bind, mret, M_ret, get, modify, platform_call,
    Alert_alert, new_watcher, setInterval.
  cbn -[String.append].
  destruct (hasServicesEnabledAsync P k) as [[]|]; cbn -[String.append];
    [|eexists; split; [reflexivity|]; split; [split; [done|by intros ([=] & _)]|done]..].
  destruct (requestForegroundPermissionsAsync P (S k)) as [[]|]; cbn -[String.append];
    [|eexists; split; [reflexivity|]; split; [split; [done|by intros (_ & [=] & _)]|done]..].
  destruct (requestBackgroundPermissionsAsync P (S (S k))) as [[]|]; cbn -[String.append];
    [| |
     |eexists; split; [reflexivity|]; split; [split; [done|by intros (_ & _ & ? & _)]|done]];
    (destruct (watchPositionAsync P (S (S (S k)))) as [[]|]; cbn -[String.append];
     eexists; (split; [reflexivity|]); split; try done;
     split; try done; by intros (_ & _ & _ & [=])).
Qed.

Lemma startGeofencing_succeeds_exactly_when_witness :
  let w' := (GeofencingService.startGeofencing (Sample.cooperative []) initialWorld).2 in
  ∃ started,
    (GeofencingService.startGeofencing (Sample.cooperative []) initialWorld).1 = Return started ∧
    (started = true ↔
       hasServicesEnabledAsync (Sample.cooperative []) 0 = Return true ∧
       requestForegroundPermissionsAsync (Sample.cooperative []) 1 = Return granted ∧
       requestBackgroundPermissionsAsync (Sample.cooperative []) 2 ≠ Throw ∧
       watchPositionAsync (Sample.cooperative []) 3 = Return tt) ∧
    (started = false →
       geofencing w' = geofencing initialWorld ∧
       locationSvc w' = locationSvc initialWorld ∧
       watchers (device w') = watchers (device initialWorld) ∧
       intervals (device w') = intervals (device initialWorld) ∧
       notificationLog (device w') = notificationLog (device initialWorld)).
Proof.
  apply (startGeofencing_succeeds_exactly_when (Sample.cooperative []) initialWorld);
    reflexivity.
Defined.

(** ** Permissions and the current location *)

(** [requestLocationPermission] never throws. It returns [true] exactly
    when the foreground permission is granted and the request for the
    background permission does not throw: a refused background permission
    still gives [true], with one alert about background location. A refused
    foreground permission gives [false] and one notice; an exception gives
    [false] and no alert. *)
Theorem requestLocationPermission_decides_on_foreground (P : Platform) (w : World) :
  let k := steps (device w) in
  let r := LocationService.requestLocationPermission P w in
  ∃ allowed,
    r.1 = Return allowed ∧
    (allowed = true ↔
       requestForegroundPermissionsAsync P k = Return granted ∧
       requestBackgroundPermissionsAsync P (S k) ≠ Throw) ∧
    alerts (device r.2) =
      (alerts (device w) ++
       match requestForegroundPermissionsAsync P k with
       | Return granted =>
           match requestBackgroundPermissionsAsync P (S k) with
           | Return granted | Throw => []
           | Return _ => [backgroundLocationNotice]
           end
       | Return _ =>
           [("Notice", userMessage ErrorHandler.LOCATION_PERMISSION_DENIED)]
       | Throw => []
       end)%list.
Proof.
  unfold LocationService.requestLocationPermission, ErrorHandler.handle,
    ErrorHandler.LOCATION_PERMISSION_DENIED, backgroundLocationNotice,
    try_catch, mbind, M_bind, mret, M_ret, platform_call, Alert_alert, modify.
  cbn -[String.append].
  destruct (requestForegroundPermissionsAsync P _) as [[]|]; cbn -[String.append];
    [|eexists; split; [reflexivity|]; split;
        [split; [done|by intros ([=] & _)]|by rewrite ?app_nil_r]..].
  destruct (requestBackgroundPermissionsAsync P _) as [[]|]; cbn -[String.append];
    eexists; (split; [reflexivity|]); (split; [|by rewrite ?app_nil_r]);
    split; try done; by intros (_ & ?).
Qed.

Lemma append_nonempty_r s t : t ≠ "" → s ++ t ≠ "".
Proof. destruct s; [done|]. by intros _. Qed.

Lemma or_else_nonempty a fallback :
  fallback ≠ "" → LocationService.or_else a fallback ≠ "".
Proof.
  intros Hf. unfold LocationService.or_else. destruct a as [s|]; [|done].
  by destruct (String.eqb_spec s "").
Qed.

Section Fix.
Context (P : Platform) `{B : Builtins}.

Lemma formatLocationDisplay_locationOfFix position a :
  ∃ text, address (locationOfFix position a) = Some text ∧ text ≠ "" ∧
          LocationService.formatLocationDisplay (locationOfFix position a) = text.
Proof.
  eexists. split; [reflexivity|].
  assert (LocationService.or_else a
            (Number_toFixed (coords_latitude position) 6 ++ ", " ++
             Number_toFixed (coords_longitude position) 6) ≠ "") as Hne.
  { apply or_else_nonempty, append_nonempty_r. done. }
  split; [done|].
  unfold LocationService.formatLocationDisplay. cbn [address locationOfFix].
  match goal with |- context [String.eqb ?s ""] => by destruct (String.eqb_spec s "") end.
Qed.

Lemma neverThrows_getCurrentLocation : neverThrows (LocationService.getCurrentLocation P).
Proof. apply neverThrows_try_catch, neverThrows_handler. Qed.

Lemma requestLocationPermission_run (w : World) :
  let k := steps (device w) in
  let r := LocationService.requestLocationPermission P w in
  (r.1 = Return true ∧
   requestForegroundPermissionsAsync P k = Return granted ∧
   requestBackgroundPermissionsAsync P (S k) ≠ Throw ∧
   steps (device r.2) = S (S k)) ∨
  (r.1 = Return false ∧
   ¬ (requestForegroundPermissionsAsync P k = Return granted ∧
      requestBackgroundPermissionsAsync P (S k) ≠ Throw)).
Proof.
  unfold LocationService.requestLocationPermission, ErrorHandler.handle,
    ErrorHandler.LOCATION_PERMISSION_DENIED,
    try_catch, mbind, M_bind, mret, M_ret, platform_call, Alert_alert, modify.
  cbn -[String.append].
  destruct (requestForegroundPermissionsAsync P _) as [[]|]; cbn -[String.append];
    [|right; split; [done|by intros ([=] & _)]..].
  destruct (requestBackgroundPermissionsAsync P _) as [[]|]; cbn -[String.append];
    [left; by repeat split..|right; split; [done|by intros (_ & ?)]].
Qed.

Lemma tryGetAddress_run (w : World) :
  ∃ a w', LocationService.tryGetAddress P w = (Return a, w').
Proof.
  unfold LocationService.tryGetAddress. rewrite try_catch_run, bind_run.
  unfold platform_call at 1.
  destruct (reverseGeocodeAsync P _) as [[|addr addrs]|]; by eexists _, _.
Qed.

(** [getCurrentLocation] never throws and leaves the services' state and
    the notification log alone. A location it returns is the position the
    platform gave at the third step, with radius 100, passes
    [validateLocation], and carries a non-empty address, which is what
    [formatLocationDisplay] shows for it. Conversely, with the permission
    granted and a position that validates, a location is returned whether
    or not the reverse geocoder answers. *)
Theorem getCurrentLocation_returns_a_validated_fix (w : World) :
  let k := steps (device w) in
  let r := LocationService.getCurrentLocation P w in
  (∃ result, r.1 = Return result) ∧
  quiet w r.2 ∧
  (∀ l, r.1 = Return (Some l) →
     ∃ position,
       getCurrentPositionAsync P (S (S k)) = Return position ∧
       latitude l = coords_latitude position ∧
       longitude l = coords_longitude position ∧
       radius l = 100%float ∧
       ValidationUtils.validateLocation l = [] ∧
       ∃ text, address l = Some text ∧ text ≠ "" ∧
               LocationService.formatLocationDisplay l = text) ∧
  (∀ position,
     requestForegroundPermissionsAsync P k = Return granted →
     requestBackgroundPermissionsAsync P (S k) ≠ Throw →
     getCurrentPositionAsync P (S (S k)) = Return position →
     ValidationUtils.validateLocation (locationOfFix position None) = [] →
     ∃ l, r.1 = Return (Some l)).
Proof.
  cbv zeta. split; [|split; [apply quietly_getCurrentLocation|]].
  { destruct (neverThrows_getCurrentLocation w) as [result Hr]. by exists result. }
  destruct (LocationService.getCurrentLocation P w) as [res w'] eqn:Hrun. cbn [fst].
  unfold LocationService.getCurrentLocation in Hrun.
  rewrite try_catch_run, bind_run in Hrun.
  match type of Hrun with context [(ErrorHandler.handle ?e ;; mret None) _] =>
    pose proof (λ w0, handle_then_null (A := LocationData) e w0) as Hhandler
  end.
  destruct (requestLocationPermission_run w) as [(Hr & Hfg & Hbg & Hsteps)|(Hr & Hno)];
    destruct (LocationService.requestLocationPermission P w) as [r w1];
    cbn [fst snd] in *; subst r; cbn [negb] in Hrun.
  2:{ injection Hrun as <- <-. split.
      - intros l H. discriminate H.
      - intros position Hfg Hbg _ _. by destruct Hno. }
  rewrite bind_run in Hrun. unfold platform_call at 1 in Hrun. rewrite Hsteps in Hrun.
  destruct (getCurrentPositionAsync P (S (S (steps (device w))))) as [position|].
  2:{ destruct (Hhandler (with_device bump_steps w1)) as (w0 & Hh & _).
      rewrite Hh in Hrun. injection Hrun as <- <-.
      split; [intros l H; discriminate H|intros ? _ _ H; discriminate H]. }
  rewrite bind_run in Hrun.
  destruct (tryGetAddress_run (with_device bump_steps w1)) as (a & w2 & Ha).
  rewrite Ha in Hrun.
  fold (locationOfFix position a) in Hrun.
  assert (ValidationUtils.validateLocation (locationOfFix position a) =
          ValidationUtils.validateLocation (locationOfFix position None)) as Haddr by done.
  destruct (ValidationUtils.validateLocation (locationOfFix position a)) as [|err errs] eqn:Hv.
  - injection Hrun as <- <-. split.
    + intros l [= <-]. exists position. repeat split; try done.
      apply formatLocationDisplay_locationOfFix.
    + intros ? _ _ _ _. eexists. reflexivity.
  - unfold throw in Hrun. destruct (Hhandler w2) as (w0 & Hh & _).
    rewrite Hh in Hrun. injection Hrun as <- <-.
    split; [intros l H; discriminate H|].
    intros ? _ _ [= <-] Hv'. by rewrite Hv' in Haddr.
Qed.
End Fix.

(** ** The notification service *)

(** [initialize] never throws. Once initialized it returns [true] and
    does nothing. Before, it returns [true] exactly when the permission is
    there or granted on request and the Android channel is set up, and it
    registers the two listeners exactly in that case; a second call after a
    success changes nothing, so the listeners are registered once. *)
Theorem initialize_registers_listeners_once (P : Platform) (w : World) :
  let r := NotificationService.initialize P w in
  ∃ ready,
    r.1 = Return ready ∧
    (isInitialized (notificationSvc w) = true → ready = true ∧ r.2 = w) ∧
    (isInitialized (notificationSvc w) = false →
     (ready = true ↔ notificationsAllowed P (steps (device w))) ∧
     listeners (device r.2) = (listeners (device w) + if ready then 2 else 0)%nat) ∧
    isInitialized (notificationSvc r.2) = isInitialized (notificationSvc w) || ready ∧
    (ready = true → NotificationService.initialize P r.2 = (Return true, r.2)).
Proof.
  destruct w as [g l [init] [ws ts next log al ls k c]].
  unfold NotificationService.initialize, NotificationService.requestPermission,
    NotificationService.setupNotificationListeners, NotificationService.set_isInitialized,
    ErrorHandler.handle, ErrorHandler.NOTIFICATION_PERMISSION_DENIED,
    notificationsAllowed, channelReady,
    try_catch, mbind, M_bind, mret, M_ret, get, modify, platform_call, Alert_alert.
  cbn -[String.append].
  destruct init; cbn -[String.append]; [by exists true|].
  assert (∀ n : nat, (n + 0)%nat = n) as Hn0 by lia.
  destruct (getPermissionsAsync P k) as [[]|]; cbn -[String.append];
    try (destruct (requestPermissionsAsync P (S k)) as [[]|]; cbn -[String.append]);
    try (destruct (Platform_OS P) eqn:HOS; cbn -[String.append]);
    try (match goal with
         | |- context [setNotificationChannelAsync P ?j] =>
             destruct (setNotificationChannelAsync P j) as [[]|]; cbn -[String.append]
         end);
    eexists; (split; [reflexivity|]); (split; [done|]);
    (split; [intros _; split; [|by rewrite ?Hn0]|done]);
    split; try done; try (by intros [? ?]); try (by intros [[=] ?]);
    try (intros H; by specialize (H eq_refl));
    try (intros [_ H]; by specialize (H eq_refl)).
Qed.

(** [formatNotificationTime] shows a date in the past as past due, and
    otherwise the whole minutes below an hour, the whole hours below a day,
    the whole days from there on, each rounded down: an hour and a half
    ahead reads as one hour. *)
Theorem formatNotificationTime_counts_whole_units (P : Platform) (w : World) (date : Z) :
  let d := date - timeChecked P w in
  (NotificationService.formatNotificationTime P date w).1 =
    Return (if d <? 0 then "Past due"
            else if d <? 60 * 60 * 1000 then countdown (d / (60 * 1000)) "minute"
            else if d <? 24 * 60 * 60 * 1000 then countdown (d / (60 * 60 * 1000)) "hour"
            else countdown (d / (24 * 60 * 60 * 1000)) "day") ∧
  (60 * 60 * 1000 ≤ d < 2 * 60 * 60 * 1000 →
   (NotificationService.formatNotificationTime P date w).1 = Return "In 1 hour").
Proof.
  cbv zeta.
  assert ((NotificationService.formatNotificationTime P date w).1 =
    Return (if date - timeChecked P w <? 0 then "Past due"
            else if date - timeChecked P w <? 60 * 60 * 1000
                 then countdown ((date - timeChecked P w) / (60 * 1000)) "minute"
            else if date - timeChecked P w <? 24 * 60 * 60 * 1000
                 then countdown ((date - timeChecked P w) / (60 * 60 * 1000)) "hour"
            else countdown ((date - timeChecked P w) / (24 * 60 * 60 * 1000)) "day")) as Hall.
  { unfold NotificationService.formatNotificationTime, timeChecked, countdown.
    rewrite bind_run. unfold Date_now at 1.
    set (d := date - clock P (clockReads (device w))).
    assert (d / (1000 * 60) / 60 = d / (60 * 60 * 1000)) as Hh
      by (rewrite Z.div_div by lia; f_equal).
    assert (d / (1000 * 60) / 60 / 24 = d / (24 * 60 * 60 * 1000)) as Hd
      by (rewrite !Z.div_div by lia; f_equal).
    assert (d / (1000 * 60) = d / (60 * 1000)) as Hm by (f_equal).
    destruct (Z.ltb_spec d 0) as [Hneg|Hpos].
    - destruct (Z.ltb_spec (d / (1000 * 60)) 0) as [|Hge]; [done|].
      assert (d / (1000 * 60) < 0) by (apply Z.div_lt_upper_bound; lia). lia.
    - destruct (Z.ltb_spec (d / (1000 * 60)) 0) as [Hlt|_].
      { assert (0 ≤ d / (1000 * 60)) by (apply Z.div_pos; lia). lia. }
      destruct (Z.ltb_spec d (60 * 60 * 1000)) as [Hmin|Hmin].
      + destruct (Z.ltb_spec (d / (1000 * 60)) 60) as [_|Hge]; [by rewrite Hm|].
        assert (d / (1000 * 60) < 60) by (apply Z.div_lt_upper_bound; lia). lia.
      + destruct (Z.ltb_spec (d / (1000 * 60)) 60) as [Hlt|_].
        { assert (60 ≤ d / (1000 * 60)) by (apply Z.div_le_lower_bound; lia). lia. }
        cbv zeta. rewrite Hd, Hh.
        destruct (Z.ltb_spec d (24 * 60 * 60 * 1000)) as [Hhour|Hhour].
        * destruct (Z.ltb_spec (d / (60 * 60 * 1000)) 24) as [_|Hge]; [done|].
          assert (d / (60 * 60 * 1000) < 24) by (apply Z.div_lt_upper_bound; lia). lia.
        * destruct (Z.ltb_spec (d / (60 * 60 * 1000)) 24) as [Hlt|_]; [|done].
          assert (24 ≤ d / (60 * 60 * 1000)) by (apply Z.div_le_lower_bound; lia). lia. }
  split; [exact Hall|].
  intros Hd. rewrite Hall.
  destruct (Z.ltb_spec (date - timeChecked P w) 0); [lia|].
  destruct (Z.ltb_spec (date - timeChecked P w) (60 * 60 * 1000)); [lia|].
  destruct (Z.ltb_spec (date - timeChecked P w) (24 * 60 * 60 * 1000)); [|lia].
  replace ((date - timeChecked P w) / (60 * 60 * 1000)) with 1; [done|].
  apply Z.div_unique with (r := date - timeChecked P w - 60 * 60 * 1000); lia.
Qed.

Lemma formatNotificationTime_counts_whole_units_witness :
  (NotificationService.formatNotificationTime (Sample.cooperative [])
     (1700000000000 + 90 * 60 * 1000) initialWorld).1 = Return "In 1 hour".
Proof.
  apply (formatNotificationTime_counts_whole_units (Sample.cooperative []) initialWorld
           (1700000000000 + 90 * 60 * 1000)).
  vm_compute. split; [discriminate|reflexivity].
Defined.

(** ** Validation and text *)

Section Order.
Local Open Scope float_scope.

Lemma SFcompare_refl x : x ≠ S754_nan → SFcompare x x = Some Eq.
Proof.
  destruct x as [[]|[]| |[] m e]; try done; intros _; cbn;
    rewrite Z.compare_refl; by rewrite ?Pos.compare_cont_refl, ?Pos.compare_refl.
Qed.

Lemma SFcompare_None x y : SFcompare x y = None ↔ x = S754_nan ∨ y = S754_nan.
Proof.
  split.
  - destruct x as [[]|[]| |[] mx ex], y as [[]|[]| |[] my ey]; cbn; try done; auto;
      destruct (ex ?= ey)%Z; done.
  - intros [-> | ->]; [done|]. by destruct x as [[]|[]| |[] mx ex].
Qed.

Lemma is_nan_spec x : is_nan x = true ↔ Prim2SF x = S754_nan.
Proof.
  unfold is_nan. rewrite negb_true_iff, FloatAxioms.eqb_spec. unfold SFeqb. split.
  - intros H. destruct (Prim2SF x) as [[]|[]| |[] m e] eqn:E; try done;
      by rewrite SFcompare_refl in H.
  - intros ->. done.
Qed.

(** [x < y] fails exactly when one of the two is NaN or [y <= x]. *)
Lemma float_ltb_false x y :
  (x <? y) = false ↔ is_nan x = true ∨ is_nan y = true ∨ (y <=? x) = true.
Proof.
  rewrite !is_nan_spec, FloatAxioms.ltb_spec, FloatAxioms.leb_spec. unfold SFltb, SFleb.
  rewrite (SFcompare_antisym (Prim2SF x) (Prim2SF y)).
  pose proof (SFcompare_None (Prim2SF x) (Prim2SF y)) as HN.
  destruct (SFcompare (Prim2SF x) (Prim2SF y)) as [[]|]; cbn; split; try done; auto.
  - intros [Hx|[Hy|?]]; [| |done].
    + assert (Some Lt = None) by (apply HN; auto). done.
    + assert (Some Lt = None) by (apply HN; auto). done.
  - intros _. destruct HN as [HN _]. specialize (HN eq_refl). tauto.
Qed.

Lemma float_leb_nan_l x y : is_nan x = true → (x <=? y) = false.
Proof.
  rewrite is_nan_spec, FloatAxioms.leb_spec. unfold SFleb. by intros ->.
Qed.

Lemma float_leb_nan_r x y : is_nan y = true → (x <=? y) = false.
Proof.
  rewrite is_nan_spec, FloatAxioms.leb_spec. unfold SFleb. intros ->.
  by destruct (Prim2SF x) as [[]|[]| |[] mx ex].
Qed.

Lemma outside_range lo hi x :
  is_nan lo = false → is_nan hi = false →
  (x <? lo) || (hi <? x) = false ↔ withinOrNaN lo hi x = true.
Proof.
  intros Hlo Hhi. unfold withinOrNaN.
  rewrite orb_false_iff, orb_true_iff, andb_true_iff, !float_ltb_false, Hlo, Hhi.
  split.
  - intros [[?|[?|?]] [?|[?|?]]]; try done; auto.
  - intros [Hnan|[? ?]]; [auto|]. split; auto.
Qed.

End Order.

(** [validateLocation] reports no error exactly when the latitude is in
    [-90, 90], the longitude in [-180, 180] and the radius in [10, 1000], or
    the value is NaN: a coordinate or radius that is not a number passes.
    It reports at most three errors. *)
Theorem validateLocation_accepts_exactly (l : LocationData) :
  (ValidationUtils.validateLocation l = [] ↔
   withinOrNaN (-90) 90 (latitude l) = true ∧
   withinOrNaN (-180) 180 (longitude l) = true ∧
   withinOrNaN 10 1000 (radius l) = true) ∧
  (length (ValidationUtils.validateLocation l) ≤ 3)%nat.
Proof.
  unfold ValidationUtils.validateLocation.
  rewrite <- (outside_range (-90) 90), <- (outside_range (-180) 180),
    <- (outside_range 10 1000) by done.
  destruct ((latitude l <? -90)%float || (90 <? latitude l)%float);
    destruct ((longitude l <? -180)%float || (180 <? longitude l)%float);
    destruct ((radius l <? 10)%float || (1000 <? radius l)%float);
    cbn; (split; [split; [try done|try done; by intros (? & ? & ?)]|lia]).
Qed.

(** A target whose radius is NaN, or whose distance from the position
    comes out as NaN, never triggers: [checkGeofences] returns no entry for
    it, although [validateLocation] lets such a radius through. *)
Theorem not_a_number_never_triggers `{B : Builtins}
    (currentLocation : LocationObject) (target : LocationService.NoteLocation) :
  is_nan (distanceTo currentLocation target) = true ∨
  is_nan (radius (LocationService.location target)) = true →
  triggers currentLocation target = false ∧
  LocationService.checkGeofences currentLocation [target] = [].
Proof.
  intros Hnan.
  assert (triggers currentLocation target = false) as Hno.
  { rewrite triggers_leb.
    destruct Hnan; [by apply float_leb_nan_l|by apply float_leb_nan_r]. }
  split; [done|]. by rewrite checkGeofences_single, Hno.
Qed.

Section NotANumberRun.
Import SmallAngle.

Lemma not_a_number_never_triggers_witness :
  triggers Sample.inside Sample.radiusless = false ∧
  LocationService.checkGeofences Sample.inside [Sample.radiusless] = [].
Proof.
  apply (not_a_number_never_triggers Sample.inside Sample.radiusless).
  right. reflexivity.
Defined.

End NotANumberRun.

Section Text.

#[local] Arguments isWhiteSpace : simpl never.

Lemma String_length_cons c s : String_length (String c s) = 1 + String_length s.
Proof. unfold String_length. cbn [String.length]. lia. Qed.

Lemma String_length_nonneg s : 0 ≤ String_length s.
Proof. unfold String_length. lia. Qed.

Lemma String_length_zero s : String_length s = 0 ↔ s = "".
Proof.
  destruct s; [done|]. rewrite String_length_cons.
  pose proof (String_length_nonneg s). split; [lia|done].
Qed.

Lemma blank_trimStart s : String_trimStart s = "" ↔ blank s = true.
Proof.
  induction s as [|c s IH]; [done|]. cbn.
  destruct (isWhiteSpace c); [done|]. cbn. split; done.
Qed.

Lemma trimStart_head c s' s : String_trimStart s = String c s' → isWhiteSpace c = false.
Proof.
  induction s as [|d s IH]; [done|]. cbn.
  destruct (isWhiteSpace d) eqn:E; [done|]. by intros [= <- _].
Qed.

Lemma trimStart_blank_suffix s : blank (String_trimStart s) = blank s.
Proof.
  induction s as [|c s IH]; [done|]. cbn.
  destruct (isWhiteSpace c) eqn:E; [done|]. cbn. by rewrite E.
Qed.

Lemma trimStart_length s : String_length (String_trimStart s) ≤ String_length s.
Proof.
  induction s as [|c s IH]; [done|]. cbn [String_trimStart].
  destruct (isWhiteSpace c); [|done]. rewrite String_length_cons. lia.
Qed.

Lemma trimEnd_blank s : String_trimEnd s = "" ↔ blank s = true.
Proof.
  destruct s as [|c s]; [done|]. cbn [String_trimEnd].
  destruct (blank (String c s)); split; done.
Qed.

Lemma trimEnd_length s : String_length (String_trimEnd s) ≤ String_length s.
Proof.
  induction s as [|c s IH]; [done|]. cbn [String_trimEnd].
  destruct (blank (String c s)).
  - apply String_length_nonneg.
  - rewrite !String_length_cons. lia.
Qed.

Lemma trimEnd_blank_same s : blank (String_trimEnd s) = blank s.
Proof.
  induction s as [|c s IH]; [done|]. cbn [String_trimEnd].
  destruct (blank (String c s)) eqn:E; [done|].
  cbn in E |- *. rewrite IH. done.
Qed.

Lemma trimEnd_endsTight s : endsTight (String_trimEnd s) = true.
Proof.
  induction s as [|c s IH]; [done|]. cbn [String_trimEnd].
  destruct (blank (String c s)) eqn:E; [done|].
  cbn [endsTight]. rewrite IH, andb_true_r.
  cbn [blank] in E |- *. by rewrite trimEnd_blank_same, E.
Qed.

Lemma trimEnd_head c s :
  isWhiteSpace c = false → String_trimEnd (String c s) = String c (String_trimEnd s).
Proof. intros E. cbn. by rewrite E. Qed.

Lemma endsTight_trimEnd s : endsTight s = true → String_trimEnd s = s.
Proof.
  induction s as [|c s IH]; [done|]. cbn [endsTight String_trimEnd].
  intros [Hb Hs]%andb_true_iff. apply negb_true_iff in Hb. rewrite Hb.
  by rewrite IH.
Qed.

(** What [trim] returns: nothing of a blank text, otherwise a text that
    begins with a character that is not white space and has no blank suffix. *)
Lemma trim_shape s :
  (blank s = true ∧ String_trim s = "") ∨
  (blank s = false ∧
   ∃ c s', String_trim s = String c s' ∧ isWhiteSpace c = false ∧
           endsTight (String c s') = true).
Proof.
  unfold String_trim.
  destruct (String_trimStart s) as [|c t] eqn:E.
  - left. split; [by apply blank_trimStart|done].
  - right. pose proof (trimStart_head _ _ _ E) as Hc.
    pose proof (trimStart_blank_suffix s) as Hb. rewrite E in Hb.
    cbn [blank] in Hb. rewrite Hc in Hb. cbn in Hb. split; [done|].
    exists c, (String_trimEnd t). rewrite trimEnd_head by done.
    split; [done|]. split; [done|].
    rewrite <- trimEnd_head by done. apply trimEnd_endsTight.
Qed.

Lemma replaceRunsFrom_length b s :
  String_length (replaceRunsFrom b s) ≤ String_length s.
Proof.
  revert b. induction s as [|c s IH]; intros b; [done|]. cbn [replaceRunsFrom].
  pose proof (IH true). pose proof (IH false).
  destruct (isWhiteSpace c); [destruct b|]; rewrite ?String_length_cons; lia.
Qed.

Lemma replaceRunsFrom_empty s : replaceRunsFrom false s = "" ↔ s = "".
Proof. destruct s as [|c s]; [done|]. cbn. by destruct (isWhiteSpace c). Qed.

(** Replacing the runs of a text with no blank suffix. *)
Lemma replaceRunsFrom_endsTight s :
  s ≠ "" → endsTight s = true →
  tight (replaceRunsFrom true s) = true ∧
  match s with
  | EmptyString => True
  | String c s' =>
      if isWhiteSpace c
      then ∃ t, replaceRunsFrom false s = String " " t ∧ tight t = true
      else tight (replaceRunsFrom false s) = true
  end.
Proof.
  induction s as [|c s IH]; [done|]. intros _ Hs.
  cbn [endsTight] in Hs. apply andb_true_iff in Hs as [Hb Hs].
  apply negb_true_iff in Hb. cbn [blank] in Hb.
  destruct s as [|d s].
  - cbn in Hb. rewrite andb_true_r in Hb. cbn. rewrite Hb. cbn. by rewrite Hb.
  - destruct (IH ltac:(done) Hs) as [IHt IHf]. clear IH.
    cbn [replaceRunsFrom] in IHt, IHf |- *.
    destruct (isWhiteSpace c) eqn:Ec.
    + split; [exact IHt|]. by eexists.
    + assert (tight (String c (if isWhiteSpace d
                then String " " (replaceRunsFrom true s)
                else String d (replaceRunsFrom false s))) = true) as Ht.
      { destruct (isWhiteSpace d) eqn:Ed.
        - destruct IHf as (t & [= <-] & Ht). cbn. by rewrite Ec, Ht.
        - cbn [tight]. rewrite Ec, Ed. cbn [negb andb].
          cbn [tight] in IHf. by rewrite Ed in IHf. }
      done.
Qed.

Lemma sanitizeText_normalized text : normalized (ValidationUtils.sanitizeText text).
Proof.
  unfold ValidationUtils.sanitizeText, replaceWhiteSpaceRuns.
  destruct (trim_shape text) as [[_ ->]|(_ & c & s' & -> & Hc & Hs)]; [by left|].
  right. destruct (replaceRunsFrom_endsTight (String c s') ltac:(done) Hs) as [_ H].
  by rewrite Hc in H.
Qed.

Lemma tight_head c s : tight (String c s) = true → isWhiteSpace c = false.
Proof. cbn. by intros [?%negb_true_iff _]%andb_true_iff. Qed.

Lemma tight_blank s : tight s = true → blank s = false.
Proof.
  destruct s as [|c s]; [done|]. intros H%tight_head. cbn. by rewrite H.
Qed.

(** Induction on a text two characters at a time. *)
Lemma string_pair_ind (Q : string → Prop) :
  Q "" → (∀ c, Q (String c "")) →
  (∀ c d s, Q s → Q (String d s) → Q (String c (String d s))) →
  ∀ s, Q s.
Proof.
  intros H0 H1 H2 s.
  assert (Q s ∧ ∀ c, Q (String c s)) as [H _]; [|done].
  induction s as [|d s [IH1 IH2]]; [by split|]. split; [apply IH2|].
  intros c. by apply H2.
Qed.

Lemma tight_step c d s :
  tight (String c (String d s)) =
  negb (isWhiteSpace c) &&
  (if isWhiteSpace d then Ascii.eqb d " " && tight s else tight (String d s)).
Proof. reflexivity. Qed.

Lemma tight_endsTight s : tight s = true → endsTight s = true.
Proof.
  induction s as [|c|c d s IH1 IH2] using string_pair_ind; [done| |].
  - cbn. intros [?%negb_true_iff _]%andb_true_iff. by rewrite H.
  - intros Ht. pose proof (tight_head _ _ Ht) as Hc.
    rewrite tight_step, Hc in Ht. cbn [negb andb] in Ht.
    cbn [endsTight blank]. rewrite Hc. cbn [andb negb].
    destruct (isWhiteSpace d) eqn:Ed.
    + apply andb_true_iff in Ht as [_ Ht]. rewrite (tight_blank _ Ht).
      rewrite andb_false_r. cbn. by apply IH1.
    + cbn. specialize (IH2 Ht). cbn [endsTight blank] in IH2.
      by rewrite Ed in IH2.
Qed.

Lemma tight_replaceRuns s :
  tight s = true → replaceRunsFrom false s = s ∧ replaceRunsFrom true s = s.
Proof.
  induction s as [|c|c d s IH1 IH2] using string_pair_ind; [done| |].
  - intros H%tight_head. cbn. by rewrite H.
  - intros Ht. pose proof (tight_head _ _ Ht) as Hc.
    rewrite tight_step, Hc in Ht. cbn [negb andb] in Ht.
    cbn [replaceRunsFrom]. rewrite Hc.
    destruct (isWhiteSpace d) eqn:Ed.
    + apply andb_true_iff in Ht as [->%Ascii.eqb_eq Ht].
      destruct (IH1 Ht) as [_ ->]. done.
    + destruct (IH2 Ht) as [H _]. cbn [replaceRunsFrom] in H. rewrite Ed in H.
      by rewrite H.
Qed.

Lemma normalized_sanitizeText s : normalized s → ValidationUtils.sanitizeText s = s.
Proof.
  intros [->|Ht]; [done|]. unfold ValidationUtils.sanitizeText, replaceWhiteSpaceRuns, String_trim.
  destruct s as [|c s]; [done|]. cbn [String_trimStart]. rewrite (tight_head _ _ Ht).
  rewrite endsTight_trimEnd by by apply tight_endsTight.
  by apply tight_replaceRuns.
Qed.

Lemma sanitizeText_length text :
  String_length (ValidationUtils.sanitizeText text) ≤ String_length text.
Proof.
  unfold ValidationUtils.sanitizeText, replaceWhiteSpaceRuns, String_trim.
  pose proof (replaceRunsFrom_length false (String_trimEnd (String_trimStart text))).
  pose proof (trimEnd_length (String_trimStart text)).
  pose proof (trimStart_length text). lia.
Qed.

Lemma trim_empty s : String_trim s = "" ↔ blank s = true.
Proof.
  destruct (trim_shape s) as [[Hb ->]|(Hb & c & s' & -> & _)]; rewrite Hb; split; done.
Qed.

Lemma sanitizeText_empty text :
  ValidationUtils.sanitizeText text = "" ↔ blank text = true.
Proof.
  unfold ValidationUtils.sanitizeText, replaceWhiteSpaceRuns.
  by rewrite replaceRunsFrom_empty, trim_empty.
Qed.

End Text.

(** [sanitizeText] returns a text with no white space at either end and
    only single spaces inside. Sanitizing twice is sanitizing once, a text
    is left unchanged exactly when it is already of that form, the result
    is empty exactly when the text is blank, and the result is never longer
    than the text. *)
Theorem sanitizeText_reaches_its_normal_form (text : string) :
  normalized (ValidationUtils.sanitizeText text) ∧
  ValidationUtils.sanitizeText (ValidationUtils.sanitizeText text) =
    ValidationUtils.sanitizeText text ∧
  (ValidationUtils.sanitizeText text = text ↔ normalized text) ∧
  (ValidationUtils.sanitizeText text = "" ↔ blank text = true) ∧
  String_length (ValidationUtils.sanitizeText text) ≤ String_length text.
Proof.
  split; [apply sanitizeText_normalized|].
  split; [apply normalized_sanitizeText, sanitizeText_normalized|].
  split; [|split; [apply sanitizeText_empty|apply sanitizeText_length]].
  split; [|apply normalized_sanitizeText].
  intros <-. apply sanitizeText_normalized.
Qed.

Lemma truthy_Some s : truthy (Some s) = true ↔ s ≠ "".
Proof. cbn. rewrite negb_true_iff. by destruct (String.eqb_spec s ""). Qed.

Lemma blank_nonempty s : blank s = false → s ≠ "".
Proof. by destruct s. Qed.

(** The title part of [validateNote]. *)
Lemma validateNote_title title :
  negb (truthy title) || (String_length (String_trim (default "" title)) =? 0) = false ↔
  ∃ t, title = Some t ∧ blank t = false.
Proof.
  rewrite orb_false_iff, negb_false_iff, Z.eqb_neq, String_length_zero, trim_empty.
  destruct title as [t|]; cbn [default from_option id].
  - rewrite truthy_Some. split.
    + intros [_ Hb]. exists t. split; [done|]. by destruct (blank t).
    + intros (? & [= <-] & Hb). split; [by apply blank_nonempty|]. by rewrite Hb.
  - split; [by intros [? _]|by intros (? & ? & _)].
Qed.

Lemma validateNote_length limit text :
  0 ≤ limit →
  truthy text && (limit <? String_length (default "" text)) = false ↔
  ∀ s, text = Some s → String_length s ≤ limit.
Proof.
  intros Hlimit. destruct text as [s|]; cbn [default from_option id]; [|by split].
  rewrite andb_false_iff, Z.ltb_ge. split.
  - intros [Hs|Hs] ? [= <-]; [|exact Hs].
    assert (s = "") as ->; [|exact Hlimit].
    cbn [truthy] in Hs. apply negb_false_iff in Hs. by apply String.eqb_eq.
  - intros H. right. by apply H.
Qed.

Lemma validateNote_count {A} (limit : nat) (items : option (list A)) message :
  match items with
  | Some l => if (limit <? length l)%nat then [message] else []
  | None => []
  end = ([] : list string) ↔
  ∀ l, items = Some l → (length l ≤ limit)%nat.
Proof.
  destruct items as [l|]; [|by split].
  destruct (Nat.ltb_spec limit (length l)) as [Hlt|Hle]; split; try done.
  - intros Hall. specialize (Hall l eq_refl). lia.
  - intros _ ? [= <-]. lia.
Qed.

Lemma validateNote_nil_iff (note : PartialNote) :
  ValidationUtils.validateNote note = [] ↔
  (∃ title, p_title note = Some title ∧ blank title = false ∧ String_length title ≤ 100) ∧
  (∀ content, p_content note = Some content → String_length content ≤ 10000) ∧
  (∀ tags, p_tags note = Some tags → (length tags ≤ 10)%nat) ∧
  (∀ photos, p_photos note = Some photos → (length photos ≤ 20)%nat).
Proof.
  unfold ValidationUtils.validateNote.
  rewrite <- (validateNote_count 10 (p_tags note) "Maximum 10 tags allowed per note"),
    <- (validateNote_count 20 (p_photos note) "Maximum 20 photos allowed per note"),
    <- (validateNote_length 10000 (p_content note)) by done.
  pose proof (validateNote_title (p_title note)) as Htitle.
  pose proof (validateNote_length 100 (p_title note) ltac:(done)) as Hlen.
  destruct (negb (truthy (p_title note)) || _) eqn:E1.
  { split; [done|]. intros [(t & Ht & Hb & _) _].
    assert (true = false); [|done]. apply Htitle. by exists t. }
  destruct (truthy (p_title note) && (100 <? _)) eqn:E2.
  { split; [done|]. intros [(t & Ht & _ & Hl) _].
    assert (true = false); [|done]. apply Hlen. intros s Hs.
    rewrite Ht in Hs. by injection Hs as <-. }
  cbn [app].
  destruct (proj1 Htitle eq_refl) as (t & Ht & Hb).
  pose proof (proj1 Hlen eq_refl t Ht) as Hl.
  destruct (truthy (p_content note) && _).
  { split; [done|]. by intros (_ & ? & _). }
  cbn [app].
  split.
  - intros [H1 H2]%app_eq_nil. split; [by exists t|]. done.
  - intros (_ & _ & H1 & H2). by rewrite H1, H2.
Qed.

(** [validateNote] reports no error exactly when the note has a title
    that is not blank and has at most 100 characters, a content, if any, of
    at most 10000 characters, at most 10 tags and at most 20 photos. A
    missing content, tag list or photo list is accepted. *)
Theorem validateNote_accepts_exactly (note : PartialNote) :
  ValidationUtils.validateNote note = [] ↔
  (∃ title, p_title note = Some title ∧ blank title = false ∧ String_length title ≤ 100) ∧
  (∀ content, p_content note = Some content → String_length content ≤ 10000) ∧
  (∀ tags, p_tags note = Some tags → (length tags ≤ 10)%nat) ∧
  (∀ photos, p_photos note = Some photos → (length photos ≤ 20)%nat).
Proof. exact (validateNote_nil_iff note). Qed.

(** ** Reminders *)

Lemma substring_length n s :
  String.length (substring 0 n s) = Nat.min n (String.length s).
Proof.
  revert n. induction s as [|c s IH]; intros [|n]; try done.
  cbn [substring String.length Nat.min]. by rewrite IH.
Qed.

Lemma String_length_append s t : String_length (s ++ t) = String_length s + String_length t.
Proof.
  unfold String_length. induction s as [|c s IH]; [reflexivity|].
  change (Z.of_nat (S (String.length (s ++ t))) =
          Z.of_nat (S (String.length s)) + Z.of_nat (String.length t)). lia.
Qed.

Lemma append_empty_r s : s ++ "" = s.
Proof.
  induction s as [|c s IH]; [done|].
  change (String c (s ++ "") = String c s). by rewrite IH.
Qed.

Lemma substring_all n s : (String.length s ≤ n)%nat → substring 0 n s = s.
Proof.
  revert n. induction s as [|c s IH]; intros [|n] Hn; cbn in Hn |- *; try done; try lia.
  rewrite IH; [done|lia].
Qed.

(** [createNoteReminder] is [scheduleNotification] on a reminder whose
    identifier is made by [generateId] from the clock and a random text.
    The title is never empty, also for a note without a title. The body is
    "Tap to view your note" for an empty content, the content itself when
    that is not empty and has at most 100 characters, and its first 100
    characters followed by three dots otherwise; it never has more than 103
    characters. A date that is not in the future gives [null] and no
    request; a future date gives one request, delayed by the whole seconds
    until the date. *)
Theorem createNoteReminder_schedules_whatever_the_title
    (P : Platform) (Math_random_text : nat → string)
    (note : Note) (reminderDate : Z) (w : World) :
  let w1 := afterGenerateId P w in
  let id := ValidationUtils.generateId (clock P (clockReads (device w)))
              (Math_random_text (steps (device w))) in
  let notificationData := noteReminder id note reminderDate in
  NotificationService.createNoteReminder P Math_random_text note reminderDate w =
    NotificationService.scheduleNotification P notificationData w1 ∧
  nd_title notificationData ≠ "" ∧
  (note_content note = "" → nd_body notificationData = "Tap to view your note") ∧
  (note_content note ≠ "" → String_length (note_content note) ≤ 100 →
   nd_body notificationData = note_content note) ∧
  (100 < String_length (note_content note) →
   nd_body notificationData = substring 0 100 (note_content note) ++ "...") ∧
  String_length (nd_body notificationData) ≤ 103 ∧
  (reminderDate ≤ timeChecked P w1 →
   ∃ w',
     NotificationService.createNoteReminder P Math_random_text note reminderDate w
       = (Return None, w') ∧
     notificationLog (device w') = notificationLog (device w)) ∧
  (timeChecked P w1 < reminderDate →
   ∃ answer w',
     NotificationService.createNoteReminder P Math_random_text note reminderDate w
       = (Return (match answer with Return i => Some i | Throw => None end), w') ∧
     notificationLog (device w')
       = (notificationLog (device w) ++
          [(reminderRequest notificationData ((reminderDate - timeScheduled P w1) / 1000),
            answer)])%list).
Proof.
  intros w1 id notificationData.
  assert (NotificationService.createNoteReminder P Math_random_text note reminderDate w =
          NotificationService.scheduleNotification P notificationData w1) as Hrun.
  { unfold NotificationService.createNoteReminder.
    rewrite try_catch_run, bind_run. unfold Date_now at 1.
    rewrite bind_run. unfold platform_read, platform_call at 1.
    cbn [device with_device steps clockReads].
    fold id. fold (noteReminder id note reminderDate). fold notificationData.
    change (with_device bump_steps _) with w1.
    assert (∃ r w', NotificationService.scheduleNotification P notificationData w1
                    = (Return r, w')) as (r & w' & ->); [|done].
    destruct (Z.le_gt_cases reminderDate (timeChecked P w1)) as [Hpast|Hfuture].
    - destruct (scheduleNotification_rejected P notificationData w1) as (w' & -> & _);
        [by right|]. by eexists _, _.
    - destruct (scheduleNotification_future P notificationData w1) as (answer & w' & -> & _);
        [done|change (timeChecked P w1 < reminderDate); lia|]. by eexists _, _. }
  assert (notificationLog (device w1) = notificationLog (device w)) as Hlog by done.
  split; [done|]. split; [done|]. split; [|split; [|split; [|split; [|split]]]].
  - intros Hempty. unfold notificationData, noteReminder. cbn [nd_body].
    by rewrite Hempty.
  - intros Hcontent Hshort. unfold notificationData, noteReminder. cbn [nd_body].
    destruct (String.eqb_spec (note_content note) "") as [|_]; [done|]. cbn [negb].
    destruct (Z.ltb_spec 100 (String_length (note_content note))); [lia|].
    rewrite substring_all by (unfold String_length in Hshort; lia).
    apply append_empty_r.
  - intros Hlong. unfold notificationData, noteReminder. cbn [nd_body].
    destruct (String.eqb_spec (note_content note) "") as [Hempty|_].
    { rewrite Hempty in Hlong. by vm_compute in Hlong. }
    cbn [negb].
    destruct (Z.ltb_spec 100 (String_length (note_content note))); [done|lia].
  - unfold notificationData, noteReminder. cbn [nd_body].
    destruct (String.eqb (note_content note) ""); cbn [negb]; [by vm_compute|].
    rewrite String_length_append.
    assert (String_length (substring 0 100 (note_content note)) ≤ 100) as Hsub.
    { unfold String_length. rewrite substring_length. lia. }
    destruct (100 <? String_length (note_content note)).
    + change (String_length "...") with 3. lia.
    + change (String_length "") with 0. lia.
  - intros Hpast. rewrite Hrun, <- Hlog.
    apply scheduleNotification_rejected. by right.
  - intros Hfuture. rewrite Hrun, <- Hlog.
    by apply scheduleNotification_future.
Qed.

(** ** The notes service *)

Lemma task_bind_run {A B} (m : Task A) (f : A → Task B) d :
  (m ≫= f) d =
  match m d with
  | (Resolved a, d') => f a d'
  | (Rejected error, d') => (Rejected error, d')
  end.
Proof. reflexivity. Qed.

Lemma try_catch_error_run {A} (m : Task A) (h : Thrown → Task A) d :
  try_catch_error m h d =
  match m d with
  | (Resolved a, d') => (Resolved a, d')
  | (Rejected error, d') => h error d'
  end.
Proof. reflexivity. Qed.

Section Sort.
Context {A : Type} (key : A → Z).

Lemma Array_sort_insert_perm x l :
  Array_sort_insert (λ a b, key b - key a) x l ≡ₚ x :: l.
Proof.
  induction l as [|y l IH]; [done|]. cbn.
  destruct (key y - key x <=? 0); [done|].
  rewrite IH. apply perm_swap.
Qed.

Lemma Array_sort_perm l : Array_sort (λ a b, key b - key a) l ≡ₚ l.
Proof.
  induction l as [|x l IH]; [done|]. cbn.
  by rewrite Array_sort_insert_perm, IH.
Qed.

Lemma Array_sort_insert_sorted x l :
  StronglySorted (λ a b, key b ≤ key a) l →
  StronglySorted (λ a b, key b ≤ key a) (Array_sort_insert (λ a b, key b - key a) x l).
Proof.
  induction 1 as [|y l Hl IH Hy]; cbn.
  - by repeat constructor.
  - destruct (Z.leb_spec (key y - key x) 0) as [Hle|Hgt].
    + constructor; [by constructor|].
      constructor; [lia|].
      eapply Forall_impl; [exact Hy|]. intros z Hz. cbn in Hz. lia.
    + constructor; [exact IH|].
      rewrite Array_sort_insert_perm. constructor; [lia|done].
Qed.

Lemma Array_sort_sorted l :
  StronglySorted (λ a b, key b ≤ key a) (Array_sort (λ a b, key b - key a) l).
Proof.
  induction l as [|x l IH]; [constructor|]. cbn. by apply Array_sort_insert_sorted.
Qed.

End Sort.

Section Reading.
Context (SP : StoragePlatform) `{J : Json}.

(** [getNoteById] resolves, and writes nothing. *)
Lemma getNoteById_run id d :
  ∃ note,
    NotesService.getNoteById SP id d = (Resolved note, answered d (items d)) ∧
    (getItemRejects SP (requests d) = None → note = storedNote (items d) id).
Proof.
  unfold NotesService.getNoteById, storedNote.
  rewrite try_catch_error_run, task_bind_run. unfold AsyncStorage_getItem at 1.
  destruct (getItemRejects SP (requests d)) as [message|]; [by eexists|].
  destruct (items d !! _) as [text|]; cbn [truthy negb]; [|by eexists].
  destruct (String.eqb text ""); cbn [negb]; [by eexists|].
  rewrite task_bind_run. unfold evaluate at 1. cbn [default from_option Datatypes.id].
  destruct (JSON_parse_note text); by eexists.
Qed.

Lemma collectNotes_run ids : ∀ notes d,
  ∃ found d',
    NotesService.collectNotes SP ids notes d = (Resolved (notes ++ found)%list, d') ∧
    items d' = items d ∧
    requests d' = (requests d + length ids)%nat ∧
    (readable SP (requests d) → found = omap (storedNote (items d)) ids).
Proof.
  induction ids as [|id ids IH]; intros notes d.
  - exists [], d. rewrite app_nil_r. split; [done|]. split; [done|]. split; [cbn; lia|done].
  - cbn [NotesService.collectNotes]. rewrite task_bind_run.
    destruct (getNoteById_run id d) as (note & -> & Hnote).
    destruct (IH (match note with Some n => (notes ++ [n])%list | None => notes end)
                 (answered d (items d))) as (found & d' & -> & Hitems & Hreq & Hfound).
    exists (match note with Some n => n :: found | None => found end), d'.
    split; [|split; [done|split]].
    + destruct note; [by rewrite <- app_assoc|done].
    + rewrite Hreq. cbn. lia.
    + intros Hread. rewrite Hnote by (apply Hread; lia).
      rewrite Hfound by (intros j Hj; apply Hread; cbn in Hj; lia).
      cbn [omap list_omap items answered]. by destruct (storedNote (items d) id).
Qed.

(** [getAllNotes] resolves with the notes it could read, sorted, and
    writes nothing. *)
Lemma getAllNotes_run (d : Disk) :
  ∃ found d',
    NotesService.getAllNotes SP d =
      (Resolved (Array_sort (λ a b, n_updatedAt b - n_updatedAt a) found), d') ∧
    items d' = items d ∧
    (getItemRejects SP (requests d) = None →
     truthy (items d !! NotesService.NOTES_KEY) = false → found = []) ∧
    (∀ text ids,
       readable SP (requests d) →
       items d !! NotesService.NOTES_KEY = Some text → text ≠ "" →
       JSON_parse_ids text = Resolved ids →
       found = omap (storedNote (items d)) ids).
Proof.
  unfold NotesService.getAllNotes.
  rewrite try_catch_error_run, task_bind_run. unfold AsyncStorage_getItem at 1.
  destruct (getItemRejects SP (requests d)) as [message|] eqn:Hget.
  { eexists [], _. split; [reflexivity|]. split; [done|].
    split; [done|]. intros text ids Hread. by rewrite Hread in Hget. }
  destruct (truthy (items d !! NotesService.NOTES_KEY)) eqn:Htruthy; cbn [negb].
  2:{ eexists [], _. split; [reflexivity|]. split; [done|].
      split; [done|]. intros text ids _ Htext Hne.
      rewrite Htext in Htruthy. cbn in Htruthy.
      apply negb_false_iff, String.eqb_eq in Htruthy. done. }
  rewrite task_bind_run. unfold evaluate at 1.
  destruct (JSON_parse_ids (default "" (items d !! NotesService.NOTES_KEY)))
    as [ids|error] eqn:Hparse.
  2:{ eexists [], _. split; [reflexivity|]. split; [done|].
      split; [done|]. intros text ids _ Htext _ Hids.
      rewrite Htext in Hparse. cbn in Hparse. by rewrite Hids in Hparse. }
  rewrite task_bind_run.
  destruct (collectNotes_run ids [] (answered d (items d)))
    as (found & d' & -> & Hitems & _ & Hfound).
  exists found, d'. split; [reflexivity|]. split; [done|]. split; [done|].
  intros text ids' Hread Htext _ Hids.
  rewrite Htext in Hparse. cbn in Hparse. rewrite Hids in Hparse. injection Hparse as ->.
  rewrite Hfound; [done|]. intros j Hj. apply Hread. cbn in Hj. lia.
Qed.

(** A stored text either fails to parse or holds a note with valid dates,
    which is all the service writes ([Json]).  On such a store
    [getAllNotes] always resolves, whatever requests the store rejects, and
    writes nothing. Its result is ordered by [updatedAt], newest first. It
    is empty when there is no index; when no read is rejected it holds, up
    to that order, the notes stored under the identifiers of the index, one
    per occurrence, skipping the identifiers under which no note can be
    read. *)
Theorem getAllNotes_lists_the_indexed_notes_newest_first (d : Disk) :
  ∃ notes d',
    NotesService.getAllNotes SP d = (Resolved notes, d') ∧
    items d' = items d ∧
    newestFirst notes ∧
    (getItemRejects SP (requests d) = None →
     truthy (items d !! NotesService.NOTES_KEY) = false → notes = []) ∧
    (∀ text ids,
       readable SP (requests d) →
       items d !! NotesService.NOTES_KEY = Some text → text ≠ "" →
       JSON_parse_ids text = Resolved ids →
       notes ≡ₚ omap (storedNote (items d)) ids).
Proof.
  destruct (getAllNotes_run d) as (found & d' & Hrun & Hitems & Hnone & Hfound).
  eexists _, d'. split; [exact Hrun|]. split; [done|].
  split; [apply (Array_sort_sorted n_updatedAt)|]. split.
  - intros Hget Hindex. by rewrite (Hnone Hget Hindex).
  - intros text ids Hread Htext Hne Hids.
    rewrite (Array_sort_perm n_updatedAt). by rewrite (Hfound text ids).
Qed.

End Reading.

Section Errors.
Context (SP : StoragePlatform) `{J : Json}.

Lemma nonempty_length {A} (l : list A) : l ≠ [] → (0 <? length l)%nat = true.
Proof. by destruct l. Qed.

Lemma createNote_throws noteData d error :
  (NotesService.createNote SP noteData d).1 = Rejected error →
  error = AppErrorObject createFailed ∨
  ∃ message, error = ErrorObject message ∧ String_includes message "validation" = true.
Proof.
  unfold NotesService.createNote. rewrite try_catch_error_run.
  match goal with
  | |- context [match ?run with _ => _ end] => destruct run as [[note|[message|e]] d']
  end; cbn [fst]; [done| |].
  - destruct (String_includes message "validation") eqn:E;
      cbn; intros [= <-]; [right; by exists message|by left].
  - cbn. intros [= <-]. by left.
Qed.

Lemma updateNote_throws id updates d error :
  (NotesService.updateNote SP id updates d).1 = Rejected error →
  error = AppErrorObject updateFailed ∨
  ∃ message, error = ErrorObject message ∧
    (String_includes message "validation" = true ∨
     String_includes message "not found" = true).
Proof.
  unfold NotesService.updateNote. rewrite try_catch_error_run.
  match goal with
  | |- context [match ?run with _ => _ end] => destruct run as [[note|[message|e]] d']
  end; cbn [fst]; [done| |].
  - destruct (String_includes message "validation" || String_includes message "not found")
      eqn:E; cbn; intros [= <-]; [right; exists message|by left].
    split; [done|]. by apply orb_true_iff.
  - cbn. intros [= <-]. by left.
Qed.

End Errors.

(** A note that does not validate makes [createNote] reject without
    touching the store, and the error it rejects with is the storage error
    (code STORAGE_ERROR, Failed to create note), not the validation error
    thrown inside: the thrown object is not an [Error]. Every [AppError]
    [createNote] rejects with is that one. *)
Theorem createNote_reports_every_failure_as_storage_error
    (SP : StoragePlatform) `{J : Json} (noteData : NoteInput) (d : Disk) :
  (ValidationUtils.validateNote (NoteInput_as_partial noteData) ≠ [] →
   NotesService.createNote SP noteData d = (Rejected (AppErrorObject createFailed), d)) ∧
  (∀ error,
     (NotesService.createNote SP noteData d).1 = Rejected (AppErrorObject error) →
     error = createFailed ∧ code error = "STORAGE_ERROR").
Proof.
  split.
  - intros Hinvalid. unfold NotesService.createNote.
    rewrite try_catch_error_run, task_bind_run.
    by rewrite nonempty_length.
  - intros error [[= ->]|(? & [=] & _)]%createNote_throws. done.
Qed.

(** [updateNote] on an identifier under which no note can be read, or
    with updates that make the note invalid, rejects with the storage error
    (code STORAGE_ERROR, Failed to update note) and leaves the store's
    contents as they were; the not-found and validation errors thrown
    inside never reach the caller. Every [AppError] [updateNote] rejects
    with is that one. *)
Theorem updateNote_reports_every_failure_as_storage_error
    (SP : StoragePlatform) `{J : Json} (id : string) (updates : PartialNote) (d : Disk) :
  (getItemRejects SP (requests d) = None →
   storedNote (items d) id = None →
   NotesService.updateNote SP id updates d =
     (Rejected (AppErrorObject updateFailed), answered d (items d))) ∧
  (∀ existingNote,
     getItemRejects SP (requests d) = None →
     storedNote (items d) id = Some existingNote →
     ValidationUtils.validateNote (NotesService.merge existingNote updates) ≠ [] →
     NotesService.updateNote SP id updates d =
       (Rejected (AppErrorObject updateFailed), answered d (items d))) ∧
  (∀ error,
     (NotesService.updateNote SP id updates d).1 = Rejected (AppErrorObject error) →
     error = updateFailed ∧ code error = "STORAGE_ERROR").
Proof.
  split; [|split].
  - intros Hget Hnone. unfold NotesService.updateNote.
    rewrite try_catch_error_run, task_bind_run.
    destruct (getNoteById_run SP id d) as (note & -> & Hnote).
    by rewrite (Hnote Hget), Hnone.
  - intros existingNote Hget Hsome Hinvalid. unfold NotesService.updateNote.
    rewrite try_catch_error_run, task_bind_run.
    destruct (getNoteById_run SP id d) as (note & -> & Hnote).
    rewrite (Hnote Hget), Hsome. cbv zeta. rewrite task_bind_run.
    by rewrite nonempty_length.
  - intros error [[= ->]|(? & [=] & _)]%updateNote_throws. done.
Qed.

(** Closes a goal about a run that ended in the [catch]. *)
Ltac failed Hhandler :=
  let Hrun := fresh "Hrun" in
  intros Hrun;
  match type of Hrun with
  | ?handler ?error ?d0 = _ =>
      let e := fresh "e" in
      let He := fresh "He" in
      destruct (Hhandler error d0) as (e & He);
      rewrite He in Hrun; injection Hrun as <- <-
  end;
  split; [intros; congruence|intros _; split; [by eexists|done]].

Section Creating.
Context (SP : StoragePlatform) `{J : Json}.

Lemma valid_length {A} (l : list A) : l = [] → (0 <? length l)%nat = false.
Proof. by intros ->. Qed.

(** For a note that validates, once the store accepts the first write,
    [createNote] has stored the sanitized note under its new identifier.
    If the index is then read, parsed and written back, the call resolves
    with the note and the index lists the new identifier first, before the
    old ones. If any of these three steps fails the call rejects, but the
    note's text stays in the store without being listed in the index. *)
Theorem createNote_writes_the_note_then_the_index (noteData : NoteInput) (d : Disk) :
  ValidationUtils.validateNote (NoteInput_as_partial noteData) = [] →
  setItemRejects SP (requests d) = None →
  let id := ValidationUtils.generateId (storageClock SP (timeReads d)) (randomText SP (draws d)) in
  let note := noteCreated noteData id (storageClock SP (S (timeReads d))) in
  let written := <[NotesService.NOTE_PREFIX ++ id := JSON_stringify_note note]> (items d) in
  let r := NotesService.createNote SP noteData d in
  (∀ ids,
     getItemRejects SP (S (requests d)) = None →
     indexedIds (items d) = Resolved ids →
     setItemRejects SP (S (S (requests d))) = None →
     r.1 = Resolved note ∧
     items r.2 = <[NotesService.NOTES_KEY := JSON_stringify_ids (id :: ids)]> written) ∧
  ((∃ message, getItemRejects SP (S (requests d)) = Some message) ∨
   (∃ error, indexedIds (items d) = Rejected error) ∨
   (∃ message, setItemRejects SP (S (S (requests d))) = Some message) →
   (∃ error, r.1 = Rejected error) ∧ items r.2 = written).
Proof.
  intros Hvalid Hset id note written r. subst r.
  destruct (NotesService.createNote SP noteData d) as [o d'] eqn:Hrun. cbn [fst snd].
  revert Hrun. unfold NotesService.createNote.
  match goal with |- context [try_catch_error _ ?h] => set (handler := h) end.
  assert (∀ error (d0 : Disk), ∃ error', handler error d0 = (Rejected error', d0)) as Hhandler.
  { intros [message|e] d0; cbn; [|by eexists].
    destruct (String_includes message "validation"); by eexists. }
  clearbody handler.
  rewrite try_catch_error_run, task_bind_run, (valid_length _ Hvalid).
  unfold mret at 1, Task_ret at 1. cbv beta iota.
  rewrite task_bind_run. unfold new_Date at 1. cbv beta iota.
  rewrite task_bind_run. unfold Math_random_text at 1. cbv beta iota.
  rewrite task_bind_run. unfold new_Date at 1. cbv beta iota.
  cbn [timeReads draws items requests].
  fold id. fold (noteCreated noteData id (storageClock SP (S (timeReads d)))). fold note.
  rewrite task_bind_run. unfold AsyncStorage_setItem at 1.
  cbn [timeReads draws items requests]. rewrite Hset. cbv beta iota. fold written.
  rewrite task_bind_run. unfold AsyncStorage_getItem at 1.
  cbn [timeReads draws items requests answered].
  assert (written !! NotesService.NOTES_KEY = items d !! NotesService.NOTES_KEY) as Hindex.
  { unfold written. apply lookup_insert_ne. unfold NotesService.NOTE_PREFIX, NotesService.NOTES_KEY.
    cbn. intros [=]. }
  rewrite Hindex. unfold indexedIds.
  destruct (getItemRejects SP (S (requests d))) as [message|] eqn:Hget.
  { cbv beta iota. failed Hhandler. }
  cbv beta iota. rewrite task_bind_run.
  destruct (truthy (items d !! NotesService.NOTES_KEY)) eqn:Htruthy.
  - unfold evaluate at 1.
    destruct (JSON_parse_ids _) as [ids|error] eqn:Hparse.
    + cbv beta iota. rewrite task_bind_run. unfold AsyncStorage_setItem at 1.
      cbn [timeReads draws items requests answered].
      destruct (setItemRejects SP (S (S (requests d)))) as [message|] eqn:Hset2.
      * cbv beta iota. failed Hhandler.
      * cbv beta iota. intros [= <- <-]. split.
        -- intros ids' _ [= <-] _. done.
        -- intros [(? & [=])|[(? & [=])|(? & [=])]].
    + cbv beta iota. failed Hhandler.
  - unfold mret at 1, Task_ret at 1. cbv beta iota.
    rewrite task_bind_run. unfold AsyncStorage_setItem at 1.
    cbn [timeReads draws items requests answered].
    destruct (setItemRejects SP (S (S (requests d)))) as [message|] eqn:Hset2.
    * cbv beta iota. failed Hhandler.
    * cbv beta iota. intros [= <- <-]. split.
      -- intros ids' _ [= <-] _. done.
      -- intros [(? & [=])|[(? & [=])|(? & [=])]].
Qed.

End Creating.

Section PlainJsonFacts.
Import PlainJson.

Lemma readLiteral_escape s rest :
  readLiteral (escape s ++ String q rest) = Some (s, rest).
Proof.
  induction s as [|c s IH]; [done|]. cbn [escape].
  destruct (Ascii.eqb c q || Ascii.eqb c "\")%bool eqn:E.
  - change (readLiteral (String "\" (String c (escape s ++ String q rest))) =
            Some (String c s, rest)).
    change (match readLiteral (escape s ++ String q rest) with
            | Some (t, rest') => Some (String c t, rest')
            | None => None
            end = Some (String c s, rest)).
    by rewrite IH.
  - apply orb_false_iff in E as [Eq Eb].
    change (readLiteral (String c (escape s ++ String q rest)) = Some (String c s, rest)).
    cbn [readLiteral]. by rewrite Eq, Eb, IH.
Qed.

Lemma readElements_printed ids : ∀ id fuel,
  (length ids < fuel)%nat →
  readElements fuel
    (escape id ++ String q
       match ids with
       | [] => "]"
       | _ :: _ => String "," (printElements ids "]")
       end)
  = Some (id :: ids).
Proof.
  induction ids as [|id' ids IH]; intros id [|fuel] Hfuel; cbn in Hfuel; try lia.
  - cbn [readElements]. by rewrite readLiteral_escape.
  - cbn [readElements]. rewrite readLiteral_escape. cbn [printElements].
    change (Ascii.eqb q q) with true. cbv beta iota.
    rewrite IH by lia. done.
Qed.

Lemma length_append s t : String.length (s ++ t) = (String.length s + String.length t)%nat.
Proof.
  induction s as [|c s IH]; [done|].
  change (S (String.length (s ++ t)) = S (String.length s + String.length t)).
  by rewrite IH.
Qed.

Lemma length_printElements ids rest :
  (length ids ≤ String.length (printElements ids rest))%nat.
Proof.
  induction ids as [|id ids IH]; [cbn; lia|].
  change (printElements (id :: ids) rest) with
    (String q (escape id ++ String q
       match ids with
       | [] => rest
       | _ :: _ => String "," (printElements ids rest)
       end)).
  change (String.length (String q ?t)) with (S (String.length t)).
  rewrite length_append.
  change (String.length (String q ?t)) with (S (String.length t)).
  destruct ids as [|id' ids]; [cbn [length]; lia|].
  change (String.length (String "," ?t)) with (S (String.length t)).
  cbn [length] in IH |- *. lia.
Qed.

#[export] Instance PlainJson_spec : JsonSpec PlainJson.json.
Proof.
  split; cbn [JSON_stringify_ids JSON_parse_ids JSON_stringify_note PlainJson.json].
  - intros [|id ids]; [done|].
    change (stringify_ids (id :: ids)) with
      (String "[" (String q (escape id ++ String q
         match ids with
         | [] => "]"
         | _ :: _ => String "," (printElements ids "]")
         end))).
    set (rest := escape id ++ _).
    change (parse_ids (String "[" (String q rest))) with
      (match readElements (String.length rest) rest with
       | Some ids => Resolved ids
       | None => syntaxError
       end).
    subst rest. rewrite readElements_printed; [done|].
    rewrite length_append.
    change (String.length (String q ?t)) with (S (String.length t)).
    destruct ids as [|id' ids]; [cbn; lia|].
    change (String.length (String "," ?t)) with (S (String.length t)).
    pose proof (length_printElements (id' :: ids) "]"). lia.
  - intros ids. done.
  - intros note. done.
Qed.

End PlainJsonFacts.

Lemma note_key_is_not_the_index id :
  NotesService.NOTE_PREFIX ++ id ≠ NotesService.NOTES_KEY.
Proof. unfold NotesService.NOTE_PREFIX, NotesService.NOTES_KEY. cbn. intros [=]. Qed.

Section Deleting.
Context (SP : StoragePlatform) `{J : Json}.

Lemma storedNote_delete contents id :
  storedNote (delete (NotesService.NOTE_PREFIX ++ id) contents) id = None.
Proof. unfold storedNote. by rewrite lookup_delete_eq. Qed.

Lemma storedNote_insert_index contents text id :
  storedNote (<[NotesService.NOTES_KEY := text]> contents) id = storedNote contents id.
Proof.
  unfold storedNote. rewrite lookup_insert_ne; [done|].
  intros H. by apply (note_key_is_not_the_index id).
Qed.

(** [deleteNote] rejects with the store's own error, and changes nothing,
    when the removal is rejected. Otherwise the note's text is gone and the
    note can no longer be read, whatever happens next. If reading the index
    is rejected the call rejects with the store's error; without an index it
    resolves; if the index does not parse the call rejects with the parser's
    error; if the store rejects the new index the call rejects with the
    store's error; in these cases nothing but the note's text has changed.
    Otherwise the call resolves and the index is written back without any
    occurrence of the identifier. *)
Theorem deleteNote_removes_the_note_and_its_index_entry (id : string) (d : Disk) :
  let removed := delete (NotesService.NOTE_PREFIX ++ id) (items d) in
  let filtered ids := JSON_stringify_ids (filter (λ noteId, noteId ≠ id) ids) in
  let r := NotesService.deleteNote SP id d in
  (∀ message, removeItemRejects SP (requests d) = Some message →
     r = (Rejected (ErrorObject message), answered d (items d))) ∧
  (removeItemRejects SP (requests d) = None →
   storedNote (items r.2) id = None ∧
   (∀ message, getItemRejects SP (S (requests d)) = Some message →
      r.1 = Rejected (ErrorObject message) ∧ items r.2 = removed) ∧
   (getItemRejects SP (S (requests d)) = None →
    (truthy (items d !! NotesService.NOTES_KEY) = false →
     r.1 = Resolved tt ∧ items r.2 = removed) ∧
    (truthy (items d !! NotesService.NOTES_KEY) = true →
     (∀ error, indexedIds (items d) = Rejected error →
        r.1 = Rejected error ∧ items r.2 = removed) ∧
     (∀ ids, indexedIds (items d) = Resolved ids →
        (∀ message, setItemRejects SP (S (S (requests d))) = Some message →
           r.1 = Rejected (ErrorObject message) ∧ items r.2 = removed) ∧
        (setItemRejects SP (S (S (requests d))) = None →
           r.1 = Resolved tt ∧
           items r.2 = <[NotesService.NOTES_KEY := filtered ids]> removed))))).
Proof.
  intros removed filtered r. subst r.
  destruct (NotesService.deleteNote SP id d) as [o d'] eqn:Hrun. cbn [fst snd].
  revert Hrun. unfold NotesService.deleteNote.
  rewrite try_catch_error_run, task_bind_run. unfold AsyncStorage_removeItem at 1.
  destruct (removeItemRejects SP (requests d)) as [message|] eqn:Hremove.
  { cbv beta iota. unfold reject. intros [= <- <-]. split; [|done].
    by intros ? [= <-]. }
  cbv beta iota. fold removed.
  rewrite task_bind_run. unfold AsyncStorage_getItem at 1.
  cbn [timeReads draws items requests answered].
  assert (removed !! NotesService.NOTES_KEY = items d !! NotesService.NOTES_KEY) as Hindex.
  { unfold removed. apply lookup_delete_ne, note_key_is_not_the_index. }
  rewrite Hindex. unfold indexedIds.
  destruct (getItemRejects SP (S (requests d))) as [message|] eqn:Hget.
  { cbv beta iota. unfold reject. intros [= <- <-]. split; [done|]. intros _.
    split; [apply storedNote_delete|]. split; [|done].
    by intros ? [= <-]. }
  cbv beta iota.
  destruct (truthy (items d !! NotesService.NOTES_KEY)) eqn:Htruthy.
  2:{ unfold mret, Task_ret. intros [= <- <-]. split; [done|]. intros _.
      split; [apply storedNote_delete|]. split; [done|]. intros _.
      split; [done|]. done. }
  rewrite task_bind_run. unfold evaluate at 1.
  destruct (JSON_parse_ids _) as [ids|error] eqn:Hparse.
  2:{ cbv beta iota. unfold reject. intros [= <- <-]. split; [done|]. intros _.
      split; [apply storedNote_delete|]. split; [done|]. intros _.
      split; [done|]. intros _. split; [|done].
      by intros ? [= <-]. }
  cbv beta iota. unfold AsyncStorage_setItem at 1.
  cbn [timeReads draws items requests answered].
  destruct (setItemRejects SP (S (S (requests d)))) as [message|] eqn:Hset.
  { cbv beta iota. unfold reject. intros [= <- <-]. split; [done|]. intros _.
    split; [apply storedNote_delete|]. split; [done|]. intros _.
    split; [done|]. intros _. split; [done|].
    intros ? [= <-]. split; [|done]. by intros ? [= <-]. }
  cbv beta iota. intros [= <- <-]. split; [done|]. intros _.
  split.
  { cbn [items answered]. rewrite storedNote_insert_index. apply storedNote_delete. }
  split; [done|]. intros _. split; [done|]. intros _. split; [done|].
  intros ? [= <-]. split; [done|]. intros _. done.
Qed.

End Deleting.

Section DeletingRun.
Import PlainJson.

Lemma deleteNote_removes_the_note_and_its_index_entry_witness :
  let d := (NotesService.createNote Sample.reliableStore Sample.draft emptyDisk).2 in
  let id := "1700000000000-k3j9x2m10" in
  let r := NotesService.deleteNote Sample.reliableStore id d in
  storedNote (items r.2) id = None ∧
  r.1 = Resolved tt ∧
  items r.2 =
    <[NotesService.NOTES_KEY := JSON_stringify_ids []]>
      (delete (NotesService.NOTE_PREFIX ++ id) (items d)).
Proof.
  intros d id r.
  destruct (deleteNote_removes_the_note_and_its_index_entry Sample.reliableStore id d) as [_ H].
  destruct (H eq_refl) as (Hgone & _ & Hread).
  split; [exact Hgone|].
  destruct (Hread eq_refl) as [_ Hindexed].
  destruct (Hindexed eq_refl) as [_ Hparsed].
  destruct (Hparsed [id] eq_refl) as [_ Hwritten].
  exact (Hwritten eq_refl).
Defined.

End DeletingRun.

Section Updating.
Context (SP : StoragePlatform) `{J : Json}.

(** When the note can be read, the merged note validates and the store
    accepts the write, [updateNote] resolves with the updated note and
    stores it under the same key; the index is not touched. The note keeps
    the identifier it was asked for, gets the new time as [updatedAt], and
    keeps its old content when the update has no content or an empty one:
    a content cannot be cleared. *)
Theorem updateNote_rewrites_the_note_in_place
    (id : string) (updates : PartialNote) (existingNote : NoteRecord) (d : Disk) :
  getItemRejects SP (requests d) = None →
  storedNote (items d) id = Some existingNote →
  ValidationUtils.validateNote (NotesService.merge existingNote updates) = [] →
  setItemRejects SP (S (requests d)) = None →
  let note := noteUpdated id existingNote updates (storageClock SP (timeReads d)) in
  let r := NotesService.updateNote SP id updates d in
  r.1 = Resolved note ∧
  items r.2 = <[NotesService.NOTE_PREFIX ++ id := JSON_stringify_note note]> (items d) ∧
  items r.2 !! NotesService.NOTES_KEY = items d !! NotesService.NOTES_KEY ∧
  n_id note = id ∧
  n_updatedAt note = storageClock SP (timeReads d) ∧
  (p_content updates = Some "" → n_content note = n_content existingNote) ∧
  (p_content updates = None → n_content note = n_content existingNote).
Proof.
  intros Hget Hstored Hvalid Hset note r. subst r.
  destruct (NotesService.updateNote SP id updates d) as [o d'] eqn:Hrun. cbn [fst snd].
  revert Hrun. unfold NotesService.updateNote.
  rewrite try_catch_error_run, task_bind_run.
  destruct (getNoteById_run SP id d) as (found & -> & Hfound).
  rewrite (Hfound Hget), Hstored. cbv zeta.
  rewrite task_bind_run, (valid_length _ Hvalid).
  unfold mret at 1, Task_ret at 1. cbv beta iota.
  rewrite task_bind_run. unfold new_Date at 1. cbv beta iota.
  cbn [timeReads draws items requests answered].
  fold (noteUpdated id existingNote updates (storageClock SP (timeReads d))). fold note.
  rewrite task_bind_run. unfold AsyncStorage_setItem at 1.
  cbn [timeReads draws items requests answered]. rewrite Hset.
  cbv beta iota. intros [= <- <-]. cbn [items answered].
  split; [done|]. split; [done|]. split.
  { apply lookup_insert_ne, note_key_is_not_the_index. }
  split; [done|]. split; [done|].
  split; intros Hcontent; unfold note, noteUpdated; cbn [n_content]; by rewrite Hcontent.
Qed.

End Updating.

Lemma String_or_empty s : String_or s "" = s.
Proof. unfold String_or. by destruct (String.eqb_spec s ""). Qed.

Lemma sanitizeText_blank text :
  blank text = false → blank (ValidationUtils.sanitizeText text) = false.
Proof.
  intros Hb. destruct (sanitizeText_normalized text) as [Hempty|Htight].
  - apply sanitizeText_empty in Hempty. by rewrite Hempty in Hb.
  - by apply tight_blank.
Qed.

Section Validity.
Context (SP : StoragePlatform) `{J : Json}.

(** A resolved [createNote] returns the note built from its argument. *)
Lemma createNote_resolved noteData d note :
  (NotesService.createNote SP noteData d).1 = Resolved note →
  ValidationUtils.validateNote (NoteInput_as_partial noteData) = [] ∧
  note = noteCreated noteData
           (ValidationUtils.generateId (storageClock SP (timeReads d)) (randomText SP (draws d)))
           (storageClock SP (S (timeReads d))).
Proof.
  unfold NotesService.createNote.
  match goal with |- context [try_catch_error _ ?h] => set (handler := h) end.
  assert (∀ error (d0 : Disk), (handler error d0).1 ≠ Resolved note) as Hhandler.
  { intros [message|e] d0; cbn; [|done].
    by destruct (String_includes message "validation"). }
  clearbody handler.
  rewrite try_catch_error_run, task_bind_run.
  destruct (ValidationUtils.validateNote (NoteInput_as_partial noteData)) as [|e es] eqn:Hv.
  2:{ cbn [length Nat.ltb Nat.leb]. unfold reject at 1. cbv beta iota.
      intros H. by apply Hhandler in H. }
  cbn [length Nat.ltb Nat.leb].
  unfold mret at 1, Task_ret at 1. cbv beta iota.
  rewrite task_bind_run. unfold new_Date at 1. cbv beta iota.
  rewrite task_bind_run. unfold Math_random_text at 1. cbv beta iota.
  rewrite task_bind_run. unfold new_Date at 1. cbv beta iota.
  cbn [timeReads draws items requests].
  fold (noteCreated noteData
          (ValidationUtils.generateId (storageClock SP (timeReads d)) (randomText SP (draws d)))
          (storageClock SP (S (timeReads d)))).
  set (created := noteCreated _ _ _).
  rewrite task_bind_run.
  match goal with |- context [AsyncStorage_setItem SP ?k ?v ?d0] =>
    destruct (AsyncStorage_setItem SP k v d0) as [[[]|e1] d1]
  end; [|intros H; by apply Hhandler in H].
  rewrite task_bind_run.
  destruct (AsyncStorage_getItem SP NotesService.NOTES_KEY d1) as [[noteIds|e2] d2];
    [|intros H; by apply Hhandler in H].
  rewrite task_bind_run.
  match goal with |- context [match ?run d2 with _ => _ end] =>
    destruct (run d2) as [[ids|e3] d3]
  end; [|intros H; by apply Hhandler in H].
  rewrite task_bind_run.
  match goal with |- context [AsyncStorage_setItem SP ?k ?v ?d0] =>
    destruct (AsyncStorage_setItem SP k v d0) as [[[]|e4] d4]
  end; [|intros H; by apply Hhandler in H].
  unfold mret, Task_ret. cbn [fst]. intros [= <-]. done.
Qed.

(** A resolved [updateNote] returns the note built from the one it read. *)
Lemma updateNote_resolved id updates d note :
  (NotesService.updateNote SP id updates d).1 = Resolved note →
  ∃ existingNote,
    (NotesService.getNoteById SP id d).1 = Resolved (Some existingNote) ∧
    ValidationUtils.validateNote (NotesService.merge existingNote updates) = [] ∧
    note = noteUpdated id existingNote updates (storageClock SP (timeReads d)).
Proof.
  unfold NotesService.updateNote.
  match goal with |- context [try_catch_error _ ?h] => set (handler := h) end.
  assert (∀ error (d0 : Disk), (handler error d0).1 ≠ Resolved note) as Hhandler.
  { intros [message|e] d0; cbn; [|done].
    by destruct (String_includes message "validation" || String_includes message "not found"). }
  clearbody handler.
  rewrite try_catch_error_run, task_bind_run.
  destruct (getNoteById_run SP id d) as (found & Hrun & _). rewrite Hrun.
  destruct found as [existingNote|];
    [|unfold reject at 1; cbv beta iota; intros H; by apply Hhandler in H].
  cbv zeta. rewrite task_bind_run.
  destruct (ValidationUtils.validateNote (NotesService.merge existingNote updates))
    as [|e es] eqn:Hv.
  2:{ cbn [length Nat.ltb Nat.leb]. unfold reject at 1. cbv beta iota.
      intros H. by apply Hhandler in H. }
  cbn [length Nat.ltb Nat.leb].
  unfold mret at 1, Task_ret at 1. cbv beta iota.
  rewrite task_bind_run. unfold new_Date at 1. cbv beta iota.
  cbn [timeReads draws items requests answered].
  fold (noteUpdated id existingNote updates (storageClock SP (timeReads d))).
  rewrite task_bind_run.
  match goal with |- context [AsyncStorage_setItem SP ?k ?v ?d0] =>
    destruct (AsyncStorage_setItem SP k v d0) as [[[]|e1] d1]
  end; [|intros H; by apply Hhandler in H].
  unfold mret, Task_ret. cbn [fst]. intros [= <-]. by exists existingNote.
Qed.

(** Every note [createNote] resolves with passes [validateNote], and so
    does every note [updateNote] resolves with when the note it read did:
    sanitizing the title and the content never makes a valid note
    invalid. *)
Theorem notes_written_by_the_service_validate :
  (∀ noteData d note,
     (NotesService.createNote SP noteData d).1 = Resolved note →
     ValidationUtils.validateNote (NoteRecord_as_partial note) = []) ∧
  (∀ id updates d existingNote note,
     (NotesService.getNoteById SP id d).1 = Resolved (Some existingNote) →
     ValidationUtils.validateNote (NoteRecord_as_partial existingNote) = [] →
     (NotesService.updateNote SP id updates d).1 = Resolved note →
     ValidationUtils.validateNote (NoteRecord_as_partial note) = []).
Proof.
  split.
  - intros noteData d note [Hvalid ->]%createNote_resolved.
    apply validateNote_nil_iff in Hvalid
      as ((title & [= <-] & Hblank & Hlen) & Hcontent & Htags & Hphotos).
    apply validateNote_nil_iff. cbn. split; [|split; [|split]].
    + eexists. split; [done|]. split; [by apply sanitizeText_blank|].
      pose proof (sanitizeText_length (i_title noteData)). unfold ValidationUtils.sanitizeText, replaceWhiteSpaceRuns, String_trim in *; lia.
    + intros ? [= <-]. rewrite String_or_empty.
      pose proof (sanitizeText_length (i_content noteData)).
      specialize (Hcontent _ eq_refl). unfold ValidationUtils.sanitizeText, replaceWhiteSpaceRuns, String_trim in *; lia.
    + intros ? [= <-]. by apply Htags.
    + intros ? [= <-]. by apply Hphotos.
  - intros id updates d existingNote note Hread Hexisting
      (existingNote' & Hread' & Hvalid & ->)%updateNote_resolved.
    rewrite Hread in Hread'. injection Hread' as <-.
    apply validateNote_nil_iff in Hvalid
      as ((title & Htitle & Hblank & Hlen) & Hcontent & Htags & Hphotos).
    apply validateNote_nil_iff in Hexisting
      as ((title0 & [= <-] & Hblank0 & Hlen0) & Hcontent0 & _).
    cbn in Htitle, Hcontent, Htags, Hphotos, Hcontent0. injection Htitle as <-.
    apply validateNote_nil_iff. cbn. split; [|split; [|split]].
    + eexists. split; [done|].
      destruct (p_title updates) as [t|]; cbn in Hblank, Hlen |- *.
      * destruct (String.eqb_spec t "") as [->|_]; [done|]. cbn.
        split; [exact (sanitizeText_blank _ Hblank)|].
        pose proof (sanitizeText_length t). unfold ValidationUtils.sanitizeText, replaceWhiteSpaceRuns, String_trim in *; lia.
      * done.
    + intros ? [= <-].
      destruct (p_content updates) as [c|]; cbn.
      * destruct (String.eqb_spec c "") as [->|_]; cbn; [by apply Hcontent0|].
        pose proof (sanitizeText_length c). specialize (Hcontent _ eq_refl).
        cbn in Hcontent. unfold ValidationUtils.sanitizeText, replaceWhiteSpaceRuns, String_trim in *; lia.
      * by apply Hcontent0.
    + intros ? [= <-]. by apply Htags.
    + intros ? [= <-]. by apply Hphotos.
Qed.

End Validity.

Lemma String_includes_empty s : String_includes s "" = true.
Proof. by destruct s. Qed.

Lemma toLowerCase_unit_idemp c : toLowerCase_unit (toLowerCase_unit c) = toLowerCase_unit c.
Proof. by destruct c as [[] [] [] [] [] [] [] []]; vm_compute. Qed.

Lemma String_toLowerCase_idemp s :
  String_toLowerCase (String_toLowerCase s) = String_toLowerCase s.
Proof.
  induction s as [|c s IH]; [done|]. cbn [String_toLowerCase].
  by rewrite toLowerCase_unit_idemp, IH.
Qed.

Lemma filter_all {A} (f : A → bool) l : (∀ x, f x = true) → List.filter f l = l.
Proof. intros Hf. induction l as [|x l IH]; [done|]. cbn. by rewrite Hf, IH. Qed.

Section Searching.
Context (SP : StoragePlatform) `{J : Json}.

Lemma getAllNotes_resolves d :
  ∃ notes d', NotesService.getAllNotes SP d = (Resolved notes, d').
Proof.
  destruct (getAllNotes_run SP d) as (found & d' & H & _).
  by eexists _, d'.
Qed.

(** [searchNotes] always resolves, with the notes of [getAllNotes], in
    the same order, whose title, content, category or one of whose tags
    contains, in lower case, the query in lower case ([matchesQuery]). The
    case of the query does not matter, and the empty query gives every
    note. *)
Theorem searchNotes_filters_the_list (query : string) (d : Disk) :
  ∃ notes d',
    NotesService.getAllNotes SP d = (Resolved notes, d') ∧
    NotesService.searchNotes SP query d =
      (Resolved (List.filter (NotesService.matchesQuery (String_toLowerCase query)) notes), d') ∧
    NotesService.searchNotes SP (String_toLowerCase query) d =
      NotesService.searchNotes SP query d ∧
    (query = "" → NotesService.searchNotes SP query d = (Resolved notes, d')).
Proof.
  destruct (getAllNotes_resolves d) as (notes & d' & Hall).
  exists notes, d'. split; [done|].
  assert (∀ q, NotesService.searchNotes SP q d =
               (Resolved (List.filter (NotesService.matchesQuery (String_toLowerCase q)) notes),
                d')) as Hsearch.
  { intros q. unfold NotesService.searchNotes.
    by rewrite try_catch_error_run, task_bind_run, Hall. }
  split; [apply Hsearch|]. split.
  - by rewrite !Hsearch, String_toLowerCase_idemp.
  - intros ->. rewrite Hsearch. f_equal. f_equal. apply filter_all.
    intros note. unfold NotesService.matchesQuery. cbn [String_toLowerCase].
    by rewrite String_includes_empty.
Qed.

End Searching.

Lemma omap_length_le {A B} (f : A → option B) l : (length (omap f l) ≤ length l)%nat.
Proof. induction l as [|x l IH]; [done|]. cbn. destruct (f x); cbn; lia. Qed.

Section RoundTrip.
Context (SP : StoragePlatform) `{J : Json} {JS : JsonSpec J}.

Lemma truthy_stringify_ids ids : truthy (Some (JSON_stringify_ids ids)) = true.
Proof. apply truthy_Some, JSON_stringify_ids_truthy. Qed.

Lemma indexedIds_written contents ids :
  indexedIds (<[NotesService.NOTES_KEY := JSON_stringify_ids ids]> contents) = Resolved ids.
Proof.
  unfold indexedIds. rewrite lookup_insert_eq, truthy_stringify_ids.
  cbn [default from_option]. apply JSON_parse_stringify_ids.
Qed.

Lemma storedNote_written contents id note :
  JSON_parse_note (JSON_stringify_note note) = Resolved note →
  storedNote (<[NotesService.NOTE_PREFIX ++ id := JSON_stringify_note note]> contents) id
  = Some note.
Proof.
  intros Hparse. unfold storedNote. rewrite lookup_insert_eq.
  destruct (String.eqb_spec (JSON_stringify_note note) "") as [Hempty|_].
  - by apply JSON_stringify_note_truthy in Hempty.
  - by rewrite Hparse.
Qed.

Lemma accepting_readable k j : accepting SP k → (k ≤ j)%nat → readable SP j.
Proof. intros Hk Hj i Hi. apply Hk. lia. Qed.

(** The run of [createNote] on a store that accepts its three requests. *)
Lemma createNote_accepted (noteData : NoteInput) (d : Disk) (ids : list string) :
  ValidationUtils.validateNote (NoteInput_as_partial noteData) = [] →
  accepting SP (requests d) →
  indexedIds (items d) = Resolved ids →
  let id := ValidationUtils.generateId (storageClock SP (timeReads d)) (randomText SP (draws d)) in
  let note := noteCreated noteData id (storageClock SP (S (timeReads d))) in
  ∃ d1,
    NotesService.createNote SP noteData d = (Resolved note, d1) ∧
    items d1 =
      <[NotesService.NOTES_KEY := JSON_stringify_ids (id :: ids)]>
        (<[NotesService.NOTE_PREFIX ++ id := JSON_stringify_note note]> (items d)) ∧
    requests d1 = S (S (S (requests d))).
Proof.
  intros Hvalid Haccepting Hindex id note.
  unfold NotesService.createNote.
  rewrite try_catch_error_run, task_bind_run, (valid_length _ Hvalid).
  unfold mret at 1, Task_ret at 1. cbv beta iota.
  rewrite task_bind_run. unfold new_Date at 1. cbv beta iota.
  rewrite task_bind_run. unfold Math_random_text at 1. cbv beta iota.
  rewrite task_bind_run. unfold new_Date at 1. cbv beta iota.
  cbn [timeReads draws items requests].
  fold id. fold (noteCreated noteData id (storageClock SP (S (timeReads d)))). fold note.
  rewrite task_bind_run. unfold AsyncStorage_setItem at 1.
  cbn [timeReads draws items requests].
  destruct (Haccepting (requests d) ltac:(lia)) as (_ & -> & _). cbv beta iota.
  rewrite task_bind_run. unfold AsyncStorage_getItem at 1.
  cbn [timeReads draws items requests answered].
  destruct (Haccepting (S (requests d)) ltac:(lia)) as (-> & _ & _). cbv beta iota.
  rewrite task_bind_run.
  rewrite lookup_insert_ne by apply note_key_is_not_the_index.
  unfold indexedIds in Hindex.
  destruct (truthy (items d !! NotesService.NOTES_KEY)).
  - unfold evaluate at 1. rewrite Hindex. cbv beta iota.
    rewrite task_bind_run. unfold AsyncStorage_setItem at 1.
    cbn [timeReads draws items requests answered].
    destruct (Haccepting (S (S (requests d))) ltac:(lia)) as (_ & -> & _).
    cbv beta iota. eexists. split; [reflexivity|]. by split.
  - injection Hindex as <-.
    unfold mret at 1, Task_ret at 1. cbv beta iota.
    rewrite task_bind_run. unfold AsyncStorage_setItem at 1.
    cbn [timeReads draws items requests answered].
    destruct (Haccepting (S (S (requests d))) ltac:(lia)) as (_ & -> & _).
    cbv beta iota. eexists. split; [reflexivity|]. by split.
Qed.

(** On a store that rejects nothing, with a readable index and a note
    that validates and survives being printed and parsed, [createNote]
    resolves with the note, [getNoteById] on its identifier then returns
    it, the index lists the identifier first, and [getAllNotes] returns it
    among no more notes than the index has identifiers. *)
Theorem a_created_note_is_read_back_and_listed
    (noteData : NoteInput) (d : Disk) (ids : list string) :
  ValidationUtils.validateNote (NoteInput_as_partial noteData) = [] →
  accepting SP (requests d) →
  indexedIds (items d) = Resolved ids →
  let id := ValidationUtils.generateId (storageClock SP (timeReads d)) (randomText SP (draws d)) in
  let note := noteCreated noteData id (storageClock SP (S (timeReads d))) in
  JSON_parse_note (JSON_stringify_note note) = Resolved note →
  let r := NotesService.createNote SP noteData d in
  r.1 = Resolved note ∧
  (NotesService.getNoteById SP id r.2).1 = Resolved (Some note) ∧
  indexedIds (items r.2) = Resolved (id :: ids) ∧
  ∃ notes,
    (NotesService.getAllNotes SP r.2).1 = Resolved notes ∧
    note ∈ notes ∧
    (length notes ≤ S (length ids))%nat.
Proof.
  intros Hvalid Haccepting Hindex id note Hparse r. subst r.
  destruct (createNote_accepted noteData d ids Hvalid Haccepting Hindex)
    as (d1 & -> & Hitems & Hrequests).
  fold id note in Hitems. cbn [fst snd].
  assert (storedNote (items d1) id = Some note) as Hstored.
  { rewrite Hitems, storedNote_insert_index. by apply storedNote_written. }
  split; [done|]. split; [|split].
  - destruct (getNoteById_run SP id d1) as (found & -> & Hfound). cbn [fst].
    rewrite Hfound, Hstored; [done|]. apply Haccepting. lia.
  - rewrite Hitems. apply indexedIds_written.
  - destruct (getAllNotes_run SP d1) as (found & d2 & Hrun & _ & _ & Hfound).
    eexists. rewrite Hrun. split; [done|].
    rewrite (Array_sort_perm n_updatedAt).
    specialize (Hfound (JSON_stringify_ids (id :: ids)) (id :: ids)).
    rewrite Hfound.
    + split.
      * cbn [omap list_omap]. rewrite Hstored. by left.
      * pose proof (omap_length_le (storedNote (items d1)) (id :: ids)) as Hle.
        cbn [length] in Hle. lia.
    + apply (accepting_readable (requests d)); [done|lia].
    + rewrite Hitems. apply lookup_insert_eq.
    + apply JSON_stringify_ids_truthy.
    + apply JSON_parse_stringify_ids.
Qed.

End RoundTrip.

Section NotesRun.
Import PlainJson.

Lemma createNote_writes_the_note_then_the_index_witness :
  let id := "1700000000000-k3j9x2m10" in
  let note := noteCreated Sample.draft id 1700000001000 in
  let r := NotesService.createNote Sample.reliableStore Sample.draft emptyDisk in
  r.1 = Resolved note ∧
  items r.2 =
    <[NotesService.NOTES_KEY := JSON_stringify_ids [id]]>
      (<[NotesService.NOTE_PREFIX ++ id := JSON_stringify_note note]> ∅).
Proof.
  intros id note r.
  destruct (createNote_writes_the_note_then_the_index
              Sample.reliableStore Sample.draft emptyDisk) as [H _];
    [vm_compute; reflexivity|reflexivity|].
  apply (H []); reflexivity.
Defined.

Lemma updateNote_rewrites_the_note_in_place_witness :
  let id := "1700000000000-k3j9x2m10" in
  let d := (NotesService.createNote Sample.reliableStore Sample.draft emptyDisk).2 in
  let existingNote := noteCreated Sample.draft id 1700000001000 in
  let note := noteUpdated id existingNote Sample.retitle 1700000002000 in
  let r := NotesService.updateNote Sample.reliableStore id Sample.retitle d in
  r.1 = Resolved note ∧
  items r.2 = <[NotesService.NOTE_PREFIX ++ id := JSON_stringify_note note]> (items d) ∧
  items r.2 !! NotesService.NOTES_KEY = items d !! NotesService.NOTES_KEY ∧
  n_id note = id ∧
  n_updatedAt note = 1700000002000 ∧
  (p_content Sample.retitle = Some "" → n_content note = n_content existingNote) ∧
  (p_content Sample.retitle = None → n_content note = n_content existingNote).
Proof.
  intros id d existingNote note r.
  apply (updateNote_rewrites_the_note_in_place Sample.reliableStore id Sample.retitle
           existingNote d); vm_compute; reflexivity.
Defined.

Lemma a_created_note_is_read_back_and_listed_witness :
  let id := "1700000000000-k3j9x2m10" in
  let note := noteCreated Sample.draft id 1700000001000 in
  let r := NotesService.createNote Sample.reliableStore Sample.draft emptyDisk in
  r.1 = Resolved note ∧
  (NotesService.getNoteById Sample.reliableStore id r.2).1 = Resolved (Some note) ∧
  indexedIds (items r.2) = Resolved [id] ∧
  ∃ notes,
    (NotesService.getAllNotes Sample.reliableStore r.2).1 = Resolved notes ∧
    note ∈ notes ∧
    (length notes ≤ 1)%nat.
Proof.
  intros id note r.
  apply (a_created_note_is_read_back_and_listed Sample.reliableStore Sample.draft emptyDisk []).
  - vm_compute; reflexivity.
  - intros j _. repeat split.
  - reflexivity.
  - vm_compute; reflexivity.
Defined.

End NotesRun.
